(** * Binary patricia-merkle trie (storage/merkle/tree.go)

    A shallow embedding of the trie of [storage/merkle/tree.go]: the node
    model, the traversal loops of [unsafePut], [unsafeGet], [Prove] and
    [unsafeDel], the cleanup performed after a deletion, [merge], and the
    proof verifier [Verify].

    Conventions of the embedding:
    - Go's [int] is modelled by [Z]; every integer that the code computes on
      a trie built through the API is bounded by [8 * 8192], far below the
      64-bit range, so no wrap is written out for [int].  The conversion
      [uint8(..)] of [Prove] does wrap and is written out ([uint8_of]).
    - A [[]byte] is a [list byte]; a nil slice and an empty slice are both
      the empty list.
    - A run-time panic of Go (index out of range, nil dereference) is the
      outcome [Panic]; the unbounded [for] loops take a fuel argument and
      give [OutOfFuel] when it is exhausted.
    - A mutable slot reference ([cur := &t.root], [cur = &n.left], ...) is a
      one-hole context: the list of frames from the slot up to the root. *)

From Stdlib Require Import ZArith List Lia Bool.
From Stdlib Require Import Strings.Byte.
From Stdlib Require Import Sorting.Permutation.
Import ListNotations.
Open Scope Z_scope.

(** ** Outcomes of a computation *)

Inductive outcome (A : Type) : Type :=
| Done (a : A)
| Panic
| OutOfFuel.
Arguments Done {A} a.
Arguments Panic {A}.
Arguments OutOfFuel {A}.

Definition bind {A B : Type} (m : outcome A) (k : A -> outcome B) : outcome B :=
  match m with
  | Done a => k a
  | Panic => Panic
  | OutOfFuel => OutOfFuel
  end.

Notation "x <- m ;; k" := (bind m (fun x => k))
  (at level 61, m at next level, right associativity).

(** ** Bytes *)

Definition bytes : Type := list byte.

(** The numeric value of a byte, as Go's [int(b)]. *)
Definition byte_val (b : byte) : Z := Z.of_N (Byte.to_N b).

(** Go's conversion [uint8(z)] / [byte(z)]: the value modulo 256. *)
Definition uint8_of (z : Z) : byte :=
  match Byte.of_N (Z.to_N (z mod 256)) with
  | Some b => b
  | None => x00
  end.

(** [len(s)] *)
Definition len {A : Type} (s : list A) : Z := Z.of_nat (length s).

(** [s[i]], which panics outside [0 <= i < len(s)]. *)
Definition index_at {A : Type} (s : list A) (i : Z) : outcome A :=
  if i <? 0 then Panic
  else match nth_error s (Z.to_nat i) with
       | Some a => Done a
       | None => Panic
       end.

(** [s[i] = a] *)
Fixpoint set_nth {A : Type} (s : list A) (n : nat) (a : A) : list A :=
  match s, n with
  | [], _ => []
  | _ :: s', O => a :: s'
  | x :: s', S n' => x :: set_nth s' n' a
  end.

Definition assign_at {A : Type} (s : list A) (i : Z) (a : A) : outcome (list A) :=
  if (i <? 0) || (len s <=? i) then Panic
  else Done (set_nth s (Z.to_nat i) a).

(** A counted loop [for i := 0; i < n; i++ { s = body(i, s) }], started at
    index [i] with [n] iterations left. *)
Fixpoint for_range {S : Type} (n : nat) (i : Z) (body : Z -> S -> outcome S) (s : S)
  : outcome S :=
  match n with
  | O => Done s
  | S n' => s' <- body i s ;; for_range n' (i + 1) body s'
  end.

(** ** Bit utilities (package bitutils) *)

Module bitutils.

(** Modelled from the spec: the package [ledger/common/bitutils] is not part
    of the sources at hand.  [ReadBit] reads bit [idx] of a byte sequence,
    bit 0 being the most significant bit of [b[0]]; the index into the slice
    is [idx >> 3], and indexing outside the slice panics.  *)
Definition ReadBit (b : bytes) (idx : Z) : outcome Z :=
  byteValue <- index_at b (Z.shiftr idx 3) ;;
  Done (Z.land (Z.shiftr (byte_val byteValue) (7 - Z.land idx 7)) 1).

(** Modelled from the spec: [set_bit(buf, i)] sets bit [i] (MSB first). *)
Definition SetBit (b : bytes) (i : Z) : outcome bytes :=
  x <- index_at b (Z.shiftr i 3) ;;
  assign_at b (Z.shiftr i 3)
    (uint8_of (Z.lor (byte_val x) (Z.shiftl 1 (7 - Z.land i 7)))).

(** Modelled from the spec: [clear_bit(buf, i)] clears bit [i] (MSB first). *)
Definition ClearBit (b : bytes) (i : Z) : outcome bytes :=
  x <- index_at b (Z.shiftr i 3) ;;
  let mask := byte_val (uint8_of (Z.shiftl 1 (7 - Z.land i 7))) in
  assign_at b (Z.shiftr i 3) (uint8_of (Z.land (byte_val x) (Z.lxor mask 255))).

(** Modelled from the spec: [write_bit(buf, i, v)]; a zero value clears the
    bit and any other value sets it. *)
Definition WriteBit (b : bytes) (i : Z) (value : Z) : outcome bytes :=
  if value =? 0 then ClearBit b i else SetBit b i.

(** Modelled from the spec: [make_bitvec(n_bits)] is a zero-initialised
    buffer of [(n + 7) >> 3] bytes; a negative length makes [make] panic. *)
Definition MakeBitVector (bitCount : Z) : outcome bytes :=
  let n := Z.shiftr (bitCount + 7) 3 in
  if n <? 0 then Panic else Done (repeat x00 (Z.to_nat n)).

End bitutils.
Import bitutils.

(** The loop
    [for i := 0; i < count; i++ { WriteBit(dst, i+dstoff, ReadBit(src, i+srcoff)) }] *)
Definition write_bits (dst : bytes) (dstoff : Z) (src : bytes) (srcoff : Z) (count : Z)
  : outcome bytes :=
  for_range (Z.to_nat count) 0
    (fun i d => b <- ReadBit src (i + srcoff) ;; WriteBit d (i + dstoff) b) dst.

(** The loop
    [for i := 0; i < count; i++ { if ReadBit(src, i+srcoff) == 1 { SetBit(dst, i) } }] *)
Definition set_bits (dst : bytes) (src : bytes) (srcoff : Z) (count : Z) : outcome bytes :=
  for_range (Z.to_nat count) 0
    (fun i d => b <- ReadBit src (i + srcoff) ;; if b =? 1 then SetBit d i else Done d) dst.

(** [MakeBitVector(count)] followed by the copy loop from [src] at [srcoff]. *)
Definition copy_bits (src : bytes) (srcoff : Z) (count : Z) : outcome bytes :=
  v <- MakeBitVector count ;; write_bits v 0 src srcoff count.

(** ** Nodes *)

(** Modelled from the spec: the node types [leaf], [short] and [full] are
    declared in a file that is not at hand; the fields are those that
    [tree.go] reads and writes.  [Nil] is the nil interface value. *)
Inductive node : Type :=
| Nil
| Leaf (val : bytes)
| Short (count : Z) (path : bytes) (child : node)
| Full (left right : node).

(** A slot reference into the tree: the ancestors of the slot, innermost
    first, each with the part of it that is not on the way to the slot. *)
Inductive frame : Type :=
| InShort (count : Z) (path : bytes)   (* &n.child of a short node *)
| InLeft (right : node)                (* &n.left of a full node *)
| InRight (left : node).               (* &n.right of a full node *)

Definition slot : Type := list frame.

Definition plug1 (f : frame) (n : node) : node :=
  match f with
  | InShort c p => Short c p n
  | InLeft r => Full n r
  | InRight l => Full l n
  end.

(** [*cur = n]: the root of the tree after the slot [cur] is assigned [n]. *)
Fixpoint plug (cur : slot) (n : node) : node :=
  match cur with
  | [] => n
  | f :: up => plug up (plug1 f n)
  end.

Inductive error : Type := ErrorIncompatibleKeyLength.

Definition maxKeyLength : Z := 8192.

Record Tree : Type := mkTree { keyLength : Z; root : node }.

Definition NewTree (keyLength : Z) : Tree + error :=
  if (keyLength <? 1) || (maxKeyLength <? keyLength)
  then inr ErrorIncompatibleKeyLength
  else inl (mkTree keyLength Nil).

(** ** Put *)

(** The loop of [unsafePut] that counts the bits the key shares with the
    path of a short node; it stops at the first difference ([break]). *)
Fixpoint common_loop (key path : bytes) (index : Z) (n : nat) (i commonCount : Z)
  : outcome Z :=
  match n with
  | O => Done commonCount
  | S n' =>
      a <- ReadBit key (i + index) ;;
      b <- ReadBit path i ;;
      if a =? b then common_loop key path index n' (i + 1) (commonCount + 1)
      else Done commonCount
  end.

(** [append(make([]byte, 0, len(val)), val...)]: a fresh copy of [val]. *)
Definition copy_of (val : bytes) : bytes := [] ++ val.

(** [PutLoop]: [cur] is the slot under inspection, [n] the node it holds and
    [index] the bit of the key the loop is looking at.  The result is the
    root after the insertion and the value returned by [unsafePut]. *)
Fixpoint put_loop (fuel : nat) (key val : bytes) (cur : slot) (n : node) (index : Z)
  : outcome (node * bool) :=
  match fuel with
  | O => OutOfFuel
  | S fuel' =>
      match n with
      | Full l r =>
          b <- ReadBit key index ;;
          if b =? 0 then put_loop fuel' key val (InLeft r :: cur) l (index + 1)
          else put_loop fuel' key val (InRight l :: cur) r (index + 1)
      | Short count path child =>
          let shortPathCount := count in
          commonCount <- common_loop key path index (Z.to_nat shortPathCount) 0 0 ;;
          if commonCount =? shortPathCount then
            put_loop fuel' key val (InShort count path :: cur) child (index + commonCount)
          else
            st <- (if commonCount >? 0 then
                     commonPath <- copy_bits key index commonCount ;;
                     Done (InShort commonCount commonPath :: cur, index + commonCount)
                   else Done (cur, index)) ;;
            let '(cur1, index1) := st in
            side <- ReadBit path commonCount ;;
            let remainCount := count - commonCount - 1 in
            remain <- (if remainCount >? 0 then
                         remainPath <- copy_bits path (commonCount + 1) remainCount ;;
                         Done (Short remainCount remainPath child)
                       else Done child) ;;
            let cur2 := if side =? 1 then InLeft remain :: cur1
                        else InRight remain :: cur1 in
            put_loop fuel' key val cur2 Nil (index1 + 1)
      | Leaf _ => Done (plug cur (Leaf (copy_of val)), true)
      | Nil =>
          let totalCount := len key * 8 in
          if index =? totalCount then Done (plug cur (Leaf (copy_of val)), false)
          else
            let finalCount := totalCount - index in
            finalPath <- copy_bits key index finalCount ;;
            put_loop fuel' key val (InShort finalCount finalPath :: cur) Nil
              (index + finalCount)
      end
  end.

Definition unsafePut (fuel : nat) (t : Tree) (key val : bytes) : outcome (Tree * bool) :=
  r <- put_loop fuel key val [] (root t) 0 ;;
  Done (mkTree (keyLength t) (fst r), snd r).

Definition Put (fuel : nat) (t : Tree) (key val : bytes)
  : outcome (Tree * (bool * option error)) :=
  if negb (len key =? keyLength t) then Done (t, (false, Some ErrorIncompatibleKeyLength))
  else
    r <- unsafePut fuel t key val ;;
    Done (fst r, (snd r, None)).

(** ** Get *)

(** The loop over the path of a short node in [unsafeGet], [Prove] and
    [unsafeDel]: [false] when a bit of the key differs from the path. *)
Fixpoint match_loop (key path : bytes) (index : Z) (n : nat) (i : Z) : outcome bool :=
  match n with
  | O => Done true
  | S n' =>
      a <- ReadBit key (i + index) ;;
      b <- ReadBit path i ;;
      if a =? b then match_loop key path index n' (i + 1) else Done false
  end.

(** [GetLoop]; the result [(nil, false)] is [([], false)]. *)
Fixpoint get_loop (fuel : nat) (key : bytes) (n : node) (index : Z) : outcome (bytes * bool) :=
  match fuel with
  | O => OutOfFuel
  | S fuel' =>
      match n with
      | Full l r =>
          b <- ReadBit key index ;;
          if b =? 0 then get_loop fuel' key l (index + 1)
          else get_loop fuel' key r (index + 1)
      | Short count path child =>
          ok <- match_loop key path index (Z.to_nat count) 0 ;;
          if ok then get_loop fuel' key child (index + count)
          else Done ([], false)
      | Leaf val => Done (val, true)
      | Nil => Done ([], false)
      end
  end.

Definition unsafeGet (fuel : nat) (t : Tree) (key : bytes) : outcome (bytes * bool) :=
  get_loop fuel key (root t) 0.

Definition is_nil (n : node) : bool :=
  match n with Nil => true | _ => false end.

Definition Get (fuel : nat) (t : Tree) (key : bytes) : outcome (bytes * bool) :=
  if is_nil (root t) || negb (keyLength t =? len key) then Done ([], false)
  else unsafeGet fuel t key.

(** ** Del *)

(** [merge(p, c)]: the short node [p] after the short node [c] is merged
    into it; the arguments are the fields of [p] and of [c]. *)
Definition merge (pcount : Z) (ppath : bytes) (ccount : Z) (cpath : bytes) (cchild : node)
  : outcome node :=
  let totalCount := pcount + ccount in
  totalPath <- MakeBitVector totalCount ;;
  totalPath <- write_bits totalPath 0 ppath 0 pcount ;;
  totalPath <- write_bits totalPath pcount cpath 0 ccount ;;
  Done (Short totalCount totalPath cchild).

(** [DelLoop]: the slots [last], [parent] and [grand] are the three
    innermost frames of [cur] (the dummy node stands for a missing frame).
    [None] is the [return false] of the loop; [Some cur] is the slot of the
    leaf at [break DelLoop]. *)
Fixpoint del_loop (fuel : nat) (key : bytes) (cur : slot) (n : node) (index : Z)
  : outcome (option slot) :=
  match fuel with
  | O => OutOfFuel
  | S fuel' =>
      match n with
      | Full l r =>
          b <- ReadBit key index ;;
          if b =? 0 then del_loop fuel' key (InLeft r :: cur) l (index + 1)
          else del_loop fuel' key (InRight l :: cur) r (index + 1)
      | Short count path child =>
          ok <- match_loop key path index (Z.to_nat count) 0 ;;
          if ok then del_loop fuel' key (InShort count path :: cur) child (index + count)
          else Done None
      | Leaf _ => Done (Some cur)
      | Nil => Done None
      end
  end.

(** The code of [unsafeDel] after [DelLoop]: [cur] is the slot of the removed
    leaf, which now holds nil.  The result is the root of the tree. *)
Definition del_cleanup (cur : slot) : outcome node :=
  (* if [*last] is a short node, it is set to nil and the pointers move up *)
  let last := match cur with
              | InShort _ _ :: parent => parent
              | _ => cur
              end in
  match last with
  | InLeft _ :: parent | InRight _ :: parent =>
      (* [*last] is the full node [f] *)
      let '(fleft, fright) := match last with
                              | InLeft r :: _ => (Nil, r)
                              | InRight l :: _ => (l, Nil)
                              | _ => (Nil, Nil)
                              end in
      newPath <- MakeBitVector 1 ;;
      nn <- (if negb (is_nil fleft) then
               newPath <- ClearBit newPath 0 ;; Done (newPath, fleft)
             else
               newPath <- SetBit newPath 0 ;; Done (newPath, fright)) ;;
      let '(npath, nchild) := nn in
      (* merge the new short node with its child *)
      nn <- match nchild with
            | Short ccount cpath cchild => merge 1 npath ccount cpath cchild
            | _ => Done (Short 1 npath nchild)
            end ;;
      (* merge the parent with the new short node *)
      match parent, nn with
      | InShort pcount ppath :: up, Short ncount npath nchild =>
          m <- merge pcount ppath ncount npath nchild ;;
          Done (plug up m)
      | _, _ => Done (plug parent nn)
      end
  | _ => Done (plug last Nil)
  end.

Definition unsafeDel (fuel : nat) (t : Tree) (key : bytes) : outcome (Tree * bool) :=
  found <- del_loop fuel key [] (root t) 0 ;;
  match found with
  | None => Done (t, false)
  | Some cur =>
      r <- del_cleanup cur ;;
      Done (mkTree (keyLength t) r, true)
  end.

Definition Del (fuel : nat) (t : Tree) (key : bytes) : outcome (Tree * bool) :=
  if is_nil (root t) || negb (keyLength t =? len key) then Done (t, false)
  else unsafeDel fuel t key.

(** ** Hashing, proofs and their verification *)

Record Proof : Type := mkProof {
  Key : bytes;                  (* key *)
  HashValue : bytes;            (* hash of the value *)
  ShortCounts : list byte;      (* []uint8 *)
  InterimHashes : list bytes    (* hash values *)
}.

Fixpoint bytes_Equal (a b : bytes) : bool :=
  match a, b with
  | [], [] => true
  | x :: a', y :: b' => Byte.eqb x y && bytes_Equal a' b'
  | _, _ => false
  end.

(** Modelled from the spec: [serializedPathSegmentLength] is declared in a
    file that is not at hand.  The length of a path segment is written as
    two bytes, big-endian, modulo 65536 (so that 65536 is [0x00 0x00]). *)
Definition serializedPathSegmentLength (l : Z) : bytes :=
  [uint8_of (Z.shiftr l 8); uint8_of l].

Section Hashing.

(** The keyed 256-bit hash [blake2b.New256(key)], fed with the concatenation
    of everything written to it, and the three domain-separation keys; the
    primitive is an external collaborator and the tags are declared in a
    file that is not at hand. *)
Variable blake2b_New256 : bytes -> bytes -> bytes.
Variables leafNodeTag shortNodeTag fullNodeTag : bytes.

(** Modelled from the spec: the [Hash] methods of the node types are
    declared in a file that is not at hand (section 4.2 of the
    specification).  Calling [Hash] on a nil node panics. *)
Fixpoint node_Hash (n : node) : outcome bytes :=
  match n with
  | Nil => Panic
  | Leaf val => Done (blake2b_New256 leafNodeTag val)
  | Short count path child =>
      h <- node_Hash child ;;
      Done (blake2b_New256 shortNodeTag (serializedPathSegmentLength count ++ path ++ h))
  | Full l r =>
      hl <- node_Hash l ;;
      hr <- node_Hash r ;;
      Done (blake2b_New256 fullNodeTag (hl ++ hr))
  end.

(** [Tree.Hash] *)
Definition Hash (t : Tree) : outcome bytes :=
  if is_nil (root t) then Done [] else node_Hash (root t).

(** [ProveLoop] *)
Fixpoint prove_loop (fuel : nat) (key : bytes) (n : node) (index : Z)
    (shortCounts : list byte) (hashValues : list bytes) : outcome (option Proof * bool) :=
  match fuel with
  | O => OutOfFuel
  | S fuel' =>
      match n with
      | Full l r =>
          b <- ReadBit key index ;;
          let '(neighbour, next) := if b =? 0 then (r, l) else (l, r) in
          let shortCounts := shortCounts ++ [uint8_of 0] in
          h <- node_Hash neighbour ;;
          let hashValues := hashValues ++ [h] in
          prove_loop fuel' key next (index + 1) shortCounts hashValues
      | Short count path child =>
          ok <- match_loop key path index (Z.to_nat count) 0 ;;
          if ok then
            let shortCounts := shortCounts ++ [uint8_of count] in
            prove_loop fuel' key child (index + count) shortCounts hashValues
          else Done (None, false)
      | Leaf val =>
          h <- node_Hash (Leaf val) ;;
          Done (Some (mkProof key h shortCounts hashValues), true)
      | Nil => Done (None, false)
      end
  end.

Definition Prove (fuel : nat) (t : Tree) (key : bytes) : outcome (option Proof * bool) :=
  path <- MakeBitVector (keyLength t) ;;
  _ <- set_bits path key 0 (keyLength t) ;;
  prove_loop fuel key (root t) 0 [] [].

(** The loop [for i := len(p.ShortCounts) - 1; i >= 0; i--] of [Verify];
    [scs] holds the entries still to visit, last entry first. *)
Fixpoint verify_loop (p : Proof) (scs : list byte) (currentHash : bytes)
    (hashIndex pathIndex : Z) : outcome (bytes * Z) :=
  match scs with
  | [] => Done (currentHash, pathIndex)
  | shortCounts :: rest =>
      if byte_val shortCounts =? 0 then
        (* is full node *)
        neighbour <- index_at (InterimHashes p) hashIndex ;;
        let hashIndex := hashIndex - 1 in
        let pathIndex := pathIndex - 1 in
        b <- ReadBit (Key p) pathIndex ;;
        let currentHash :=
          if b =? 1 then blake2b_New256 fullNodeTag (neighbour ++ currentHash)
          else blake2b_New256 fullNodeTag (currentHash ++ neighbour) in
        verify_loop p rest currentHash hashIndex pathIndex
      else
        (* else its a short node *)
        commonPath <- MakeBitVector (byte_val shortCounts) ;;
        let pathIndex := pathIndex - byte_val shortCounts in
        commonPath <- set_bits commonPath (Key p) pathIndex (byte_val shortCounts) ;;
        let c := serializedPathSegmentLength (byte_val shortCounts) in
        let currentHash := blake2b_New256 shortNodeTag (c ++ commonPath ++ currentHash) in
        verify_loop p rest currentHash hashIndex pathIndex
  end.

Definition Verify (p : Proof) (expectedRootHash : bytes) : outcome bool :=
  let currentHash := HashValue p in
  let hashIndex := len (InterimHashes p) - 1 in
  let pathIndex := fold_left (fun acc sc => acc + byte_val sc) (ShortCounts p)
                     (len (InterimHashes p)) in
  r <- verify_loop p (rev (ShortCounts p)) currentHash hashIndex pathIndex ;;
  let '(currentHash, pathIndex) := r in
  if negb (pathIndex =? 0) || negb (bytes_Equal currentHash expectedRootHash)
  then Done false
  else Done true.

End Hashing.


(** ** Specification-level notions *)

(** Bit [i] of a byte sequence, 0 outside of it. *)
Definition bit (b : bytes) (i : Z) : Z :=
  match ReadBit b i with
  | Done x => x
  | _ => 0
  end.

(** The integers [start, start + 1, ..., start + n - 1]. *)
Fixpoint zrange (start : Z) (n : nat) : list Z :=
  match n with
  | O => []
  | S n' => start :: zrange (start + 1) n'
  end.

(** A bit vector of [count] bits in canonical form: it has
    [(count + 7) >> 3] bytes and the bits after the first [count] are 0. *)
Definition canon (count : Z) (path : bytes) : bool :=
  (len path =? Z.shiftr (count + 7) 3)
  && forallb (fun i => bit path i =? 0) (zrange count (Z.to_nat (8 * len path - count))).

Definition is_short (n : node) : bool :=
  match n with Short _ _ _ => true | _ => false end.

(** The structural invariants of a subtree that has [d] bits of the key
    left to consume: every path to a leaf consumes exactly [d] bits, a short
    node has a count of at least 1, a canonical path and a child that is
    not a short node, and no node has a nil child. *)
Fixpoint wf (d : Z) (n : node) : bool :=
  match n with
  | Nil => false
  | Leaf _ => d =? 0
  | Short count path child =>
      (1 <=? count) && (count <=? d) && canon count path
      && negb (is_short child) && wf (d - count) child
  | Full l r => (1 <=? d) && wf (d - 1) l && wf (d - 1) r
  end.

(** The invariants of a trie: a key length within bounds and a root that
    is nil or a well-formed subtree for all the bits of a key. *)
Definition wf_tree (t : Tree) : bool :=
  (1 <=? keyLength t) && (keyLength t <=? maxKeyLength)
  && (is_nil (root t) || wf (8 * keyLength t) (root t)).

(** The bits [index, index + count) of the key are the bits of the path. *)
Definition agree (key path : bytes) (index count : Z) : bool :=
  forallb (fun i => bit key (i + index) =? bit path i) (zrange 0 (Z.to_nat count)).

(** The value found by following the bits of [key] from bit [index] on. *)
Fixpoint lookup (n : node) (key : bytes) (index : Z) : option bytes :=
  match n with
  | Nil => None
  | Leaf val => Some val
  | Short count path child =>
      if agree key path index count then lookup child key (index + count) else None
  | Full l r =>
      if bit key index =? 0 then lookup l key (index + 1) else lookup r key (index + 1)
  end.

(** The number of nodes on the longest path of a subtree. *)
Fixpoint height (n : node) : nat :=
  match n with
  | Nil => O
  | Leaf _ => 1%nat
  | Short _ _ child => S (height child)
  | Full l r => S (Nat.max (height l) (height r))
  end.

(** ** Bits of one byte *)

(** Bit [j] (most significant first) of one byte. *)
Definition bitv (x : byte) (j : Z) : Z :=
  Z.land (Z.shiftr (byte_val x) (7 - j)) 1.

Definition all_bytes : list byte :=
  map (fun n => uint8_of (Z.of_nat n)) (seq 0 256).

Definition idx8 : list Z := zrange 0 8.

Definition set_byte (x : byte) (k : Z) : byte :=
  uint8_of (Z.lor (byte_val x) (Z.shiftl 1 (7 - k))).

Definition clear_byte (x : byte) (k : Z) : byte :=
  uint8_of (Z.land (byte_val x) (Z.lxor (byte_val (uint8_of (Z.shiftl 1 (7 - k)))) 255)).

(** A byte is determined by its eight bits. *)
Definition byte_of_bitv (f : Z -> Z) : byte :=
  uint8_of (f 0 * 128 + f 1 * 64 + f 2 * 32 + f 3 * 16 + f 4 * 8 + f 5 * 4 + f 6 * 2 + f 7).

(** ** Keys and results *)

(** The keys [k1] and [k2] have the same bits in [index, index + d). *)
Definition same_bits (k1 k2 : bytes) (index d : Z) : bool :=
  forallb (fun i => bit k1 i =? bit k2 i) (zrange index (Z.to_nat d)).

(** The pair returned by [Get] for the outcome of a lookup. *)
Definition found (o : option bytes) : bytes * bool :=
  match o with
  | Some v => (v, true)
  | None => ([], false)
  end.

Definition is_some {A : Type} (o : option A) : bool :=
  match o with Some _ => true | None => false end.

(** The bits [index + from, index + to) of the key are the bits
    [from, to) of the path. *)
Definition agree_from (key path : bytes) (index from to : Z) : bool :=
  forallb (fun i => bit key (i + index) =? bit path i) (zrange from (Z.to_nat (to - from))).

(** ** Sequences of puts *)

(** [Put] for every pair of the list, in order; the error of a [Put] with a
    key of the wrong length leaves the tree as it is. *)
Fixpoint puts (fuel : nat) (t : Tree) (kvs : list (bytes * bytes)) : outcome Tree :=
  match kvs with
  | [] => Done t
  | (k, v) :: rest => r <- Put fuel t k v ;; puts fuel (fst r) rest
  end.

(** The value of the latest pair for [key] in the list, if there is one. *)
Fixpoint latest (kvs : list (bytes * bytes)) (key : bytes) : option bytes :=
  match kvs with
  | [] => None
  | (k, v) :: rest =>
      match latest rest key with
      | Some v' => Some v'
      | None => if bytes_Equal k key then Some v else None
      end
  end.

(** The keys of all pairs have [keyLength] bytes. *)
Definition keys_sized (keyLength : Z) (kvs : list (bytes * bytes)) : bool :=
  forallb (fun kv => len (fst kv) =? keyLength) kvs.

(** ** Deletion, by recursion on the subtree *)

(** A second formulation of the deletion, for the proofs: it descends to the
    leaf and rebuilds the subtree on the way back, where [unsafeDel] rewrites
    the three innermost ancestors.  The lemma [del_link] below shows that the
    loop of [unsafeDel] followed by its cleanup computes the same tree. *)

(** A short node above [child], merged with it when it is a short node. *)
Definition short_over (count : Z) (path : bytes) (child : node) : outcome node :=
  match child with
  | Short ccount cpath cchild => merge count path ccount cpath cchild
  | _ => Done (Short count path child)
  end.

(** The short node that replaces a full node with one child left; its
    path is the bit [b] that led to this child. *)
Definition collapse (b : Z) (survivor : node) : outcome node :=
  newPath <- MakeBitVector 1 ;;
  newPath <- (if b =? 0 then ClearBit newPath 0 else SetBit newPath 0) ;;
  short_over 1 newPath survivor.

(** The subtree without the key: [None] when the key is not in it, and
    [Some Nil] when nothing is left of it. *)
Fixpoint del_rec (key : bytes) (n : node) (index : Z) : outcome (option node) :=
  match n with
  | Nil => Done None
  | Leaf _ => Done (Some Nil)
  | Short count path child =>
      ok <- match_loop key path index (Z.to_nat count) 0 ;;
      if ok then
        r <- del_rec key child (index + count) ;;
        match r with
        | None => Done None
        | Some Nil => Done (Some Nil)
        | Some child' => n' <- short_over count path child' ;; Done (Some n')
        end
      else Done None
  | Full l r =>
      b <- ReadBit key index ;;
      if b =? 0 then
        x <- del_rec key l (index + 1) ;;
        match x with
        | None => Done None
        | Some Nil => n' <- collapse 1 r ;; Done (Some n')
        | Some l' => Done (Some (Full l' r))
        end
      else
        x <- del_rec key r (index + 1) ;;
        match x with
        | None => Done None
        | Some Nil => n' <- collapse 0 l ;; Done (Some n')
        | Some r' => Done (Some (Full l r'))
        end
  end.

(** The root after the subtree at the slot [cur] is replaced by what is
    left of it after a deletion. *)
Definition replug (cur : slot) (n' : node) : outcome node :=
  match n' with
  | Nil => del_cleanup cur
  | Short ncount npath nchild =>
      match cur with
      | InShort pcount ppath :: up =>
          m <- merge pcount ppath ncount npath nchild ;; Done (plug up m)
      | _ => Done (plug cur n')
      end
  | _ => Done (plug cur n')
  end.

(** The slot of a short node is never the child slot of a short node. *)
Definition compat (cur : slot) (n : node) : bool :=
  match cur with
  | InShort _ _ :: _ => negb (is_short n)
  | _ => true
  end.

(** What [unsafeDel] does with the result of [DelLoop]. *)
Definition del_finish (x : option slot) : outcome (option node) :=
  match x with
  | None => Done None
  | Some cur => r <- del_cleanup cur ;; Done (Some r)
  end.

Definition replug_finish (cur : slot) (x : option node) : outcome (option node) :=
  match x with
  | None => Done None
  | Some n' => r <- replug cur n' ;; Done (Some r)
  end.

(** ** Sequences of operations *)

(** [Del] for every key of the list, in order. *)
Fixpoint dels (fuel : nat) (t : Tree) (keys : list bytes) : outcome Tree :=
  match keys with
  | [] => Done t
  | k :: rest => r <- Del fuel t k ;; dels fuel (fst r) rest
  end.

(** The three conditions of the merge discipline. *)
Fixpoint no_short_short (n : node) : bool :=
  match n with
  | Short _ _ child => negb (is_short child) && no_short_short child
  | Full l r => no_short_short l && no_short_short r
  | _ => true
  end.

Fixpoint no_full_nil (n : node) : bool :=
  match n with
  | Short _ _ child => no_full_nil child
  | Full l r => negb (is_nil l) && negb (is_nil r) && no_full_nil l && no_full_nil r
  | _ => true
  end.

Fixpoint counts_positive (n : node) : bool :=
  match n with
  | Short count _ child => (1 <=? count) && counts_positive child
  | Full l r => counts_positive l && counts_positive r
  | _ => true
  end.

Inductive op : Type :=
| OpPut (key val : bytes)
| OpGet (key : bytes)
| OpDel (key : bytes)
| OpProve (key : bytes)
| OpHash.

(** The keys given to [Prove] have [keyLength] bytes. *)
Definition prove_keys_sized (keyLength : Z) (ops : list op) : bool :=
  forallb (fun o => match o with
                    | OpProve key => len key =? keyLength
                    | _ => true
                    end) ops.

Section Operations.

Variable blake2b_New256 : bytes -> bytes -> bytes.
Variables leafNodeTag shortNodeTag fullNodeTag : bytes.

(** One operation of the API on the trie; the results of the operation
    other than the trie are dropped. *)
Definition run_op (fuel : nat) (t : Tree) (o : op) : outcome Tree :=
  match o with
  | OpPut key val => r <- Put fuel t key val ;; Done (fst r)
  | OpGet key => _ <- Get fuel t key ;; Done t
  | OpDel key => r <- Del fuel t key ;; Done (fst r)
  | OpProve key =>
      _ <- Prove blake2b_New256 leafNodeTag shortNodeTag fullNodeTag fuel t key ;; Done t
  | OpHash => _ <- Hash blake2b_New256 leafNodeTag shortNodeTag fullNodeTag t ;; Done t
  end.

Fixpoint run_ops (fuel : nat) (t : Tree) (ops : list op) : outcome Tree :=
  match ops with
  | [] => Done t
  | o :: rest => t' <- run_op fuel t o ;; run_ops fuel t' rest
  end.

End Operations.

(** ** Concrete inputs *)

(** Bit [i] (least significant first) of a [uint8] flipped. *)
Definition flip_bit (b : byte) (i : Z) : byte :=
  uint8_of (Z.lxor (byte_val b) (Z.shiftl 1 i)).

(** A stand-in for the keyed hash, for running the code on examples: the
    key followed by the data. *)
Definition example_hash (key data : bytes) : bytes := key ++ data.


(** ** Measures of a tree and of a proof *)

(** The largest count of a short node of the subtree, 0 without one. *)
Fixpoint max_count (n : node) : Z :=
  match n with
  | Short count _ child => Z.max count (max_count child)
  | Full l r => Z.max (max_count l) (max_count r)
  | _ => 0
  end.

(** The number of entries of [ShortCounts] that mark a full node. *)
Definition full_entries (scs : list byte) : Z :=
  len (filter (fun sc => byte_val sc =? 0) scs).

(** The sum of the entries of [ShortCounts]. *)
Definition counts_sum (scs : list byte) : Z :=
  fold_left (fun acc sc => acc + byte_val sc) scs 0.

(** * Bits of a byte *)

Lemma in_all_bytes (x : byte) : In x all_bytes.
Proof.
  assert (H : existsb (Byte.eqb x) all_bytes = true) by (destruct x; reflexivity).
  apply existsb_exists in H. destruct H as [y [Hy E]].
  apply Byte.byte_dec_bl in E. now subst.
Qed.

Lemma in_idx8 (j : Z) : 0 <= j < 8 -> In j idx8.
Proof.
  intros H.
  assert (j = 0 \/ j = 1 \/ j = 2 \/ j = 3 \/ j = 4 \/ j = 5 \/ j = 6 \/ j = 7) by lia.
  unfold idx8; simpl. intuition.
Qed.

Lemma forall_bytes (P : byte -> bool) :
  forallb P all_bytes = true -> forall x, P x = true.
Proof.
  intros H x. rewrite forallb_forall in H. apply H, in_all_bytes.
Qed.

Lemma forall_idx8 (P : Z -> bool) :
  forallb P idx8 = true -> forall j, 0 <= j < 8 -> P j = true.
Proof.
  intros H j Hj. rewrite forallb_forall in H. apply H, in_idx8, Hj.
Qed.

Lemma bitv_set (x : byte) (k j : Z) :
  0 <= k < 8 -> 0 <= j < 8 ->
  bitv (set_byte x k) j = if j =? k then 1 else bitv x j.
Proof.
  intros Hk Hj.
  assert (H : forallb (fun x => forallb (fun k => forallb (fun j =>
             bitv (set_byte x k) j =? (if j =? k then 1 else bitv x j)) idx8) idx8)
             all_bytes = true) by (vm_compute; reflexivity).
  pose proof (forall_bytes _ H x) as H1. cbv beta in H1.
  pose proof (forall_idx8 _ H1 k Hk) as H2. cbv beta in H2.
  pose proof (forall_idx8 _ H2 j Hj) as H3. cbv beta in H3.
  now apply Z.eqb_eq in H3.
Qed.

Lemma bitv_clear (x : byte) (k j : Z) :
  0 <= k < 8 -> 0 <= j < 8 ->
  bitv (clear_byte x k) j = if j =? k then 0 else bitv x j.
Proof.
  intros Hk Hj.
  assert (H : forallb (fun x => forallb (fun k => forallb (fun j =>
             bitv (clear_byte x k) j =? (if j =? k then 0 else bitv x j)) idx8) idx8)
             all_bytes = true) by (vm_compute; reflexivity).
  pose proof (forall_bytes _ H x) as H1. cbv beta in H1.
  pose proof (forall_idx8 _ H1 k Hk) as H2. cbv beta in H2.
  pose proof (forall_idx8 _ H2 j Hj) as H3. cbv beta in H3.
  now apply Z.eqb_eq in H3.
Qed.

Lemma bitv_01 (x : byte) (j : Z) : bitv x j = 0 \/ bitv x j = 1.
Proof.
  unfold bitv.
  assert (E : forall a, Z.land a 1 = a mod 2)
    by (intros a; exact (Z.land_ones a 1 ltac:(lia))).
  rewrite E.
  pose proof (Z.mod_pos_bound (Z.shiftr (byte_val x) (7 - j)) 2). lia.
Qed.

Lemma byte_of_bitv_bitv (x : byte) : byte_of_bitv (bitv x) = x.
Proof.
  assert (H : forallb (fun x => Byte.eqb (byte_of_bitv (bitv x)) x) all_bytes = true)
    by (vm_compute; reflexivity).
  apply Byte.byte_dec_bl. exact (forall_bytes _ H x).
Qed.

Lemma bitv_ext (x y : byte) :
  (forall j, 0 <= j < 8 -> bitv x j = bitv y j) -> x = y.
Proof.
  intros H. rewrite <- (byte_of_bitv_bitv x), <- (byte_of_bitv_bitv y).
  unfold byte_of_bitv. now rewrite !H by lia.
Qed.

Lemma bitv_x00 (j : Z) : 0 <= j < 8 -> bitv x00 j = 0.
Proof.
  intros Hj.
  assert (H : forallb (fun j => bitv x00 j =? 0) idx8 = true) by reflexivity.
  apply Z.eqb_eq. exact (forall_idx8 _ H j Hj).
Qed.

(** * Bits of a byte sequence *)

Lemma shiftr3 (i : Z) : Z.shiftr i 3 = i / 8.
Proof. now rewrite Z.shiftr_div_pow2 by lia. Qed.

Lemma land7 (i : Z) : Z.land i 7 = i mod 8.
Proof. exact (Z.land_ones i 3 ltac:(lia)). Qed.

Lemma len_repeat {A : Type} (a : A) (n : nat) : len (repeat a n) = Z.of_nat n.
Proof. unfold len. now rewrite repeat_length. Qed.

Lemma length_set_nth {A : Type} (s : list A) (n : nat) (a : A) :
  length (set_nth s n a) = length s.
Proof.
  revert n; induction s as [|x s IH]; intros [|n]; simpl; auto.
Qed.

Lemma nth_error_set_nth_eq {A : Type} (s : list A) (n : nat) (a : A) :
  (n < length s)%nat -> nth_error (set_nth s n a) n = Some a.
Proof.
  revert n; induction s as [|x s IH]; intros [|n] H; simpl in *; try lia; auto.
  apply IH. lia.
Qed.

Lemma nth_error_set_nth_neq {A : Type} (s : list A) (n m : nat) (a : A) :
  n <> m -> nth_error (set_nth s n a) m = nth_error s m.
Proof.
  revert n m; induction s as [|x s IH]; intros [|n] [|m] H; simpl in *; auto; try lia.
Qed.

Lemma index_at_in {A : Type} (s : list A) (i : Z) :
  0 <= i < len s ->
  exists a, index_at s i = Done a /\ nth_error s (Z.to_nat i) = Some a.
Proof.
  intros H. unfold index_at.
  destruct (Z.ltb_spec i 0); [lia|].
  destruct (nth_error s (Z.to_nat i)) eqn:E; [eauto|].
  apply nth_error_None in E. unfold len in H. lia.
Qed.

Lemma index_at_out {A : Type} (s : list A) (i : Z) :
  ~ (0 <= i < len s) -> index_at s i = Panic.
Proof.
  intros H. unfold index_at.
  destruct (Z.ltb_spec i 0); [reflexivity|].
  destruct (nth_error s (Z.to_nat i)) eqn:E; [|reflexivity].
  assert (nth_error s (Z.to_nat i) <> None) by congruence.
  apply nth_error_Some in H1. unfold len in H. lia.
Qed.

Lemma byte_index_range (n i : Z) : 0 <= i < 8 * n <-> 0 <= i / 8 < n.
Proof.
  split; intros H.
  - split; [apply Z.div_pos; lia | apply Z.div_lt_upper_bound; lia].
  - destruct H as [H1 H2].
    assert (0 <= i) by (destruct (Z.lt_ge_cases i 0) as [Hn|]; [|lia];
      assert (i / 8 < 0) by (apply Z.div_lt_upper_bound; lia); lia).
    split; [lia|].
    pose proof (Z.div_mod i 8 ltac:(lia)). pose proof (Z.mod_pos_bound i 8 ltac:(lia)). lia.
Qed.

Lemma ReadBit_in (b : bytes) (i : Z) :
  0 <= i < 8 * len b -> ReadBit b i = Done (bit b i).
Proof.
  intros H. unfold bit, ReadBit. rewrite shiftr3.
  destruct (index_at_in b (i / 8)) as [a [E _]]; [now apply byte_index_range|].
  now rewrite E.
Qed.

Lemma ReadBit_out (b : bytes) (i : Z) :
  ~ (0 <= i < 8 * len b) -> ReadBit b i = Panic.
Proof.
  intros H. unfold ReadBit. rewrite shiftr3, index_at_out; [reflexivity|].
  now rewrite <- byte_index_range.
Qed.

Lemma bit_out (b : bytes) (i : Z) : ~ (0 <= i < 8 * len b) -> bit b i = 0.
Proof. intros H. unfold bit. now rewrite ReadBit_out. Qed.

Lemma bit_nth (b : bytes) (i : Z) (x : byte) :
  0 <= i -> nth_error b (Z.to_nat (i / 8)) = Some x -> bit b i = bitv x (i mod 8).
Proof.
  intros H E. unfold bit, ReadBit, index_at. rewrite shiftr3, land7.
  destruct (Z.ltb_spec (i / 8) 0) as [Hn|_].
  - assert (0 <= i / 8) by (apply Z.div_pos; lia). lia.
  - rewrite E. reflexivity.
Qed.

Lemma bit_01 (b : bytes) (i : Z) : bit b i = 0 \/ bit b i = 1.
Proof.
  destruct (Z.lt_ge_cases i 0) as [Hn|Hp]; [left; apply bit_out; lia|].
  destruct (nth_error b (Z.to_nat (i / 8))) eqn:E.
  - rewrite (bit_nth _ _ _ Hp E). apply bitv_01.
  - left. apply bit_out. apply nth_error_None in E. rewrite byte_index_range.
    unfold len. assert (0 <= i / 8) by (apply Z.div_pos; lia). lia.
Qed.

Lemma bit_repeat_x00 (n : nat) (i : Z) : bit (repeat x00 n) i = 0.
Proof.
  destruct (Z.lt_ge_cases i 0) as [Hn|Hp]; [apply bit_out; lia|].
  destruct (nth_error (repeat x00 n) (Z.to_nat (i / 8))) eqn:E.
  - rewrite (bit_nth _ _ _ Hp E).
    apply nth_error_In, repeat_spec in E. subst.
    apply bitv_x00. apply Z.mod_pos_bound. lia.
  - apply bit_out. apply nth_error_None in E. rewrite byte_index_range.
    unfold len. assert (0 <= i / 8) by (apply Z.div_pos; lia). lia.
Qed.

(** Two byte sequences of one length with the same bits are equal. *)
Lemma bit_ext (a b : bytes) :
  len a = len b -> (forall i, 0 <= i < 8 * len a -> bit a i = bit b i) -> a = b.
Proof.
  revert b; induction a as [|x a IH]; intros [|y b] L H; unfold len in L; simpl in L;
    try lia; [reflexivity|].
  f_equal.
  - apply bitv_ext. intros j Hj.
    specialize (H j). unfold len in H; simpl length in H.
    assert (Hr : 0 <= j < 8 * Z.of_nat (S (length a))) by lia.
    specialize (H Hr).
    rewrite (bit_nth (x :: a) j x), (bit_nth (y :: b) j y) in H; try lia.
    + now rewrite Z.mod_small in H by lia.
    + now rewrite Z.div_small by lia.
    + now rewrite Z.div_small by lia.
  - apply IH; [unfold len; lia|].
    intros i Hi. specialize (H (i + 8)).
    unfold len in H, Hi; simpl length in H.
    assert (Hr : 0 <= i + 8 < 8 * Z.of_nat (S (length a))) by lia.
    specialize (H Hr).
    assert (E : Z.to_nat ((i + 8) / 8) = S (Z.to_nat (i / 8))).
    { replace (i + 8) with (i + 1 * 8) by lia. rewrite Z.div_add by lia.
      assert (0 <= i / 8) by (apply Z.div_pos; lia). lia. }
    assert (M : (i + 8) mod 8 = i mod 8).
    { replace (i + 8) with (i + 1 * 8) by lia. now rewrite Z.mod_add by lia. }
    assert (Ra : (Z.to_nat (i / 8) < length a)%nat).
    { assert (0 <= i / 8 < Z.of_nat (length a)) by (apply byte_index_range; lia). lia. }
    destruct (nth_error a (Z.to_nat (i / 8))) eqn:Ea;
      [|apply nth_error_None in Ea; lia].
    destruct (nth_error b (Z.to_nat (i / 8))) eqn:Eb;
      [|apply nth_error_None in Eb; lia].
    rewrite (bit_nth (x :: a) (i + 8) b0), (bit_nth (y :: b) (i + 8) b1) in H;
      try lia; try (rewrite E; simpl; assumption).
    rewrite (bit_nth a i b0), (bit_nth b i b1); try lia; try assumption.
    now rewrite M in H.
Qed.

(** * Writing bits *)

Lemma update_bit_spec (g : byte -> Z -> byte) (v : Z) (b : bytes) (i : Z) (x : byte) :
  (forall x k j, 0 <= k < 8 -> 0 <= j < 8 ->
                 bitv (g x k) j = if j =? k then v else bitv x j) ->
  0 <= i < 8 * len b ->
  nth_error b (Z.to_nat (i / 8)) = Some x ->
  forall j, bit (set_nth b (Z.to_nat (i / 8)) (g x (i mod 8))) j
            = if j =? i then v else bit b j.
Proof.
  intros Hg Hi Ex j.
  set (b' := set_nth b (Z.to_nat (i / 8)) (g x (i mod 8))).
  assert (L : len b' = len b) by (unfold len, b'; now rewrite length_set_nth).
  assert (Hi8 : 0 <= i / 8 < len b) by now apply byte_index_range.
  destruct (Z.eqb_spec j i) as [->|Hne].
  - rewrite (bit_nth b' i (g x (i mod 8))); [|lia|].
    + rewrite Hg, Z.eqb_refl; auto; apply Z.mod_pos_bound; lia.
    + unfold b'. apply nth_error_set_nth_eq. unfold len in Hi8. lia.
  - assert (D : {0 <= j < 8 * len b} + {~ (0 <= j < 8 * len b)}).
    { destruct (Z_le_dec 0 j); destruct (Z_lt_dec j (8 * len b)); (left; lia) || (right; lia). }
    destruct D as [Hj|Hj]; [|rewrite !bit_out; auto; lia].
    assert (Hj8 : 0 <= j / 8 < len b) by now apply byte_index_range.
    destruct (Z.eq_dec (j / 8) (i / 8)) as [Eq|Nq].
    + rewrite (bit_nth b' j (g x (i mod 8))), (bit_nth b j x); try lia.
      * rewrite Hg by (apply Z.mod_pos_bound; lia).
        destruct (Z.eqb_spec (j mod 8) (i mod 8)) as [Em|]; [|reflexivity].
        exfalso. apply Hne.
        rewrite (Z.div_mod j 8), (Z.div_mod i 8) by lia. now rewrite Eq, Em.
      * now rewrite Eq.
      * rewrite Eq. unfold b'. apply nth_error_set_nth_eq. unfold len in Hi8. lia.
    + destruct (nth_error b (Z.to_nat (j / 8))) eqn:Ej.
      * rewrite (bit_nth b' j b0), (bit_nth b j b0); try lia; auto.
        unfold b'. rewrite nth_error_set_nth_neq; auto. lia.
      * apply nth_error_None in Ej. unfold len in Hj8. lia.
Qed.

Lemma SetBit_spec (b : bytes) (i : Z) :
  0 <= i < 8 * len b ->
  exists b', SetBit b i = Done b' /\ len b' = len b /\
             forall j, bit b' j = if j =? i then 1 else bit b j.
Proof.
  intros Hi. unfold SetBit. rewrite shiftr3, land7.
  assert (Hi8 : 0 <= i / 8 < len b) by now apply byte_index_range.
  destruct (index_at_in b (i / 8) Hi8) as [x [E1 E2]]. rewrite E1. simpl.
  unfold assign_at.
  destruct (Z.ltb_spec (i / 8) 0); [lia|].
  destruct (Z.leb_spec (len b) (i / 8)); [lia|]. simpl.
  eexists; split; [reflexivity|]. split.
  - unfold len. now rewrite length_set_nth.
  - intros j. apply (update_bit_spec set_byte 1); auto. intros; now apply bitv_set.
Qed.

Lemma ClearBit_spec (b : bytes) (i : Z) :
  0 <= i < 8 * len b ->
  exists b', ClearBit b i = Done b' /\ len b' = len b /\
             forall j, bit b' j = if j =? i then 0 else bit b j.
Proof.
  intros Hi. unfold ClearBit. rewrite shiftr3, land7.
  assert (Hi8 : 0 <= i / 8 < len b) by now apply byte_index_range.
  destruct (index_at_in b (i / 8) Hi8) as [x [E1 E2]]. rewrite E1. simpl.
  unfold assign_at.
  destruct (Z.ltb_spec (i / 8) 0); [lia|].
  destruct (Z.leb_spec (len b) (i / 8)); [lia|]. simpl.
  eexists; split; [reflexivity|]. split.
  - unfold len. now rewrite length_set_nth.
  - intros j. apply (update_bit_spec clear_byte 0); auto. intros; now apply bitv_clear.
Qed.

Lemma WriteBit_spec (b : bytes) (i v : Z) :
  0 <= i < 8 * len b ->
  exists b', WriteBit b i v = Done b' /\ len b' = len b /\
             forall j, bit b' j = if j =? i then (if v =? 0 then 0 else 1) else bit b j.
Proof.
  intros Hi. unfold WriteBit. destruct (v =? 0).
  - now apply ClearBit_spec.
  - now apply SetBit_spec.
Qed.

Lemma MakeBitVector_spec (n : Z) :
  0 <= n ->
  MakeBitVector n = Done (repeat x00 (Z.to_nat ((n + 7) / 8))).
Proof.
  intros H. unfold MakeBitVector. rewrite shiftr3.
  assert (0 <= (n + 7) / 8) by (apply Z.div_pos; lia).
  destruct (Z.ltb_spec ((n + 7) / 8) 0); [lia|reflexivity].
Qed.

(** An invariant of a counted loop. *)
Lemma for_range_inv {St : Type} (I : Z -> St -> Prop) (body : Z -> St -> outcome St)
      (n : nat) (i : Z) (s : St) :
  I i s ->
  (forall j s, i <= j < i + Z.of_nat n -> I j s ->
               exists s', body j s = Done s' /\ I (j + 1) s') ->
  exists s', for_range n i body s = Done s' /\ I (i + Z.of_nat n) s'.
Proof.
  revert i s; induction n as [|n IH]; intros i s H0 Hstep.
  - exists s. split; [reflexivity|]. now replace (i + Z.of_nat 0) with i by lia.
  - simpl for_range. destruct (Hstep i s ltac:(lia) H0) as [s1 [E1 H1]].
    rewrite E1. cbn [bind].
    destruct (IH (i + 1) s1 H1) as [s2 [E2 H2]].
    + intros j s' Hj. apply Hstep. lia.
    + exists s2. split; [assumption|].
      now replace (i + Z.of_nat (S n)) with (i + 1 + Z.of_nat n) by lia.
Qed.

Lemma in_range_true (a b j : Z) : a <= j < b -> (a <=? j) && (j <? b) = true.
Proof.
  intros H. destruct (Z.leb_spec a j); destruct (Z.ltb_spec j b); simpl; auto; lia.
Qed.

Lemma in_range_false (a b j : Z) : ~ (a <= j < b) -> (a <=? j) && (j <? b) = false.
Proof.
  intros H. destruct (Z.leb_spec a j); destruct (Z.ltb_spec j b); simpl; auto; lia.
Qed.

(** The copy loop writes [count] bits of [src] into [dst] and leaves the
    other bits of [dst] as they are. *)
Lemma write_bits_spec (dst : bytes) (dstoff : Z) (src : bytes) (srcoff count : Z) :
  0 <= dstoff -> dstoff + count <= 8 * len dst ->
  0 <= srcoff -> srcoff + count <= 8 * len src ->
  exists d, write_bits dst dstoff src srcoff count = Done d /\ len d = len dst /\
            forall j, bit d j = if (dstoff <=? j) && (j <? dstoff + count)
                                then bit src (j - dstoff + srcoff) else bit dst j.
Proof.
  intros Hd1 Hd2 Hs1 Hs2. unfold write_bits.
  destruct (Z.le_gt_cases count 0) as [Hc|Hc].
  - replace (Z.to_nat count) with O by lia. simpl. exists dst. repeat split.
    intros j. destruct (Z.leb_spec dstoff j); destruct (Z.ltb_spec j (dstoff + count));
      simpl; auto; lia.
  - destruct (for_range_inv
      (fun i d => len d = len dst /\
                  forall j, bit d j = if (dstoff <=? j) && (j <? dstoff + i)
                                      then bit src (j - dstoff + srcoff) else bit dst j)
      (fun i d => b <- ReadBit src (i + srcoff) ;; WriteBit d (i + dstoff) b)
      (Z.to_nat count) 0 dst) as [d [E [L B]]].
    + split; [reflexivity|]. intros j.
      destruct (Z.leb_spec dstoff j); destruct (Z.ltb_spec j (dstoff + 0)); simpl; auto; lia.
    + intros i d Hi [L B].
      rewrite ReadBit_in by lia. simpl.
      destruct (WriteBit_spec d (i + dstoff) (bit src (i + srcoff))) as [d' [E' [L' B']]];
        [lia|].
      exists d'. split; [assumption|]. split; [congruence|].
      intros j. rewrite B', B.
      destruct (Z.eqb_spec j (i + dstoff)) as [->|Hne].
      * replace (i + dstoff - dstoff + srcoff) with (i + srcoff) by lia.
        destruct (Z.leb_spec dstoff (i + dstoff)); [|lia].
        destruct (Z.ltb_spec (i + dstoff) (dstoff + (i + 1))); [|lia]. simpl.
        destruct (bit_01 src (i + srcoff)) as [->| ->]; reflexivity.
      * destruct (Z.leb_spec dstoff j); simpl; auto.
        destruct (Z.ltb_spec j (dstoff + i)); destruct (Z.ltb_spec j (dstoff + (i + 1)));
          auto; lia.
    + exists d. split; [assumption|]. split; [assumption|].
      intros j. rewrite B. now replace (0 + Z.of_nat (Z.to_nat count)) with count by lia.
Qed.

(** * Canonical bit vectors *)

Lemma in_zrange (n : nat) (s i : Z) : In i (zrange s n) <-> s <= i < s + Z.of_nat n.
Proof.
  revert s; induction n as [|n IH]; intros s; cbn [zrange In].
  - lia.
  - rewrite IH. lia.
Qed.

Lemma canon_iff (c : Z) (p : bytes) :
  canon c p = true <-> len p = (c + 7) / 8 /\ forall i, c <= i -> bit p i = 0.
Proof.
  unfold canon. rewrite andb_true_iff, Z.eqb_eq, forallb_forall, shiftr3.
  split; intros [L H]; split; auto.
  - intros i Hi. destruct (Z_lt_dec i (8 * len p)).
    + apply Z.eqb_eq, H, in_zrange. lia.
    + apply bit_out. lia.
  - intros i Hi. apply in_zrange in Hi. apply Z.eqb_eq, H. lia.
Qed.

Lemma canon_ext (c : Z) (p q : bytes) :
  canon c p = true -> canon c q = true ->
  (forall i, 0 <= i < c -> bit p i = bit q i) -> p = q.
Proof.
  intros Hp Hq H. apply canon_iff in Hp, Hq. destruct Hp as [Lp Zp], Hq as [Lq Zq].
  apply bit_ext; [congruence|].
  intros i Hi. destruct (Z_lt_dec i c).
  - apply H. lia.
  - rewrite Zp, Zq; auto; lia.
Qed.

Lemma canon_len (c : Z) (p : bytes) : canon c p = true -> 0 <= c -> c <= 8 * len p.
Proof.
  intros H Hc. apply canon_iff in H. destruct H as [L _]. rewrite L.
  pose proof (Z.div_mod (c + 7) 8 ltac:(lia)).
  pose proof (Z.mod_pos_bound (c + 7) 8 ltac:(lia)). lia.
Qed.

Lemma copy_bits_spec (src : bytes) (srcoff count : Z) :
  0 <= count -> 0 <= srcoff -> srcoff + count <= 8 * len src ->
  exists v, copy_bits src srcoff count = Done v /\ canon count v = true /\
            forall i, 0 <= i < count -> bit v i = bit src (i + srcoff).
Proof.
  intros Hc Hs Hr. unfold copy_bits. rewrite MakeBitVector_spec by assumption.
  cbn [bind].
  set (z := repeat x00 (Z.to_nat ((count + 7) / 8))).
  assert (Lz : len z = (count + 7) / 8).
  { unfold z. rewrite len_repeat. assert (0 <= (count + 7) / 8) by (apply Z.div_pos; lia). lia. }
  assert (Hz : count <= 8 * len z).
  { rewrite Lz. pose proof (Z.div_mod (count + 7) 8 ltac:(lia)).
    pose proof (Z.mod_pos_bound (count + 7) 8 ltac:(lia)). lia. }
  destruct (write_bits_spec z 0 src srcoff count) as [v [E [L B]]]; try lia.
  exists v. split; [assumption|]. split.
  - apply canon_iff. split; [congruence|]. intros i Hi. rewrite B.
    rewrite in_range_false by lia. apply bit_repeat_x00.
  - intros i Hi. rewrite B, in_range_true by lia. f_equal. lia.
Qed.

Lemma merge_spec (pcount : Z) (ppath : bytes) (ccount : Z) (cpath : bytes) (cchild : node) :
  0 <= pcount -> 0 <= ccount -> pcount <= 8 * len ppath -> ccount <= 8 * len cpath ->
  exists v, merge pcount ppath ccount cpath cchild = Done (Short (pcount + ccount) v cchild)
            /\ canon (pcount + ccount) v = true
            /\ forall i, 0 <= i < pcount + ccount ->
                         bit v i = if i <? pcount then bit ppath i else bit cpath (i - pcount).
Proof.
  intros Hp Hc Lp Lc. unfold merge. rewrite MakeBitVector_spec by lia. cbn [bind].
  set (z := repeat x00 (Z.to_nat ((pcount + ccount + 7) / 8))).
  assert (Lz : len z = (pcount + ccount + 7) / 8).
  { unfold z. rewrite len_repeat.
    assert (0 <= (pcount + ccount + 7) / 8) by (apply Z.div_pos; lia). lia. }
  assert (Hz : pcount + ccount <= 8 * len z).
  { rewrite Lz. pose proof (Z.div_mod (pcount + ccount + 7) 8 ltac:(lia)).
    pose proof (Z.mod_pos_bound (pcount + ccount + 7) 8 ltac:(lia)). lia. }
  destruct (write_bits_spec z 0 ppath 0 pcount) as [v1 [E1 [L1 B1]]]; try lia.
  rewrite E1. cbn [bind].
  destruct (write_bits_spec v1 pcount cpath 0 ccount) as [v2 [E2 [L2 B2]]]; try lia.
  rewrite E2. cbn [bind].
  exists v2. split; [reflexivity|]. split.
  - apply canon_iff. split; [congruence|]. intros i Hi. rewrite B2, B1.
    rewrite !in_range_false by lia. apply bit_repeat_x00.
  - intros i Hi. rewrite B2, B1.
    destruct (Z.ltb_spec i pcount).
    + rewrite in_range_false, in_range_true by lia. f_equal. lia.
    + rewrite in_range_true by lia. f_equal. lia.
Qed.

(** * The loops over the path of a short node *)

Lemma agree_iff (key path : bytes) (index count : Z) :
  agree key path index count = true <->
  forall i, 0 <= i < count -> bit key (i + index) = bit path i.
Proof.
  unfold agree. rewrite forallb_forall. split; intros H i Hi.
  - apply Z.eqb_eq, H, in_zrange. lia.
  - apply in_zrange in Hi. apply Z.eqb_eq, H. lia.
Qed.

Lemma match_loop_gen (key path : bytes) (index : Z) (n : nat) (i : Z) :
  0 <= i -> 0 <= index -> i + Z.of_nat n + index <= 8 * len key ->
  i + Z.of_nat n <= 8 * len path ->
  match_loop key path index n i
  = Done (forallb (fun i => bit key (i + index) =? bit path i) (zrange i n)).
Proof.
  revert i; induction n as [|n IH]; intros i Hi Hx Hk Hp; cbn [match_loop zrange forallb].
  - reflexivity.
  - rewrite !ReadBit_in by lia. cbn [bind].
    destruct (bit key (i + index) =? bit path i); [|reflexivity].
    cbn [andb]. apply IH; lia.
Qed.

Lemma match_loop_spec (key path : bytes) (index count : Z) :
  0 <= index -> index + count <= 8 * len key -> count <= 8 * len path ->
  match_loop key path index (Z.to_nat count) 0 = Done (agree key path index count).
Proof.
  intros. unfold agree.
  destruct (Z.le_gt_cases count 0).
  - replace (Z.to_nat count) with O by lia. reflexivity.
  - apply match_loop_gen; lia.
Qed.

Lemma common_loop_gen (key path : bytes) (index : Z) (n : nat) (i : Z) :
  0 <= i -> 0 <= index -> i + Z.of_nat n + index <= 8 * len key ->
  i + Z.of_nat n <= 8 * len path ->
  exists k, common_loop key path index n i i = Done k /\ i <= k <= i + Z.of_nat n /\
            (forall j, i <= j < k -> bit key (j + index) = bit path j) /\
            (k < i + Z.of_nat n -> bit key (k + index) <> bit path k).
Proof.
  revert i; induction n as [|n IH]; intros i Hi Hx Hk Hp; cbn [common_loop].
  - exists i. split; [reflexivity|]. split; [lia|]. split; intros; lia.
  - rewrite !ReadBit_in by lia. cbn [bind].
    destruct (Z.eqb_spec (bit key (i + index)) (bit path i)) as [E|E].
    + destruct (IH (i + 1)) as [k [Ek [Rk [Ak Dk]]]]; try lia.
      exists k. split; [assumption|]. split; [lia|]. split.
      * intros j Hj. destruct (Z.eq_dec j i) as [->|]; [assumption|]. apply Ak. lia.
      * intros Hlt. apply Dk. lia.
    + exists i. split; [reflexivity|]. split; [lia|]. split; [intros; lia|]. auto.
Qed.

Lemma common_loop_spec (key path : bytes) (index count : Z) :
  0 <= index -> 0 <= count -> index + count <= 8 * len key -> count <= 8 * len path ->
  exists k, common_loop key path index (Z.to_nat count) 0 0 = Done k /\ 0 <= k <= count /\
            agree key path index k = true /\
            (k < count -> bit key (k + index) <> bit path k).
Proof.
  intros Hx Hc Hk Hp.
  destruct (common_loop_gen key path index (Z.to_nat count) 0) as [k [E [R [A D]]]]; try lia.
  exists k. split; [assumption|]. split; [lia|]. split.
  - apply agree_iff. intros; apply A; lia.
  - intros; apply D; lia.
Qed.

(** The loop that sets the bits of [dst] where [src] has a 1, on a vector
    of zero bits: the bits of the result are the bits of [src]. *)
Lemma set_bits_spec (dst src : bytes) (srcoff count : Z) :
  0 <= srcoff -> srcoff + count <= 8 * len src -> count <= 8 * len dst ->
  (forall j, bit dst j = 0) ->
  exists d, set_bits dst src srcoff count = Done d /\ len d = len dst /\
            forall j, bit d j = if (0 <=? j) && (j <? count)
                                then bit src (j + srcoff) else 0.
Proof.
  intros Hs Hr Hd Hz. unfold set_bits.
  destruct (Z.le_gt_cases count 0) as [Hc|Hc].
  - replace (Z.to_nat count) with O by lia. cbn [for_range]. exists dst.
    split; [reflexivity|]. split; [reflexivity|].
    intros j. rewrite in_range_false by lia. apply Hz.
  - destruct (for_range_inv
      (fun i d => len d = len dst /\
                  forall j, bit d j = if (0 <=? j) && (j <? i)
                                      then bit src (j + srcoff) else 0)
      (fun i d => b <- ReadBit src (i + srcoff) ;; if b =? 1 then SetBit d i else Done d)
      (Z.to_nat count) 0 dst) as [d [E [L B]]].
    + split; [reflexivity|]. intros j. rewrite in_range_false by lia. apply Hz.
    + intros i d Hi [L B]. rewrite ReadBit_in by lia. cbn [bind].
      destruct (Z.eqb_spec (bit src (i + srcoff)) 1) as [E1|E1].
      * destruct (SetBit_spec d i) as [d' [E' [L' B']]]; [lia|].
        exists d'. split; [assumption|]. split; [congruence|].
        intros j. rewrite B', B. destruct (Z.eqb_spec j i) as [->|Hne].
        -- rewrite in_range_true by lia. now rewrite E1.
        -- destruct (Z_lt_dec j i).
           ++ destruct (Z_le_dec 0 j).
              ** now rewrite !in_range_true by lia.
              ** now rewrite !in_range_false by lia.
           ++ now rewrite !in_range_false by lia.
      * exists d. split; [reflexivity|]. split; [assumption|].
        intros j. rewrite B. destruct (Z.eq_dec j i) as [->|Hne].
        -- rewrite in_range_false, in_range_true by lia.
           destruct (bit_01 src (i + srcoff)); [auto|contradiction].
        -- destruct (Z_lt_dec j i).
           ++ destruct (Z_le_dec 0 j).
              ** now rewrite !in_range_true by lia.
              ** now rewrite !in_range_false by lia.
           ++ now rewrite !in_range_false by lia.
    + exists d. split; [assumption|]. split; [assumption|].
      intros j. rewrite B. now replace (0 + Z.of_nat (Z.to_nat count)) with count by lia.
Qed.


(** * Lookup *)

Ltac split_andb :=
  repeat match goal with
         | H : _ && _ = true |- _ => apply andb_true_iff in H; destruct H
         | H : (_ <=? _) = true |- _ => apply Z.leb_le in H
         | H : (_ =? _) = true |- _ => apply Z.eqb_eq in H
         | H : negb _ = true |- _ => apply negb_true_iff in H
         end.

Ltac canon_lens :=
  repeat match goal with
         | H : canon ?c ?p = true |- _ =>
             lazymatch goal with
             | _ : c <= 8 * len p |- _ => fail
             | _ => pose proof (canon_len c p H ltac:(lia))
             end
         end.

Lemma forallb_false_ex {A : Type} (f : A -> bool) (l : list A) :
  forallb f l = false -> exists x, In x l /\ f x = false.
Proof.
  induction l as [|a l IH]; cbn [forallb]; intros H; [discriminate|].
  destruct (f a) eqn:E.
  - destruct (IH H) as [x [Hx Fx]]. exists x. split; [now right|assumption].
  - exists a. split; [now left|assumption].
Qed.

Lemma agree_false_ex (key path : bytes) (index count : Z) :
  agree key path index count = false ->
  exists i, 0 <= i < count /\ bit key (i + index) <> bit path i.
Proof.
  intros H. apply forallb_false_ex in H. destruct H as [i [Hi E]].
  apply in_zrange in Hi. apply Z.eqb_neq in E. exists i. split; [lia|assumption].
Qed.

Lemma agree_false (key path : bytes) (index count i : Z) :
  0 <= i < count -> bit key (i + index) <> bit path i ->
  agree key path index count = false.
Proof.
  intros Hi D. destruct (agree key path index count) eqn:E; [|reflexivity].
  exfalso. apply D. now apply (proj1 (agree_iff _ _ _ _) E).
Qed.

Lemma same_bits_iff (k1 k2 : bytes) (index d : Z) :
  same_bits k1 k2 index d = true <->
  forall i, index <= i < index + d -> bit k1 i = bit k2 i.
Proof.
  unfold same_bits. rewrite forallb_forall. split; intros H i Hi.
  - apply Z.eqb_eq, H, in_zrange. lia.
  - apply in_zrange in Hi. apply Z.eqb_eq, H. lia.
Qed.

Lemma same_bits_false (k1 k2 : bytes) (index d i : Z) :
  index <= i < index + d -> bit k1 i <> bit k2 i -> same_bits k1 k2 index d = false.
Proof.
  intros Hi D. destruct (same_bits k1 k2 index d) eqn:E; [|reflexivity].
  exfalso. apply D. now apply (proj1 (same_bits_iff _ _ _ _) E).
Qed.

Lemma same_bits_refl (k : bytes) (index d : Z) : same_bits k k index d = true.
Proof. apply same_bits_iff. reflexivity. Qed.

(** Keys of one length are equal when all their bits are. *)
Lemma same_bits_eq (k1 k2 : bytes) :
  len k1 = len k2 -> same_bits k1 k2 0 (8 * len k1) = true -> k1 = k2.
Proof.
  intros L H. apply bit_ext; [assumption|].
  intros i Hi. apply (proj1 (same_bits_iff _ _ _ _) H). lia.
Qed.

(** On a well-formed subtree [GetLoop] computes [lookup]. *)
Lemma get_loop_lookup (key : bytes) (n : node) :
  forall (d index : Z) (fuel : nat),
    wf d n = true -> 0 <= index -> 8 * len key = index + d ->
    (height n < fuel)%nat ->
    get_loop fuel key n index = Done (found (lookup n key index)).
Proof.
  induction n as [|val|count path child IH|l IHl r IHr]; intros d index fuel W Hi Hk Hf;
    (destruct fuel as [|fuel]; [lia|]); cbn [wf height] in W, Hf; cbn [get_loop lookup].
  - discriminate.
  - reflexivity.
  - split_andb.
    rewrite match_loop_spec; try lia; [|apply canon_len; [assumption|lia]].
    cbn [bind]. destruct (agree key path index count); [|reflexivity].
    apply (IH (d - count)); auto; lia.
  - split_andb. rewrite ReadBit_in by lia. cbn [bind].
    destruct (bit key index =? 0).
    + apply (IHl (d - 1)); auto; lia.
    + apply (IHr (d - 1)); auto; lia.
Qed.

(** A well-formed subtree has at most one node per bit left, plus the leaf. *)
Lemma wf_height (n : node) : forall d, wf d n = true -> Z.of_nat (height n) <= d + 1.
Proof.
  induction n as [|val|count path child IH|l IHl r IHr]; intros d W; cbn [wf height] in *.
  - discriminate.
  - split_andb. lia.
  - split_andb. specialize (IH _ H0). lia.
  - split_andb. specialize (IHl _ H1). specialize (IHr _ H0). lia.
Qed.

(** * Put *)

Lemma same_bits_split (k1 k2 : bytes) (index d a : Z) :
  0 <= a <= d ->
  same_bits k1 k2 index d
  = same_bits k1 k2 index a && same_bits k1 k2 (index + a) (d - a).
Proof.
  intros H. apply Bool.eq_true_iff_eq.
  rewrite andb_true_iff, !same_bits_iff. split.
  - intros S. split; intros i Hi; apply S; lia.
  - intros [S1 S2] i Hi. destruct (Z_lt_dec i (index + a)); [apply S1|apply S2]; lia.
Qed.

(** Insertion at a nil slot: a leaf when the key is consumed, and else a
    short node for the rest of the key with the leaf below it. *)
Lemma put_nil_spec (key val : bytes) (cur : slot) (index d : Z) (fuel : nat) :
  0 <= index -> 0 <= d -> 8 * len key = index + d -> (2 <= fuel)%nat ->
  exists n', put_loop fuel key val cur Nil index = Done (plug cur n', false)
             /\ wf d n' = true
             /\ forall key', lookup n' key' index
                             = if same_bits key key' index d then Some val else None.
Proof.
  intros Hi Hd Hk Hf.
  destruct fuel as [|[|fuel]]; try lia.
  cbn [put_loop].
  destruct (Z.eqb_spec index (len key * 8)) as [E|E].
  - exists (Leaf val). assert (d = 0) by lia. subst d.
    split; [reflexivity|]. split; [reflexivity|].
    intros key'. reflexivity.
  - destruct (copy_bits_spec key index (len key * 8 - index)) as [v [Ev [Cv Bv]]];
      try lia.
    rewrite Ev. cbn [bind].
    replace (index + (len key * 8 - index)) with (len key * 8) by lia.
    rewrite Z.eqb_refl.
    replace (len key * 8 - index) with d in * by lia.
    exists (Short d v (Leaf val)).
    split; [reflexivity|]. split.
    + cbn [wf is_short negb]. rewrite Cv, Z.sub_diag.
      destruct (Z.leb_spec 1 d); [|lia]. destruct (Z.leb_spec d d); [|lia]. reflexivity.
    + intros key'. cbn [lookup].
      replace (agree key' v index d) with (same_bits key key' index d); [reflexivity|].
      apply Bool.eq_true_iff_eq. rewrite same_bits_iff, agree_iff. split.
      * intros S i Hr. rewrite Bv by lia. symmetry. apply S. lia.
      * intros A i Hr. specialize (A (i - index) ltac:(lia)).
        rewrite Bv in A by lia. replace (i - index + index) with i in A by lia.
        now symmetry.
Qed.

Lemma bit_neq_cases (a b : bytes) (i j : Z) :
  bit a i <> bit b j -> (bit a i = 0 /\ bit b j = 1) \/ (bit a i = 1 /\ bit b j = 0).
Proof.
  intros H. destruct (bit_01 a i), (bit_01 b j); lia.
Qed.

Lemma agree_from_iff (key path : bytes) (index from to : Z) :
  agree_from key path index from to = true <->
  forall i, from <= i < to -> bit key (i + index) = bit path i.
Proof.
  unfold agree_from. rewrite forallb_forall. split; intros H i Hi.
  - apply Z.eqb_eq, H, in_zrange. lia.
  - apply in_zrange in Hi. apply Z.eqb_eq, H. lia.
Qed.

Lemma agree_split (key path : bytes) (index count k : Z) :
  0 <= k < count ->
  agree key path index count
  = agree key path index k && (bit key (k + index) =? bit path k)
    && agree_from key path index (k + 1) count.
Proof.
  intros H. apply Bool.eq_true_iff_eq.
  rewrite !andb_true_iff, !agree_iff, agree_from_iff, Z.eqb_eq. split.
  - intros A. repeat split; try (intros i Hi); apply A; lia.
  - intros [[A1 A2] A3] i Hi.
    destruct (Z_lt_dec i k); [apply A1; lia|].
    destruct (Z.eq_dec i k) as [->|]; [assumption|apply A3; lia].
Qed.

(** The node put on the other side of the full node when a short node is
    split after [k] common bits. *)
Lemma remain_spec (path : bytes) (child : node) (count k d : Z) :
  0 <= k < count -> count <= d -> canon count path = true ->
  is_short child = false -> wf (d - count) child = true ->
  exists remain,
    (if count - k - 1 >? 0 then
       remainPath <- copy_bits path (k + 1) (count - k - 1) ;;
       Done (Short (count - k - 1) remainPath child)
     else Done child) = Done remain
    /\ wf (d - k - 1) remain = true
    /\ forall key index,
         lookup remain key (index + k + 1)
         = if agree_from key path index (k + 1) count
           then lookup child key (index + count) else None.
Proof.
  intros Hk Hd Cp Sc Wc.
  pose proof (canon_len _ _ Cp ltac:(lia)) as Lp.
  destruct (Z.gtb_spec (count - k - 1) 0) as [Hr|Hr].
  - destruct (copy_bits_spec path (k + 1) (count - k - 1)) as [v [Ev [Cv Bv]]]; try lia.
    rewrite Ev. cbn [bind]. eexists. split; [reflexivity|]. split.
    + cbn [wf]. rewrite Cv, Sc.
      replace (d - k - 1 - (count - k - 1)) with (d - count) by lia. rewrite Wc.
      destruct (Z.leb_spec 1 (count - k - 1)); [|lia].
      destruct (Z.leb_spec (count - k - 1) (d - k - 1)); [|lia]. reflexivity.
    + intros key index. cbn [lookup].
      replace (index + k + 1 + (count - k - 1)) with (index + count) by lia.
      replace (agree key v (index + k + 1) (count - k - 1))
        with (agree_from key path index (k + 1) count); [reflexivity|].
      apply Bool.eq_true_iff_eq. rewrite agree_iff, agree_from_iff. split.
      * intros A i Hi. rewrite Bv by lia.
        specialize (A (i + (k + 1)) ltac:(lia)).
        now replace (i + (index + k + 1)) with (i + (k + 1) + index) by lia.
      * intros A i Hi. specialize (A (i - (k + 1)) ltac:(lia)).
        rewrite Bv in A by lia.
        replace (i - (k + 1) + (index + k + 1)) with (i + index) in A by lia.
        now replace (i - (k + 1) + (k + 1)) with i in A by lia.
  - assert (count = k + 1) by lia. subst count.
    exists child. split; [reflexivity|]. split.
    + now replace (d - k - 1) with (d - (k + 1)) by lia.
    + intros key index.
      replace (agree_from key path index (k + 1) (k + 1)) with true.
      * now replace (index + k + 1) with (index + (k + 1)) by lia.
      * symmetry. apply agree_from_iff. intros; lia.
Qed.

(** The short node for the common bits that is put above the full node
    when a short node is split. *)
Lemma common_spec (key : bytes) (cur : slot) (index k d : Z) :
  0 <= index -> 0 <= k <= d -> 8 * len key = index + d ->
  exists cur1,
    (if k >? 0 then
       commonPath <- copy_bits key index k ;;
       Done (InShort k commonPath :: cur, index + k)
     else Done (cur, index)) = Done (cur1, index + k)
    /\ forall n, is_short n = false -> wf (d - k) n = true ->
         exists n', plug cur1 n = plug cur n' /\ wf d n' = true
                    /\ (0 < k -> is_short n' = true) /\ (k = 0 -> n' = n)
                    /\ forall key', lookup n' key' index
                                    = if same_bits key key' index k
                                      then lookup n key' (index + k) else None.
Proof.
  intros Hi Hk Hl.
  destruct (Z.gtb_spec k 0) as [Hp|Hp].
  - destruct (copy_bits_spec key index k) as [v [Ev [Cv Bv]]]; try lia.
    rewrite Ev. cbn [bind]. eexists. split; [reflexivity|].
    intros n Sn Wn. exists (Short k v n). split; [reflexivity|]. split.
    + cbn [wf]. rewrite Cv, Sn, Wn.
      destruct (Z.leb_spec 1 k); [|lia]. destruct (Z.leb_spec k d); [|lia]. reflexivity.
    + split; [reflexivity|]. split; [lia|].
      intros key'. cbn [lookup].
      replace (agree key' v index k) with (same_bits key key' index k); [reflexivity|].
      apply Bool.eq_true_iff_eq. rewrite same_bits_iff, agree_iff. split.
      * intros S i Hr. rewrite Bv by lia. symmetry. apply S. lia.
      * intros A i Hr. specialize (A (i - index) ltac:(lia)).
        rewrite Bv in A by lia. replace (i - index + index) with i in A by lia.
        now symmetry.
  - assert (k = 0) by lia. subst k.
    exists cur. rewrite Z.add_0_r. split; [reflexivity|].
    intros n Sn Wn. exists n. rewrite Z.sub_0_r in Wn.
    split; [reflexivity|]. split; [assumption|]. split; [lia|]. split; [reflexivity|].
    intros key'.
    replace (same_bits key key' index 0) with true; [reflexivity|].
    symmetry. apply same_bits_iff. intros; lia.
Qed.

Lemma same_bits_head (k1 k2 : bytes) (index d : Z) :
  1 <= d ->
  same_bits k1 k2 index d
  = (bit k1 index =? bit k2 index) && same_bits k1 k2 (index + 1) (d - 1).
Proof.
  intros H. rewrite (same_bits_split k1 k2 index d 1) by lia. f_equal.
  apply Bool.eq_true_iff_eq. rewrite same_bits_iff, Z.eqb_eq. split.
  - intros S. apply S. lia.
  - intros E i Hi. now replace i with index by lia.
Qed.

Lemma agree_same_bits (key key' path : bytes) (index k : Z) :
  agree key path index k = true ->
  agree key' path index k = same_bits key key' index k.
Proof.
  intros A. apply Bool.eq_true_iff_eq. rewrite same_bits_iff, agree_iff.
  pose proof (proj1 (agree_iff _ _ _ _) A) as A0. split.
  - intros A' i Hi. specialize (A0 (i - index) ltac:(lia)).
    specialize (A' (i - index) ltac:(lia)).
    replace (i - index + index) with i in * by lia. congruence.
  - intros S i Hi. rewrite <- (A0 i Hi). symmetry. apply S. lia.
Qed.

Lemma bit_eqb_flip (a b c : bytes) (i j : Z) :
  bit a i <> bit b j -> (bit c i =? bit b j) = negb (bit c i =? bit a i).
Proof.
  intros H. destruct (bit_01 a i) as [Ea|Ea], (bit_01 b j) as [Eb|Eb], (bit_01 c i) as [Ec|Ec];
    rewrite Ea, Eb, Ec in *; try reflexivity; congruence.
Qed.

(** [PutLoop] on a well-formed subtree: it returns, the subtree stays
    well-formed, the key is bound to the value and the other keys are as
    before. *)
Lemma put_loop_spec (key val : bytes) (n : node) :
  forall (d index : Z) (cur : slot) (fuel : nat),
    wf d n = true -> 0 <= index -> 8 * len key = index + d ->
    (height n + 2 <= fuel)%nat ->
    exists n',
      put_loop fuel key val cur n index = Done (plug cur n', is_some (lookup n key index))
      /\ wf d n' = true
      /\ (is_short n = false -> is_short n' = false)
      /\ forall key', lookup n' key' index
                      = if same_bits key key' index d then Some val else lookup n key' index.
Proof.
  induction n as [|v0|count path child IH|l IHl r IHr]; intros d index cur fuel W Hi Hk Hf;
    (destruct fuel as [|fuel]; [lia|]); cbn [wf height] in W, Hf; cbn [put_loop].
  - discriminate.
  - (* leaf *)
    split_andb. subst d. exists (Leaf val).
    split; [reflexivity|]. split; [reflexivity|]. split; [reflexivity|].
    intros key'. reflexivity.
  - (* short *)
    split_andb. rename H into W1, H3 into W2, H2 into Cp, H1 into Sc, H0 into Wc.
    pose proof (canon_len _ _ Cp ltac:(lia)) as Lp.
    destruct (common_loop_spec key path index count) as [k [Ek [Rk [Ak Dk]]]]; try lia.
    rewrite Ek. cbn [bind].
    destruct (Z.eqb_spec k count) as [->|Hne].
    + (* the key shares the whole path *)
      destruct (IH (d - count) (index + count) (InShort count path :: cur) fuel)
        as [c' [Ec [Wc' [Sc' Lc']]]]; auto; try lia.
      rewrite Ec. cbn [plug plug1 lookup]. rewrite Ak.
      exists (Short count path c'). split; [reflexivity|]. split.
      * cbn [wf]. rewrite Cp, Wc', (Sc' Sc).
        destruct (Z.leb_spec 1 count); [|lia]. destruct (Z.leb_spec count d); [|lia].
        reflexivity.
      * split; [discriminate|].
        intros key'. cbn [lookup]. rewrite Lc'.
        rewrite (same_bits_split key key' index d count) by lia.
        destruct (agree key' path index count) eqn:A'.
        -- replace (same_bits key key' index count) with true; [reflexivity|].
           symmetry. apply same_bits_iff. intros i Hr.
           pose proof (proj1 (agree_iff _ _ _ _) Ak (i - index) ltac:(lia)) as E1.
           pose proof (proj1 (agree_iff _ _ _ _) A' (i - index) ltac:(lia)) as E2.
           replace (i - index + index) with i in * by lia. congruence.
        -- replace (same_bits key key' index count) with false; [reflexivity|].
           symmetry. destruct (agree_false_ex _ _ _ _ A') as [i [Hr Di]].
           apply (same_bits_false _ _ _ _ (i + index)); [lia|].
           rewrite (proj1 (agree_iff _ _ _ _) Ak i Hr). auto.
    + (* the short node is split after [k] bits *)
      assert (Hlt : k < count) by lia. specialize (Dk Hlt).
      destruct (common_spec key cur index k d) as [cur1 [E1 Hcur1]]; try lia.
      rewrite E1. cbn [bind].
      rewrite ReadBit_in by lia. cbn [bind].
      destruct (remain_spec path child count k d) as [remain [Er [Wr Lr]]]; auto; try lia.
      rewrite Er. cbn [bind].
      set (cur2 := if bit path k =? 1 then InLeft remain :: cur1 else InRight remain :: cur1).
      destruct (put_nil_spec key val cur2 (index + k + 1) (d - k - 1) fuel)
        as [nn [En [Wn Ln]]]; try lia.
      rewrite En.
      set (nf := if bit path k =? 1 then Full nn remain else Full remain nn).
      assert (P2 : plug cur2 nn = plug cur1 nf)
        by (unfold cur2, nf; destruct (bit path k =? 1); reflexivity).
      assert (Wf : wf (d - k) nf = true).
      { unfold nf. replace (d - k - 1) with (d - k - 1) in * by lia.
        destruct (bit path k =? 1); cbn [wf]; rewrite Wn, Wr;
          (destruct (Z.leb_spec 1 (d - k)); [reflexivity|lia]). }
      assert (Sf : is_short nf = false) by (unfold nf; destruct (bit path k =? 1); reflexivity).
      destruct (Hcur1 nf Sf Wf) as [n' [Pn [Wn' [Sn' [Zn' Ln']]]]].
      rewrite P2, Pn.
      assert (Anot : agree key path index count = false)
        by (apply (agree_false _ _ _ _ k); [lia|assumption]).
      cbn [lookup]. rewrite Anot. cbn [is_some].
      exists n'. split; [reflexivity|]. split; [assumption|]. split; [discriminate|].
      intros key'. rewrite Ln'. cbn [lookup].
      (* the lookup below the full node *)
      assert (Lf : lookup nf key' (index + k)
                   = if bit key' (k + index) =? bit key (k + index)
                     then (if same_bits key key' (index + k + 1) (d - k - 1)
                           then Some val else None)
                     else (if agree_from key' path index (k + 1) count
                           then lookup child key' (index + count) else None)).
      { unfold nf. replace (k + index) with (index + k) in * by lia.
        destruct (bit_neq_cases _ _ _ _ Dk) as [[B1 B2]|[B1 B2]]; rewrite B1, B2.
        - change (1 =? 1) with true. cbn iota. cbn [lookup]. rewrite Ln, Lr. reflexivity.
        - change (0 =? 1) with false. cbn iota. cbn [lookup]. rewrite Ln, Lr.
          destruct (bit_01 key' (index + k)) as [->| ->]; reflexivity. }
      rewrite Lf.
      rewrite (same_bits_split key key' index d k) by lia.
      rewrite (same_bits_head key key' (index + k) (d - k)) by lia.
      rewrite (agree_split key' path index count k) by lia.
      rewrite (agree_same_bits key key' path index k Ak).
      rewrite (bit_eqb_flip key path key' (k + index) k Dk).
      replace (index + k) with (k + index) by lia.
      rewrite (Z.eqb_sym (bit key (k + index)) (bit key' (k + index))).
      replace (k + index + 1) with (index + k + 1) by lia.
      replace (d - k - 1) with (d - k - 1) by lia.
      destruct (same_bits key key' index k); cbn [andb]; [|reflexivity].
      destruct (bit key' (k + index) =? bit key (k + index)); cbn [andb negb];
        [|reflexivity].
      destruct (same_bits key key' (index + k + 1) (d - k - 1)); reflexivity.
  - (* full *)
    split_andb. rename H into W1, H1 into Wl, H0 into Wr.
    rewrite ReadBit_in by lia. cbn [bind lookup].
    destruct (Z.eqb_spec (bit key index) 0) as [B|B].
    + destruct (IHl (d - 1) (index + 1) (InLeft r :: cur) fuel)
        as [l' [El [Wl' [_ Ll']]]]; auto; try lia.
      rewrite El. cbn [plug plug1].
      exists (Full l' r). split; [reflexivity|]. split.
      * cbn [wf]. rewrite Wl', Wr. destruct (Z.leb_spec 1 d); [reflexivity|lia].
      * split; [reflexivity|].
        intros key'. cbn [lookup]. rewrite Ll'.
        rewrite (same_bits_head key key' index d) by lia. rewrite B.
        rewrite (Z.eqb_sym 0 (bit key' index)).
        destruct (bit key' index =? 0); reflexivity.
    + destruct (IHr (d - 1) (index + 1) (InRight l :: cur) fuel)
        as [r' [Er [Wr' [_ Lr']]]]; auto; try lia.
      rewrite Er. cbn [plug plug1].
      exists (Full l r'). split; [reflexivity|]. split.
      * cbn [wf]. rewrite Wl, Wr'. destruct (Z.leb_spec 1 d); [reflexivity|lia].
      * split; [reflexivity|].
        intros key'. cbn [lookup]. rewrite Lr'.
        rewrite (same_bits_head key key' index d) by lia.
        destruct (bit_01 key index) as [B0|B1]; [contradiction|]. rewrite B1.
        destruct (bit_01 key' index) as [->| ->]; reflexivity.
Qed.


(** * Canonical form *)

(** [lookup] reads the key from bit [index] on only. *)
Lemma lookup_ext_bits (k1 k2 : bytes) (n : node) :
  forall d index,
    wf d n = true -> 0 <= index ->
    (forall j, index <= j -> bit k1 j = bit k2 j) ->
    lookup n k1 index = lookup n k2 index.
Proof.
  induction n as [|v|count path child IH|l IHl r IHr]; intros d index W Hi H;
    cbn [wf] in W; cbn [lookup]; try reflexivity.
  - split_andb.
    replace (agree k2 path index count) with (agree k1 path index count).
    + destruct (agree k1 path index count); [|reflexivity].
      apply (IH (d - count)); auto; try lia. intros j Hj. apply H. lia.
    + apply Bool.eq_true_iff_eq. rewrite !agree_iff.
      split; intros A i Hr; [rewrite <- H by lia|rewrite H by lia]; now apply A.
  - split_andb. rewrite (H index) by lia.
    destruct (bit k2 index =? 0).
    + apply (IHl (d - 1)); auto; try lia. intros j Hj. apply H. lia.
    + apply (IHr (d - 1)); auto; try lia. intros j Hj. apply H. lia.
Qed.

(** A key can be given the bits of a path from [index] on. *)
Lemma key_with_path (key0 path : bytes) (index count : Z) :
  0 <= index -> 0 <= count -> index + count <= 8 * len key0 -> count <= 8 * len path ->
  exists key, len key = len key0 /\
              (forall j, bit key j = if (index <=? j) && (j <? index + count)
                                     then bit path (j - index) else bit key0 j).
Proof.
  intros Hi Hc Hk Hp.
  destruct (write_bits_spec key0 index path 0 count) as [key [_ [L B]]]; try lia.
  exists key. split; [assumption|]. intros j. rewrite B.
  now replace (j - index + 0) with (j - index) by lia.
Qed.

Lemma key_with_bit (key0 : bytes) (index b : Z) :
  0 <= index < 8 * len key0 -> b = 0 \/ b = 1 ->
  exists key, len key = len key0 /\
              (forall j, bit key j = if j =? index then b else bit key0 j).
Proof.
  intros Hi Hb.
  destruct (WriteBit_spec key0 index b Hi) as [key [_ [L B]]].
  exists key. split; [assumption|]. intros j. rewrite B.
  destruct (j =? index); [|reflexivity]. destruct Hb as [-> | ->]; reflexivity.
Qed.

(** Every well-formed subtree holds a key, with any given bits before
    [index]. *)
Lemma wf_nonempty (n : node) :
  forall d index key0,
    wf d n = true -> 0 <= index -> 8 * len key0 = index + d ->
    exists key v, len key = len key0 /\ (forall j, j < index -> bit key j = bit key0 j)
                  /\ lookup n key index = Some v.
Proof.
  induction n as [|v|count path child IH|l IHl r IHr]; intros d index key0 W Hi Hk;
    cbn [wf] in W.
  - discriminate.
  - exists key0, v. repeat split.
  - split_andb. canon_lens.
    destruct (key_with_path key0 path index count) as [key1 [L1 B1]]; try lia.
    destruct (IH (d - count) (index + count) key1) as [key [v [L [P F]]]]; auto; try lia.
    exists key, v. split; [congruence|]. split.
    + intros j Hj. rewrite P by lia. rewrite B1. now rewrite in_range_false by lia.
    + cbn [lookup].
      replace (agree key path index count) with true; [assumption|].
      symmetry. apply agree_iff. intros i Hr. rewrite P by lia. rewrite B1.
      rewrite in_range_true by lia. f_equal. lia.
  - split_andb.
    destruct (key_with_bit key0 index 0) as [key1 [L1 B1]]; [lia|auto|].
    destruct (IHl (d - 1) (index + 1) key1) as [key [v [L [P F]]]]; auto; try lia.
    exists key, v. split; [congruence|]. split.
    + intros j Hj. rewrite P by lia. rewrite B1.
      destruct (Z.eqb_spec j index); [lia|reflexivity].
    + cbn [lookup]. rewrite P by lia. rewrite B1, Z.eqb_refl. exact F.
Qed.

(** Below a full node there is a key for either value of the next bit. *)
Lemma wf_nonempty_full (l r : node) (d index : Z) (key0 : bytes) (b : Z) :
  wf d (Full l r) = true -> 0 <= index -> 8 * len key0 = index + d ->
  b = 0 \/ b = 1 ->
  exists key v, len key = len key0 /\ (forall j, j < index -> bit key j = bit key0 j)
                /\ bit key index = b /\ lookup (Full l r) key index = Some v.
Proof.
  intros W Hi Hk Hb. cbn [wf] in W. split_andb.
  destruct (key_with_bit key0 index b) as [key1 [L1 B1]]; [lia|auto|].
  assert (E : exists key v, len key = len key1
                /\ (forall j, j < index + 1 -> bit key j = bit key1 j)
                /\ lookup (if b =? 0 then l else r) key (index + 1) = Some v).
  { destruct Hb as [-> | ->]; cbn [Z.eqb];
      [apply (wf_nonempty l (d - 1))|apply (wf_nonempty r (d - 1))]; auto; lia. }
  destruct E as [key [v [L [P F]]]].
  assert (Bk : bit key index = b) by (rewrite P by lia; now rewrite B1, Z.eqb_refl).
  exists key, v. split; [congruence|]. split; [|split; [assumption|]].
  - intros j Hj. rewrite P by lia. rewrite B1.
    destruct (Z.eqb_spec j index); [lia|reflexivity].
  - cbn [lookup]. rewrite Bk. destruct (b =? 0); assumption.
Qed.

Lemma lookup_short_some (count : Z) (path : bytes) (child : node) (key : bytes)
      (index : Z) (v : bytes) :
  lookup (Short count path child) key index = Some v ->
  agree key path index count = true /\ lookup child key (index + count) = Some v.
Proof.
  cbn [lookup]. destruct (agree key path index count); [auto|discriminate].
Qed.

(** A short node and a full node never hold the same keys. *)
Lemma short_full_clash (count : Z) (path : bytes) (child l r : node) (d index : Z)
      (key0 : bytes) :
  wf d (Short count path child) = true -> wf d (Full l r) = true ->
  0 <= index -> 8 * len key0 = index + d ->
  (forall key, len key = len key0 ->
               lookup (Short count path child) key index = lookup (Full l r) key index) ->
  False.
Proof.
  intros W1 W2 Hi Hk H.
  destruct (wf_nonempty_full l r d index key0 (1 - bit path 0)) as [key [v [L [_ [B F]]]]];
    auto.
  { destruct (bit_01 path 0) as [-> | ->]; auto. }
  rewrite <- (H key L) in F. apply lookup_short_some in F. destruct F as [A _].
  cbn [wf] in W1. split_andb.
  pose proof (proj1 (agree_iff _ _ _ _) A 0 ltac:(lia)) as E.
  replace (0 + index) with index in E by lia. lia.
Qed.

(** Two short nodes that hold the same keys have the same count. *)
Lemma short_short_count (c1 : Z) (p1 : bytes) (ch1 : node) (c2 : Z) (p2 : bytes)
      (ch2 : node) (d index : Z) (key0 : bytes) :
  wf d (Short c1 p1 ch1) = true -> wf d (Short c2 p2 ch2) = true ->
  0 <= index -> 8 * len key0 = index + d ->
  (forall key, len key = len key0 ->
               lookup (Short c1 p1 ch1) key index = lookup (Short c2 p2 ch2) key index) ->
  ~ c1 < c2.
Proof.
  intros W1 W2 Hi Hk H Hlt. cbn [wf] in W1, W2. split_andb.
  canon_lens.
  destruct ch1 as [|v1|c p ch|l r]; cbn [wf is_short] in *; try discriminate.
  - split_andb. lia.
  - destruct (key_with_path key0 p1 index c1) as [key1 [L1 B1]]; try lia.
    destruct (wf_nonempty_full l r (d - c1) (index + c1) key1 (1 - bit p2 c1))
      as [key [v [L [P [B F]]]]]; auto; try lia.
    { destruct (bit_01 p2 c1) as [-> | ->]; auto. }
    assert (A1 : agree key p1 index c1 = true).
    { apply agree_iff. intros i Hr. rewrite P by lia. rewrite B1.
      rewrite in_range_true by lia. f_equal. lia. }
    assert (F1 : lookup (Short c1 p1 (Full l r)) key index = Some v)
      by (cbn [lookup]; rewrite A1; exact F).
    rewrite H in F1 by congruence. apply lookup_short_some in F1. destruct F1 as [A2 _].
    pose proof (proj1 (agree_iff _ _ _ _) A2 c1 ltac:(lia)) as E.
    replace (c1 + index) with (index + c1) in E by lia. lia.
Qed.

(** Well-formed subtrees that hold the same keys and values are equal. *)
Lemma wf_ext (n1 : node) :
  forall (n2 : node) (d index : Z) (key0 : bytes),
    wf d n1 = true -> wf d n2 = true -> 0 <= index -> 8 * len key0 = index + d ->
    (forall key, len key = len key0 -> lookup n1 key index = lookup n2 key index) ->
    n1 = n2.
Proof.
  induction n1 as [|v1|c1 p1 ch1 IH|l1 IHl r1 IHr]; intros n2 d index key0 W1 W2 Hi Hk H.
  - discriminate.
  - destruct n2 as [|v2|c2 p2 ch2|l2 r2]; cbn [wf] in W1, W2; try discriminate;
      split_andb; try lia.
    specialize (H key0 eq_refl). cbn [lookup] in H. congruence.
  - destruct n2 as [|v2|c2 p2 ch2|l2 r2]; try discriminate.
    + cbn [wf] in W1, W2. split_andb. lia.
    + assert (Ec : c1 = c2).
      { pose proof (short_short_count _ _ _ _ _ _ _ _ _ W1 W2 Hi Hk H).
        assert (H' : forall key, len key = len key0 ->
                       lookup (Short c2 p2 ch2) key index = lookup (Short c1 p1 ch1) key index)
          by (intros; symmetry; auto).
        pose proof (short_short_count _ _ _ _ _ _ _ _ _ W2 W1 Hi Hk H'). lia. }
      subst c2.
      pose proof W1 as W1'. pose proof W2 as W2'.
      cbn [wf] in W1, W2. split_andb.
      canon_lens.
      assert (Ep : p1 = p2).
      { destruct (wf_nonempty _ _ _ key0 W1' Hi Hk) as [key [v [L [_ F]]]].
        pose proof F as F2. rewrite H in F2 by assumption.
        apply lookup_short_some in F, F2. destruct F as [A1 _], F2 as [A2 _].
        apply (canon_ext c1); auto. intros i Hr.
        rewrite <- (proj1 (agree_iff _ _ _ _) A1 i Hr).
        now rewrite <- (proj1 (agree_iff _ _ _ _) A2 i Hr). }
      subst p2. f_equal.
      apply (IH ch2 (d - c1) (index + c1) key0); auto; try lia.
      intros key L.
      destruct (key_with_path key p1 index c1) as [key1 [L1 B1]]; try lia.
      assert (A : agree key1 p1 index c1 = true).
      { apply agree_iff. intros i Hr. rewrite B1. rewrite in_range_true by lia.
        f_equal. lia. }
      assert (X : forall j, index + c1 <= j -> bit key j = bit key1 j)
        by (intros j Hj; rewrite B1; now rewrite in_range_false by lia).
      rewrite (lookup_ext_bits key key1 ch1 (d - c1)); auto; try lia.
      rewrite (lookup_ext_bits key key1 ch2 (d - c1)); auto; try lia.
      specialize (H key1 ltac:(congruence)). cbn [lookup] in H. now rewrite A in H.
    + exfalso. exact (short_full_clash _ _ _ _ _ _ _ _ W1 W2 Hi Hk H).
  - destruct n2 as [|v2|c2 p2 ch2|l2 r2]; try discriminate.
    + cbn [wf] in W1, W2. split_andb. lia.
    + exfalso. apply (short_full_clash _ _ _ _ _ _ _ _ W2 W1 Hi Hk).
      intros; symmetry; auto.
    + cbn [wf] in W1, W2. split_andb.
      assert (Side : forall b, b = 0 \/ b = 1 -> forall key, len key = len key0 ->
                lookup (if b =? 0 then l1 else r1) key (index + 1)
                = lookup (if b =? 0 then l2 else r2) key (index + 1)).
      { intros b Hb key L.
        destruct (key_with_bit key index b) as [key1 [L1 B1]]; [lia|auto|].
        assert (X : forall j, index + 1 <= j -> bit key j = bit key1 j).
        { intros j Hj. rewrite B1. destruct (Z.eqb_spec j index); [lia|reflexivity]. }
        specialize (H key1 ltac:(congruence)). cbn [lookup] in H.
        rewrite B1, Z.eqb_refl in H.
        destruct Hb as [-> | ->]; cbn [Z.eqb] in *.
        - rewrite (lookup_ext_bits key key1 l1 (d - 1)); auto; try lia.
          rewrite (lookup_ext_bits key key1 l2 (d - 1)); auto; lia.
        - rewrite (lookup_ext_bits key key1 r1 (d - 1)); auto; try lia.
          rewrite (lookup_ext_bits key key1 r2 (d - 1)); auto; lia. }
      f_equal.
      * apply (IHl l2 (d - 1) (index + 1) key0); auto; try lia.
        intros key L. exact (Side 0 (or_introl eq_refl) key L).
      * apply (IHr r2 (d - 1) (index + 1) key0); auto; try lia.
        intros key L. exact (Side 1 (or_intror eq_refl) key L).
Qed.


(** * Tries *)

Lemma bytes_Equal_iff (a b : bytes) : bytes_Equal a b = true <-> a = b.
Proof.
  revert b; induction a as [|x a IH]; intros [|y b]; cbn [bytes_Equal];
    try (split; [discriminate|congruence]); [tauto|].
  rewrite andb_true_iff, IH. split.
  - intros [E ->]. apply Byte.byte_dec_bl in E. now subst.
  - intros E. injection E as -> ->. split; [apply Byte.byte_dec_lb|]; reflexivity.
Qed.

Lemma bytes_Equal_refl (a : bytes) : bytes_Equal a a = true.
Proof. now apply bytes_Equal_iff. Qed.

(** For keys of the length of the trie, having the same bits is being equal. *)
Lemma same_bits_Equal (k1 k2 : bytes) :
  len k1 = len k2 -> same_bits k1 k2 0 (8 * len k1) = bytes_Equal k1 k2.
Proof.
  intros L. apply Bool.eq_true_iff_eq. rewrite bytes_Equal_iff. split.
  - now apply same_bits_eq.
  - intros ->. apply same_bits_refl.
Qed.

Lemma bytes_Equal_len (k1 k2 : bytes) : len k1 <> len k2 -> bytes_Equal k1 k2 = false.
Proof.
  intros H. destruct (bytes_Equal k1 k2) eqn:E; [|reflexivity].
  apply bytes_Equal_iff in E. now subst.
Qed.

Lemma wf_tree_iff (t : Tree) :
  wf_tree t = true <->
  1 <= keyLength t <= maxKeyLength /\ (root t = Nil \/ wf (8 * keyLength t) (root t) = true).
Proof.
  unfold wf_tree. rewrite !andb_true_iff, orb_true_iff, !Z.leb_le.
  assert (N : is_nil (root t) = true <-> root t = Nil)
    by (destruct (root t); cbn; split; congruence).
  rewrite N. tauto.
Qed.

Lemma wf_tree_height (t : Tree) :
  wf_tree t = true -> Z.of_nat (height (root t)) <= 8 * keyLength t + 1.
Proof.
  intros W. apply wf_tree_iff in W. destruct W as [K [E|W]].
  - rewrite E. cbn [height]. lia.
  - now apply wf_height.
Qed.

(** [Put] on a trie that satisfies the invariants. *)
Lemma Put_spec (fuel : nat) (t : Tree) (key val : bytes) :
  wf_tree t = true -> len key = keyLength t -> 8 * keyLength t + 3 <= Z.of_nat fuel ->
  exists t',
    Put fuel t key val = Done (t', (is_some (lookup (root t) key 0), None))
    /\ wf_tree t' = true /\ keyLength t' = keyLength t /\ root t' <> Nil
    /\ forall key', len key' = keyLength t ->
                    lookup (root t') key' 0
                    = if bytes_Equal key key' then Some val else lookup (root t) key' 0.
Proof.
  intros W L Hf. pose proof (wf_tree_height t W) as Hh.
  apply wf_tree_iff in W. destruct W as [K W].
  unfold Put, unsafePut. rewrite L, Z.eqb_refl. cbn [negb].
  assert (P : exists n',
             put_loop fuel key val [] (root t) 0
             = Done (plug [] n', is_some (lookup (root t) key 0))
             /\ wf (8 * keyLength t) n' = true
             /\ forall key', lookup n' key' 0
                             = if same_bits key key' 0 (8 * keyLength t)
                               then Some val else lookup (root t) key' 0).
  { destruct W as [E|W].
    - rewrite E. destruct (put_nil_spec key val [] 0 (8 * keyLength t) fuel)
        as [n' [En [Wn Ln]]]; try lia.
      exists n'. auto.
    - destruct (put_loop_spec key val (root t) (8 * keyLength t) 0 [] fuel)
        as [n' [En [Wn [_ Ln]]]]; auto; try lia.
      exists n'. auto. }
  destruct P as [n' [En [Wn Ln]]]. rewrite En. cbn [bind plug fst snd].
  eexists. split; [reflexivity|]. cbn [keyLength root]. split.
  - apply wf_tree_iff. cbn [keyLength root]. auto.
  - split; [reflexivity|]. split.
    + intros E. rewrite E in Wn. discriminate.
    + intros key' L'. rewrite Ln. rewrite <- L. rewrite same_bits_Equal by congruence.
      reflexivity.
Qed.

(** [Put] with a key of another length fails and leaves the trie as it is. *)
Lemma Put_wrong_length (fuel : nat) (t : Tree) (key val : bytes) :
  len key <> keyLength t ->
  Put fuel t key val = Done (t, (false, Some ErrorIncompatibleKeyLength)).
Proof.
  intros H. unfold Put. destruct (Z.eqb_spec (len key) (keyLength t)); [contradiction|].
  reflexivity.
Qed.

(** [Get] on a trie that satisfies the invariants. *)
Lemma Get_spec (fuel : nat) (t : Tree) (key : bytes) :
  wf_tree t = true -> 8 * keyLength t + 3 <= Z.of_nat fuel ->
  Get fuel t key
  = Done (if len key =? keyLength t then found (lookup (root t) key 0) else ([], false)).
Proof.
  intros W Hf. pose proof (wf_tree_height t W) as Hh.
  apply wf_tree_iff in W. destruct W as [K W].
  unfold Get, unsafeGet. rewrite (Z.eqb_sym (keyLength t) (len key)).
  destruct W as [E|W].
  - rewrite E. cbn [is_nil orb lookup found]. now destruct (len key =? keyLength t).
  - assert (N : is_nil (root t) = false) by (destruct (root t); [discriminate|auto..]).
    rewrite N. cbn [orb].
    destruct (Z.eqb_spec (len key) (keyLength t)) as [L|L]; cbn [negb]; [|reflexivity].
    apply (get_loop_lookup key (root t) (8 * keyLength t)); auto; lia.
Qed.

Lemma NewTree_spec (kl : Z) (t : Tree) :
  NewTree kl = inl t -> t = mkTree kl Nil /\ 1 <= kl <= maxKeyLength /\ wf_tree t = true.
Proof.
  unfold NewTree. destruct (Z.ltb_spec kl 1); cbn [orb]; [discriminate|].
  destruct (Z.ltb_spec maxKeyLength kl); [discriminate|].
  intros E. injection E as <-. split; [reflexivity|]. split; [lia|].
  apply wf_tree_iff. cbn [keyLength root]. split; [lia|auto].
Qed.

Lemma keys_sized_cons (kl : Z) (k v : bytes) (kvs : list (bytes * bytes)) :
  keys_sized kl ((k, v) :: kvs) = true <-> len k = kl /\ keys_sized kl kvs = true.
Proof.
  unfold keys_sized. cbn [forallb fst]. now rewrite andb_true_iff, Z.eqb_eq.
Qed.

(** A sequence of puts binds every key to its latest value. *)
Lemma puts_spec (fuel : nat) (kvs : list (bytes * bytes)) :
  forall t,
    wf_tree t = true -> keys_sized (keyLength t) kvs = true ->
    8 * keyLength t + 3 <= Z.of_nat fuel ->
    exists t',
      puts fuel t kvs = Done t' /\ wf_tree t' = true /\ keyLength t' = keyLength t
      /\ forall key, len key = keyLength t ->
                     lookup (root t') key 0
                     = match latest kvs key with
                       | Some v => Some v
                       | None => lookup (root t) key 0
                       end.
Proof.
  induction kvs as [|[k v] kvs IH]; intros t W S Hf.
  - exists t. repeat split; auto.
  - apply keys_sized_cons in S. destruct S as [L S].
    destruct (Put_spec fuel t k v W L Hf) as [t1 [E1 [W1 [K1 [_ L1]]]]].
    cbn [puts]. rewrite E1. cbn [bind fst].
    destruct (IH t1 W1) as [t' [E' [W' [K' L']]]]; try (rewrite K1; assumption).
    exists t'. split; [assumption|]. split; [assumption|]. split; [congruence|].
    intros key Lk. rewrite L' by congruence. cbn [latest].
    destruct (latest kvs key); [reflexivity|]. rewrite L1 by assumption.
    now destruct (bytes_Equal k key).
Qed.


(** * Del *)

Lemma bind_assoc {A B C : Type} (m : outcome A) (f : A -> outcome B) (g : B -> outcome C) :
  bind (bind m f) g = bind m (fun a => bind (f a) g).
Proof. now destruct m. Qed.

Lemma merge_shape (pc : Z) (pp : bytes) (cc : Z) (cp : bytes) (cch n : node) :
  merge pc pp cc cp cch = Done n -> is_short n = true.
Proof.
  unfold merge. destruct (MakeBitVector (pc + cc)); cbn [bind]; try discriminate.
  destruct (write_bits a 0 pp 0 pc); cbn [bind]; try discriminate.
  destruct (write_bits a0 pc cp 0 cc); cbn [bind]; try discriminate.
  intros E. injection E as <-. reflexivity.
Qed.

Lemma cleanup_short_frame (count : Z) (path : bytes) (cur : slot) :
  compat cur (Short count path Nil) = true ->
  del_cleanup (InShort count path :: cur) = del_cleanup cur.
Proof.
  intros C. unfold del_cleanup. destruct cur as [|[pc pp|r|l] up]; try reflexivity.
  discriminate.
Qed.

Lemma cleanup_full_frame (b : Z) (survivor : node) (cur : slot) :
  (b = 0 \/ b = 1) -> survivor <> Nil ->
  del_cleanup ((if b =? 0 then InRight survivor else InLeft survivor) :: cur)
  = (n' <- collapse b survivor ;; replug cur n').
Proof.
  intros Hb Hs. unfold del_cleanup, collapse, short_over, replug.
  change (MakeBitVector 1) with (Done [x00] : outcome bytes). cbn [bind].
  assert (N : is_nil survivor = false) by (destruct survivor; [contradiction|auto..]).
  destruct Hb as [-> | ->]; cbn [Z.eqb is_nil negb]; rewrite ?N; cbn [negb].
  - change (ClearBit [x00] 0) with (Done [x00] : outcome bytes). cbn [bind].
    destruct survivor as [|v|c p ch|l r]; cbn [bind]; try contradiction.
    + destruct cur as [|[pc pp|r'|l'] up]; reflexivity.
    + destruct (merge 1 [x00] c p ch) as [n| |] eqn:M; cbn [bind]; try reflexivity.
      apply merge_shape in M. destruct n; try discriminate.
      destruct cur as [|[pc pp|r'|l'] up]; reflexivity.
    + destruct cur as [|[pc pp|r'|l'] up]; reflexivity.
  - change (SetBit [x00] 0) with (Done [x80] : outcome bytes). cbn [bind].
    destruct survivor as [|v|c p ch|l r]; cbn [bind]; try contradiction.
    + destruct cur as [|[pc pp|r'|l'] up]; reflexivity.
    + destruct (merge 1 [x80] c p ch) as [n| |] eqn:M; cbn [bind]; try reflexivity.
      apply merge_shape in M. destruct n; try discriminate.
      destruct cur as [|[pc pp|r'|l'] up]; reflexivity.
    + destruct cur as [|[pc pp|r'|l'] up]; reflexivity.
Qed.

Lemma replug_not_short_frame (cur : slot) (n n' : node) :
  compat cur n = true -> is_short n = true -> is_short n' = true ->
  replug cur n' = Done (plug cur n').
Proof.
  intros C S S'. destruct n'; try discriminate.
  destruct cur as [|[pc pp|r|l] up]; try reflexivity.
  cbn [compat] in C. rewrite S in C. discriminate.
Qed.

(** The loop of [unsafeDel] followed by its cleanup is the recursive
    deletion, plugged back into the slot. *)
Lemma del_link (key : bytes) (n : node) :
  forall (d index : Z) (cur : slot) (fuel : nat),
    wf d n = true -> compat cur n = true -> 0 <= index -> 8 * len key = index + d ->
    (height n < fuel)%nat ->
    (x <- del_loop fuel key cur n index ;; del_finish x)
    = (r <- del_rec key n index ;; replug_finish cur r).
Proof.
  induction n as [|v|count path child IH|l IHl r IHr];
    intros d index cur fuel W C Hi Hk Hf;
    (destruct fuel as [|fuel]; [cbn [height] in Hf; lia|]);
    cbn [wf height] in W, Hf; cbn [del_loop del_rec].
  - discriminate.
  - reflexivity.
  - split_andb. canon_lens.
    rewrite match_loop_spec by lia. cbn [bind].
    destruct (agree key path index count); [|reflexivity].
    rewrite (IH (d - count)); auto; try lia; [|cbn [compat]; now rewrite H1].
    rewrite bind_assoc.
    destruct (del_rec key child (index + count)) as [[n'|]| |]; cbn [bind]; try reflexivity.
    destruct n' as [|v'|c' p' ch'|l' r']; cbn [bind replug_finish short_over].
    + cbn [replug]. rewrite cleanup_short_frame; [reflexivity|].
      destruct cur as [|[pc pp|r'|l'] up]; try reflexivity. exact C.
    + rewrite (replug_not_short_frame cur (Short count path child)); auto.
    + change (replug (InShort count path :: cur) (Short c' p' ch'))
        with (m <- merge count path c' p' ch' ;; Done (plug cur m)).
      destruct (merge count path c' p' ch') as [m| |] eqn:M; cbn [bind replug_finish];
        try reflexivity.
      rewrite (replug_not_short_frame cur (Short count path child)); auto.
      now apply merge_shape in M.
    + rewrite (replug_not_short_frame cur (Short count path child)); auto.
  - split_andb. rewrite ReadBit_in by lia. cbn [bind].
    destruct (Z.eqb_spec (bit key index) 0) as [B|B].
    + rewrite (IHl (d - 1)); auto; try lia.
      rewrite bind_assoc.
      destruct (del_rec key l (index + 1)) as [[n'|]| |]; cbn [bind]; try reflexivity.
      destruct n' as [|v'|c' p' ch'|l' r']; cbn [bind replug_finish]; try reflexivity.
      assert (Nr : r <> Nil) by (intros E; rewrite E in H0; discriminate).
      pose proof (cleanup_full_frame 1 r cur (or_intror eq_refl) Nr) as E.
      change (1 =? 0) with false in E. cbn iota in E.
      cbn [replug]. rewrite E, !bind_assoc. reflexivity.
    + rewrite (IHr (d - 1)); auto; try lia.
      rewrite bind_assoc.
      destruct (del_rec key r (index + 1)) as [[n'|]| |]; cbn [bind]; try reflexivity.
      destruct n' as [|v'|c' p' ch'|l' r']; cbn [bind replug_finish]; try reflexivity.
      assert (Nl : l <> Nil) by (intros E; rewrite E in H1; discriminate).
      pose proof (cleanup_full_frame 0 l cur (or_introl eq_refl) Nl) as E.
      change (0 =? 0) with true in E. cbn iota in E.
      cbn [replug]. rewrite E, !bind_assoc. reflexivity.
Qed.

Lemma agree_merge (key p1 p2 v : bytes) (index c1 c2 : Z) :
  0 <= c1 -> 0 <= c2 ->
  (forall i, 0 <= i < c1 + c2 -> bit v i = if i <? c1 then bit p1 i else bit p2 (i - c1)) ->
  agree key v index (c1 + c2) = agree key p1 index c1 && agree key p2 (index + c1) c2.
Proof.
  intros H1 H2 B. apply Bool.eq_true_iff_eq. rewrite andb_true_iff, !agree_iff. split.
  - intros A. split; intros i Hi.
    + rewrite (A i) by lia. rewrite B by lia. destruct (Z.ltb_spec i c1); [reflexivity|lia].
    + replace (i + (index + c1)) with (i + c1 + index) by lia.
      rewrite (A (i + c1)) by lia. rewrite B by lia.
      destruct (Z.ltb_spec (i + c1) c1); [lia|]. f_equal. lia.
  - intros [A1 A2] i Hi. rewrite B by lia. destruct (Z.ltb_spec i c1).
    + apply A1. lia.
    + rewrite <- (A2 (i - c1)) by lia. f_equal. lia.
Qed.

(** A short node put above a well-formed subtree, merged with it when it
    is a short node, is well-formed and holds the same keys. *)
Lemma short_over_spec (count : Z) (path : bytes) (child : node) (d : Z) :
  1 <= count <= d -> canon count path = true -> wf (d - count) child = true ->
  exists n', short_over count path child = Done n' /\ wf d n' = true
             /\ forall key index,
                  lookup n' key index
                  = if agree key path index count
                    then lookup child key (index + count) else None.
Proof.
  intros Hc Cp Wc. canon_lens.
  destruct child as [|v|c' p' ch'|l r]; cbn [short_over].
  - discriminate.
  - eexists. split; [reflexivity|]. split; [|reflexivity].
    cbn [wf is_short negb] in *. rewrite Cp, Wc.
    destruct (Z.leb_spec 1 count); [|lia]. destruct (Z.leb_spec count d); [|lia]. reflexivity.
  - cbn [wf] in Wc. split_andb. canon_lens.
    destruct (merge_spec count path c' p' ch') as [v [Ev [Cv Bv]]]; try lia.
    rewrite Ev. eexists. split; [reflexivity|]. split.
    + cbn [wf]. rewrite Cv.
      replace (d - (count + c')) with (d - count - c') by lia.
      match goal with H : is_short ch' = false |- _ => rewrite H end.
      match goal with H : wf (d - count - c') ch' = true |- _ => rewrite H end.
      destruct (Z.leb_spec 1 (count + c')); [|lia].
      destruct (Z.leb_spec (count + c') d); [|lia]. reflexivity.
    + intros key index. cbn [lookup].
      rewrite (agree_merge key path p' v index count c') by (auto; lia).
      replace (index + (count + c')) with (index + count + c') by lia.
      destruct (agree key path index count); reflexivity.
  - eexists. split; [reflexivity|]. split; [|reflexivity].
    cbn [wf is_short negb] in *. rewrite Cp, Wc.
    destruct (Z.leb_spec 1 count); [|lia]. destruct (Z.leb_spec count d); [|lia]. reflexivity.
Qed.

Lemma agree_one (key path : bytes) (index : Z) :
  agree key path index 1 = (bit key index =? bit path 0).
Proof.
  apply Bool.eq_true_iff_eq. rewrite agree_iff, Z.eqb_eq. split.
  - intros A. specialize (A 0 ltac:(lia)). now replace (0 + index) with index in A by lia.
  - intros E i Hi. replace i with 0 by lia. now replace (0 + index) with index by lia.
Qed.

(** The short node that replaces a full node with one child left. *)
Lemma collapse_spec (b : Z) (survivor : node) (d : Z) :
  b = 0 \/ b = 1 -> 1 <= d -> wf (d - 1) survivor = true ->
  exists n', collapse b survivor = Done n' /\ wf d n' = true
             /\ forall key index,
                  lookup n' key index
                  = if bit key index =? b then lookup survivor key (index + 1) else None.
Proof.
  intros Hb Hd W. unfold collapse.
  change (MakeBitVector 1) with (Done [x00] : outcome bytes). cbn [bind].
  destruct Hb as [-> | ->]; cbn [Z.eqb].
  - change (ClearBit [x00] 0) with (Done [x00] : outcome bytes). cbn [bind].
    destruct (short_over_spec 1 [x00] survivor d) as [n' [E [Wn L]]]; auto; try lia.
    exists n'. split; [assumption|]. split; [assumption|].
    intros key index. rewrite L, agree_one. reflexivity.
  - change (SetBit [x00] 0) with (Done [x80] : outcome bytes). cbn [bind].
    destruct (short_over_spec 1 [x80] survivor d) as [n' [E [Wn L]]]; auto; try lia.
    exists n'. split; [assumption|]. split; [assumption|].
    intros key index. rewrite L, agree_one. reflexivity.
Qed.

(** The recursive deletion on a well-formed subtree: it finds the key
    when it is there, what is left is nil or well-formed, and it holds the
    other keys as before. *)
Lemma del_rec_spec (key : bytes) (n : node) :
  forall (d index : Z),
    wf d n = true -> 0 <= index -> 8 * len key = index + d ->
    exists r, del_rec key n index = Done r /\
      match r with
      | None => lookup n key index = None
      | Some n' =>
          is_some (lookup n key index) = true
          /\ (n' = Nil \/ wf d n' = true)
          /\ forall key', lookup n' key' index
                          = if same_bits key key' index d then None else lookup n key' index
      end.
Proof.
  induction n as [|v|count path child IH|l IHl r IHr]; intros d index W Hi Hk;
    cbn [wf] in W; cbn [del_rec lookup].
  - discriminate.
  - split_andb. subst d. eexists. split; [reflexivity|]. split; [reflexivity|].
    split; [auto|]. intros key'. reflexivity.
  - split_andb. canon_lens.
    rewrite match_loop_spec by lia. cbn [bind].
    destruct (agree key path index count) eqn:A; [|eexists; split; reflexivity].
    destruct (IH (d - count) (index + count)) as [rc [Ec Pc]]; auto; try lia.
    rewrite Ec. cbn [bind].
    assert (Lk : forall (X : option bytes) key',
               (if agree key' path index count
                then (if same_bits key key' (index + count) (d - count) then None else X)
                else None)
               = if same_bits key key' index d then None
                 else (if agree key' path index count then X else None)).
    { intros X key'. rewrite (same_bits_split key key' index d count) by lia.
      rewrite (agree_same_bits key key' path index count A).
      destruct (same_bits key key' index count); reflexivity. }
    destruct rc as [n'|]; [|exists None; split; [reflexivity|assumption]].
    destruct Pc as [Fc [Wc Lc]].
    destruct n' as [|v'|c' p' ch'|l' r'].
    + exists (Some Nil). split; [reflexivity|]. split; [assumption|]. split; [auto|].
      intros key'. rewrite <- Lk. rewrite <- Lc. cbn [lookup].
      now destruct (agree key' path index count).
    + destruct Wc as [Wc|Wc]; [discriminate|].
      destruct (short_over_spec count path (Leaf v') d) as [m [Em [Wm Lm]]]; auto; try lia.
      rewrite Em. cbn [bind]. exists (Some m). split; [reflexivity|].
      split; [assumption|]. split; [auto|].
      intros key'. rewrite Lm, Lc. apply Lk.
    + destruct Wc as [Wc|Wc]; [discriminate|].
      destruct (short_over_spec count path (Short c' p' ch') d) as [m [Em [Wm Lm]]];
        auto; try lia.
      rewrite Em. cbn [bind]. exists (Some m). split; [reflexivity|].
      split; [assumption|]. split; [auto|].
      intros key'. rewrite Lm, Lc. apply Lk.
    + destruct Wc as [Wc|Wc]; [discriminate|].
      destruct (short_over_spec count path (Full l' r') d) as [m [Em [Wm Lm]]];
        auto; try lia.
      rewrite Em. cbn [bind]. exists (Some m). split; [reflexivity|].
      split; [assumption|]. split; [auto|].
      intros key'. rewrite Lm, Lc. apply Lk.
  - split_andb. rewrite ReadBit_in by lia. cbn [bind].
    assert (Lk : forall (X Y : option bytes) key' b,
               bit key index = b ->
               (if bit key' index =? b
                then (if same_bits key key' (index + 1) (d - 1) then None else X)
                else Y)
               = if same_bits key key' index d then None
                 else (if bit key' index =? b then X else Y)).
    { intros X Y key' b Eb. rewrite (same_bits_head key key' index d) by lia.
      rewrite Eb, (Z.eqb_sym b (bit key' index)).
      destruct (bit key' index =? b); reflexivity. }
    destruct (Z.eqb_spec (bit key index) 0) as [B|B].
    + destruct (IHl (d - 1) (index + 1)) as [rc [Ec Pc]]; auto; try lia.
      rewrite Ec. cbn [bind].
      destruct rc as [n'|]; [|exists None; split; [reflexivity|assumption]].
      destruct Pc as [Fc [Wc Lc]].
      assert (Nn : n' = Nil \/ n' <> Nil) by (destruct n'; auto; right; discriminate).
      destruct Nn as [->|Nn].
      * destruct (collapse_spec 1 r d) as [m [Em [Wm Lm]]]; auto; try lia.
        rewrite Em. cbn [bind]. exists (Some m). split; [reflexivity|].
        split; [assumption|]. split; [auto|].
        intros key'. rewrite Lm.
        rewrite <- (Lk (lookup l key' (index + 1)) (lookup r key' (index + 1)) key' 0 B).
        rewrite <- Lc. cbn [lookup].
        destruct (bit_01 key' index) as [-> | ->]; reflexivity.
      * destruct Wc as [Wc|Wc]; [contradiction|].
        assert (E : match n' with
                    | Nil => n'0 <- collapse 1 r;; Done (Some n'0)
                    | _ => Done (Some (Full n' r))
                    end = Done (Some (Full n' r))) by (destruct n'; [contradiction|auto..]).
        rewrite E. exists (Some (Full n' r)). split; [reflexivity|].
        split; [assumption|]. split.
        -- right. cbn [wf]. rewrite Wc.
           match goal with H : wf (d - 1) r = true |- _ => rewrite H end.
           destruct (Z.leb_spec 1 d); [reflexivity|lia].
        -- intros key'. cbn [lookup]. rewrite Lc. apply (Lk _ _ key' 0 B).
    + assert (B1 : bit key index = 1) by (destruct (bit_01 key index); [contradiction|auto]).
      destruct (IHr (d - 1) (index + 1)) as [rc [Ec Pc]]; auto; try lia.
      rewrite Ec. cbn [bind].
      assert (Flip : forall (X Y : option bytes) key',
                 (if bit key' index =? 0 then X else Y)
                 = if bit key' index =? 1 then Y else X)
        by (intros X Y key'; destruct (bit_01 key' index) as [-> | ->]; reflexivity).
      destruct rc as [n'|]; [|exists None; split; [reflexivity|assumption]].
      destruct Pc as [Fc [Wc Lc]].
      assert (Nn : n' = Nil \/ n' <> Nil) by (destruct n'; auto; right; discriminate).
      destruct Nn as [->|Nn].
      * destruct (collapse_spec 0 l d) as [m [Em [Wm Lm]]]; auto; try lia.
        rewrite Em. cbn [bind]. exists (Some m). split; [reflexivity|].
        split; [assumption|]. split; [auto|].
        intros key'. rewrite Lm, Flip.
        rewrite (Flip (lookup l key' (index + 1)) (lookup r key' (index + 1))).
        rewrite <- (Lk (lookup r key' (index + 1)) (lookup l key' (index + 1)) key' 1 B1).
        rewrite <- Lc. cbn [lookup].
        destruct (bit_01 key' index) as [-> | ->]; reflexivity.
      * destruct Wc as [Wc|Wc]; [contradiction|].
        assert (E : match n' with
                    | Nil => n'0 <- collapse 0 l;; Done (Some n'0)
                    | _ => Done (Some (Full l n'))
                    end = Done (Some (Full l n'))) by (destruct n'; [contradiction|auto..]).
        rewrite E. exists (Some (Full l n')). split; [reflexivity|].
        split; [assumption|]. split.
        -- right. cbn [wf]. rewrite Wc.
           match goal with H : wf (d - 1) l = true |- _ => rewrite H end.
           destruct (Z.leb_spec 1 d); [reflexivity|lia].
        -- intros key'. cbn [lookup]. rewrite Lc, !Flip. apply (Lk _ _ key' 1 B1).
Qed.

Lemma replug_root (n' : node) : replug [] n' = Done n'.
Proof. destruct n'; reflexivity. Qed.

Lemma unsafeDel_finish (fuel : nat) (t : Tree) (key : bytes) :
  unsafeDel fuel t key
  = (x <- (x <- del_loop fuel key [] (root t) 0 ;; del_finish x) ;;
     Done (match x with
           | None => (t, false)
           | Some r => (mkTree (keyLength t) r, true)
           end)).
Proof.
  unfold unsafeDel. destruct (del_loop fuel key [] (root t) 0) as [[cur|]| |];
    cbn [bind del_finish]; try reflexivity.
  destruct (del_cleanup cur); reflexivity.
Qed.

(** [Del] on a trie that satisfies the invariants. *)
Lemma Del_spec (fuel : nat) (t : Tree) (key : bytes) :
  wf_tree t = true -> 8 * keyLength t + 3 <= Z.of_nat fuel ->
  exists t',
    Del fuel t key
    = Done (t', (len key =? keyLength t) && is_some (lookup (root t) key 0))
    /\ wf_tree t' = true /\ keyLength t' = keyLength t
    /\ forall key', len key' = keyLength t ->
                    lookup (root t') key' 0
                    = if bytes_Equal key key' then None else lookup (root t) key' 0.
Proof.
  intros W Hf. pose proof (wf_tree_height t W) as Hh. pose proof W as W0.
  apply wf_tree_iff in W. destruct W as [K W].
  unfold Del. rewrite (Z.eqb_sym (keyLength t) (len key)).
  destruct W as [E|W].
  - rewrite E. cbn [is_nil orb lookup is_some]. rewrite andb_false_r.
    exists t. split; [reflexivity|]. split; [assumption|]. split; [reflexivity|].
    intros key' L'. rewrite E. cbn [lookup]. now destruct (bytes_Equal key key').
  - assert (N : is_nil (root t) = false) by (destruct (root t); [discriminate|auto..]).
    rewrite N. cbn [orb].
    destruct (Z.eqb_spec (len key) (keyLength t)) as [L|L]; cbn [negb andb].
    + rewrite unsafeDel_finish.
      rewrite (del_link key (root t) (8 * keyLength t)); auto; try lia.
      destruct (del_rec_spec key (root t) (8 * keyLength t) 0) as [r [Er Pr]]; auto; try lia.
      rewrite Er. cbn [bind].
      destruct r as [n'|]; cbn [replug_finish].
      * destruct Pr as [F [Wn Ln]]. rewrite replug_root. cbn [bind]. rewrite F.
        eexists. split; [reflexivity|]. cbn [keyLength root]. split.
        -- apply wf_tree_iff. cbn [keyLength root]. auto.
        -- split; [reflexivity|].
           intros key' L'. rewrite Ln. rewrite <- L.
           rewrite same_bits_Equal by congruence. reflexivity.
      * cbn [bind]. rewrite Pr. cbn [is_some].
        exists t. split; [reflexivity|]. split; [assumption|]. split; [reflexivity|].
        intros key' L'. destruct (bytes_Equal key key') eqn:E; [|reflexivity].
        apply bytes_Equal_iff in E. now subst.
    + exists t. split; [reflexivity|]. split; [assumption|]. split; [reflexivity|].
      intros key' L'. rewrite bytes_Equal_len by congruence. reflexivity.
Qed.

(** A sequence of deletions removes the keys of the list and no other. *)
Lemma dels_spec (fuel : nat) (keys : list bytes) :
  forall t,
    wf_tree t = true -> 8 * keyLength t + 3 <= Z.of_nat fuel ->
    exists t',
      dels fuel t keys = Done t' /\ wf_tree t' = true /\ keyLength t' = keyLength t
      /\ forall key, len key = keyLength t ->
                     lookup (root t') key 0
                     = if existsb (fun k => bytes_Equal k key) keys then None
                       else lookup (root t) key 0.
Proof.
  induction keys as [|k keys IH]; intros t W Hf.
  - exists t. repeat split; auto.
  - destruct (Del_spec fuel t k W Hf) as [t1 [E1 [W1 [K1 L1]]]].
    cbn [dels]. rewrite E1. cbn [bind fst].
    destruct (IH t1 W1) as [t' [E' [W' [K' L']]]]; [rewrite K1; assumption|].
    exists t'. split; [assumption|]. split; [assumption|]. split; [congruence|].
    intros key Lk. rewrite L' by congruence. cbn [existsb].
    rewrite L1 by assumption.
    destruct (bytes_Equal k key); cbn [orb];
      now destruct (existsb (fun k0 => bytes_Equal k0 key) keys).
Qed.

(** A trie that satisfies the invariants and holds no key has a nil root. *)
Lemma wf_tree_empty (t : Tree) :
  wf_tree t = true ->
  (forall key, len key = keyLength t -> lookup (root t) key 0 = None) ->
  root t = Nil.
Proof.
  intros W H. apply wf_tree_iff in W. destruct W as [K [E|W]]; [assumption|].
  exfalso.
  destruct (wf_nonempty (root t) (8 * keyLength t) 0 (repeat x00 (Z.to_nat (keyLength t))))
    as [key [v [L [_ F]]]]; auto; try lia.
  - rewrite len_repeat. lia.
  - rewrite H in F; [discriminate|]. rewrite L, len_repeat. lia.
Qed.


(** * Overwriting a value *)

Lemma plug_app (s1 s2 : slot) (n : node) : plug (s1 ++ s2) n = plug s2 (plug s1 n).
Proof.
  revert n; induction s1 as [|f s1 IH]; intros n; cbn [app plug]; auto.
Qed.

(** When the key is in the subtree, [PutLoop] reaches its leaf and
    replaces it; [s] is the slot of this leaf in the subtree. *)
Lemma put_loop_frame (key val : bytes) (n : node) :
  forall (d index : Z) (cur : slot) (fuel : nat) (old : bytes),
    wf d n = true -> 0 <= index -> 8 * len key = index + d ->
    (height n < fuel)%nat ->
    lookup n key index = Some old ->
    exists s, n = plug s (Leaf old)
              /\ put_loop fuel key val cur n index
                 = Done (plug cur (plug s (Leaf val)), true)
              /\ forall x, lookup (plug s (Leaf x)) key index = Some x.
Proof.
  induction n as [|v|count path child IH|l IHl r IHr];
    intros d index cur fuel old W Hi Hk Hf F;
    (destruct fuel as [|fuel]; [cbn [height] in Hf; lia|]);
    cbn [wf height] in W, Hf; cbn [put_loop]; cbn [lookup] in F.
  - discriminate.
  - injection F as <-. exists []. repeat split.
  - split_andb. canon_lens.
    destruct (agree key path index count) eqn:A; [|discriminate].
    destruct (common_loop_spec key path index count) as [k [Ek [Rk [Ak Dk]]]]; try lia.
    rewrite Ek. cbn [bind].
    assert (k = count).
    { destruct (Z.eq_dec k count); [assumption|]. exfalso. apply Dk; [lia|].
      apply (proj1 (agree_iff _ _ _ _) A). lia. }
    subst k. rewrite Z.eqb_refl.
    destruct (IH (d - count) (index + count) (InShort count path :: cur) fuel old)
      as [s [Es [Ps Ls]]]; auto; try lia.
    exists (s ++ [InShort count path]). rewrite !plug_app. cbn [plug plug1].
    split; [congruence|]. split; [exact Ps|].
    intros x. rewrite plug_app. cbn [plug plug1 lookup]. rewrite A. apply Ls.
  - split_andb. rewrite ReadBit_in by lia. cbn [bind].
    destruct (bit key index =? 0) eqn:B.
    + destruct (IHl (d - 1) (index + 1) (InLeft r :: cur) fuel old)
        as [s [Es [Ps Ls]]]; auto; try lia.
      exists (s ++ [InLeft r]). rewrite !plug_app. cbn [plug plug1].
      split; [congruence|]. split; [exact Ps|].
      intros x. rewrite plug_app. cbn [plug plug1 lookup]. rewrite B. apply Ls.
    + destruct (IHr (d - 1) (index + 1) (InRight l :: cur) fuel old)
        as [s [Es [Ps Ls]]]; auto; try lia.
      exists (s ++ [InRight l]). rewrite !plug_app. cbn [plug plug1].
      split; [congruence|]. split; [exact Ps|].
      intros x. rewrite plug_app. cbn [plug plug1 lookup]. rewrite B. apply Ls.
Qed.

(** * The loops return *)

Lemma del_loop_total (key : bytes) (n : node) :
  forall (d index : Z) (cur : slot) (fuel : nat),
    wf d n = true -> 0 <= index -> 8 * len key = index + d -> (height n < fuel)%nat ->
    exists r, del_loop fuel key cur n index = Done r.
Proof.
  induction n as [|v|count path child IH|l IHl r IHr]; intros d index cur fuel W Hi Hk Hf;
    (destruct fuel as [|fuel]; [cbn [height] in Hf; lia|]);
    cbn [wf height] in W, Hf; cbn [del_loop].
  - discriminate.
  - eauto.
  - split_andb. canon_lens. rewrite match_loop_spec by lia. cbn [bind].
    destruct (agree key path index count); [|eauto].
    apply (IH (d - count)); auto; lia.
  - split_andb. rewrite ReadBit_in by lia. cbn [bind].
    destruct (bit key index =? 0); [apply (IHl (d - 1))|apply (IHr (d - 1))]; auto; lia.
Qed.

Lemma set_bits_total (dst src : bytes) (srcoff count : Z) :
  0 <= srcoff -> srcoff + count <= 8 * len src -> count <= 8 * len dst ->
  exists d, set_bits dst src srcoff count = Done d.
Proof.
  intros Hs Hr Hd. unfold set_bits.
  destruct (for_range_inv (fun _ d => len d = len dst)
              (fun i d => b <- ReadBit src (i + srcoff) ;;
                          if b =? 1 then SetBit d i else Done d)
              (Z.to_nat count) 0 dst) as [d [E _]]; [reflexivity| |eauto].
  intros i d Hi L. rewrite ReadBit_in by lia. cbn [bind].
  destruct (bit src (i + srcoff) =? 1); [|eauto].
  destruct (SetBit_spec d i) as [d' [E' [L' _]]]; [lia|].
  exists d'. split; [assumption|congruence].
Qed.

(** * The merge discipline follows from the invariants *)

Lemma wf_discipline (n : node) :
  forall d, wf d n = true ->
            no_short_short n = true /\ no_full_nil n = true /\ counts_positive n = true.
Proof.
  induction n as [|v|count path child IH|l IHl r IHr]; intros d W; cbn [wf] in W;
    cbn [no_short_short no_full_nil counts_positive].
  - discriminate.
  - auto.
  - split_andb. destruct (IH _ H0) as [A [B C]]. rewrite A, B, C, H1.
    destruct (Z.leb_spec 1 count); [auto|lia].
  - split_andb. destruct (IHl _ H1) as [A [B C]]. destruct (IHr _ H0) as [A' [B' C']].
    rewrite A, B, C, A', B', C'.
    destruct l; [discriminate|..]; destruct r; try discriminate; auto.
Qed.

Lemma wf_tree_discipline (t : Tree) :
  wf_tree t = true ->
  no_short_short (root t) = true /\ no_full_nil (root t) = true
  /\ counts_positive (root t) = true.
Proof.
  intros W. apply wf_tree_iff in W. destruct W as [_ [E|W]].
  - rewrite E. auto.
  - exact (wf_discipline _ _ W).
Qed.

Section HashingFacts.

Variable blake2b_New256 : bytes -> bytes -> bytes.
Variables leafNodeTag shortNodeTag fullNodeTag : bytes.

Local Abbreviation node_Hash' := (node_Hash blake2b_New256 leafNodeTag shortNodeTag fullNodeTag).
Local Abbreviation Hash' := (Hash blake2b_New256 leafNodeTag shortNodeTag fullNodeTag).
Local Abbreviation prove_loop' :=
  (prove_loop blake2b_New256 leafNodeTag shortNodeTag fullNodeTag).
Local Abbreviation Prove' := (Prove blake2b_New256 leafNodeTag shortNodeTag fullNodeTag).
Local Abbreviation run_op' := (run_op blake2b_New256 leafNodeTag shortNodeTag fullNodeTag).
Local Abbreviation run_ops' := (run_ops blake2b_New256 leafNodeTag shortNodeTag fullNodeTag).

Lemma node_Hash_wf (n : node) :
  forall d, wf d n = true -> exists h, node_Hash' n = Done h.
Proof.
  induction n as [|v|count path child IH|l IHl r IHr]; intros d W; cbn [wf] in W;
    cbn [node_Hash].
  - discriminate.
  - eauto.
  - split_andb. destruct (IH _ H0) as [h E]. rewrite E. cbn [bind]. eauto.
  - split_andb. destruct (IHl _ H1) as [hl El]. destruct (IHr _ H0) as [hr Er].
    rewrite El, Er. cbn [bind]. eauto.
Qed.

Lemma Hash_total (t : Tree) :
  wf_tree t = true -> exists h, Hash' t = Done h /\ (root t = Nil -> h = []).
Proof.
  intros W. apply wf_tree_iff in W. destruct W as [_ [E|W]]; unfold Hash.
  - rewrite E. cbn [is_nil]. eauto.
  - assert (N : is_nil (root t) = false) by (destruct (root t); [discriminate|auto..]).
    rewrite N. destruct (node_Hash_wf _ _ W) as [h E]. exists h. split; [assumption|].
    intros R. rewrite R in W. discriminate.
Qed.

Lemma prove_loop_total (key : bytes) (n : node) :
  forall (d index : Z) (fuel : nat) (shortCounts : list byte) (hashValues : list bytes),
    wf d n = true -> 0 <= index -> 8 * len key = index + d -> (height n < fuel)%nat ->
    exists r, prove_loop' fuel key n index shortCounts hashValues = Done r
              /\ match lookup n key index with
                 | None => r = (None, false)
                 | Some _ => exists p, r = (Some p, true)
                 end.
Proof.
  induction n as [|v|count path child IH|l IHl r IHr];
    intros d index fuel sc hv W Hi Hk Hf;
    (destruct fuel as [|fuel]; [cbn [height] in Hf; lia|]);
    cbn [wf height] in W, Hf; cbn [prove_loop lookup].
  - discriminate.
  - cbn [node_Hash bind]. eexists. split; [reflexivity|]. eauto.
  - split_andb. canon_lens. rewrite match_loop_spec by lia. cbn [bind].
    destruct (agree key path index count); [|eexists; split; reflexivity].
    apply (IH (d - count)); auto; lia.
  - split_andb. rewrite ReadBit_in by lia. cbn [bind].
    destruct (node_Hash_wf _ _ H1) as [hl El]. destruct (node_Hash_wf _ _ H0) as [hr Er].
    destruct (bit key index =? 0).
    + rewrite Er. cbn [bind]. apply (IHl (d - 1)); auto; lia.
    + rewrite El. cbn [bind]. apply (IHr (d - 1)); auto; lia.
Qed.

Lemma Prove_total (fuel : nat) (t : Tree) (key : bytes) :
  wf_tree t = true -> len key = keyLength t -> 8 * keyLength t + 3 <= Z.of_nat fuel ->
  exists r, Prove' fuel t key = Done r
            /\ match lookup (root t) key 0 with
               | None => r = (None, false)
               | Some _ => exists p, r = (Some p, true)
               end.
Proof.
  intros W L Hf. pose proof (wf_tree_height t W) as Hh.
  apply wf_tree_iff in W. destruct W as [K W]. unfold Prove.
  rewrite MakeBitVector_spec by lia. cbn [bind].
  destruct (set_bits_total (repeat x00 (Z.to_nat ((keyLength t + 7) / 8))) key 0
              (keyLength t)) as [p Ep]; try lia.
  { rewrite len_repeat. assert (0 <= (keyLength t + 7) / 8) by (apply Z.div_pos; lia).
    pose proof (Z.div_mod (keyLength t + 7) 8 ltac:(lia)).
    pose proof (Z.mod_pos_bound (keyLength t + 7) 8 ltac:(lia)). lia. }
  rewrite Ep. cbn [bind].
  destruct W as [E|W].
  - rewrite E. destruct fuel; [lia|]. cbn [prove_loop lookup].
    eexists. split; reflexivity.
  - apply (prove_loop_total key (root t) (8 * keyLength t)); auto; lia.
Qed.

(** Every operation keeps the invariants of the trie. *)
Lemma run_op_wf (fuel : nat) (t t' : Tree) (o : op) :
  wf_tree t = true -> 8 * keyLength t + 3 <= Z.of_nat fuel ->
  run_op' fuel t o = Done t' ->
  wf_tree t' = true /\ keyLength t' = keyLength t.
Proof.
  intros W Hf. destruct o as [key val|key|key|key|]; cbn [run_op].
  - destruct (Z.eq_dec (len key) (keyLength t)) as [L|L].
    + destruct (Put_spec fuel t key val W L Hf) as [t1 [E [W1 [K1 _]]]].
      rewrite E. cbn [bind fst]. intros X. injection X as <-. auto.
    + rewrite Put_wrong_length by assumption. cbn [bind fst].
      intros X. injection X as <-. auto.
  - destruct (Get fuel t key); cbn [bind]; try discriminate.
    intros X. injection X as <-. auto.
  - destruct (Del_spec fuel t key W Hf) as [t1 [E [W1 [K1 _]]]].
    rewrite E. cbn [bind fst]. intros X. injection X as <-. auto.
  - destruct (Prove' fuel t key); cbn [bind]; try discriminate.
    intros X. injection X as <-. auto.
  - destruct (Hash' t); cbn [bind]; try discriminate.
    intros X. injection X as <-. auto.
Qed.

Lemma run_op_total (fuel : nat) (t : Tree) (o : op) :
  wf_tree t = true -> 8 * keyLength t + 3 <= Z.of_nat fuel ->
  prove_keys_sized (keyLength t) [o] = true ->
  exists t', run_op' fuel t o = Done t'.
Proof.
  intros W Hf S. destruct o as [key val|key|key|key|]; cbn [run_op].
  - destruct (Z.eq_dec (len key) (keyLength t)) as [L|L].
    + destruct (Put_spec fuel t key val W L Hf) as [t1 [E _]].
      rewrite E. cbn [bind]. eauto.
    + rewrite Put_wrong_length by assumption. cbn [bind]. eauto.
  - rewrite Get_spec by assumption. cbn [bind]. eauto.
  - destruct (Del_spec fuel t key W Hf) as [t1 [E _]]. rewrite E. cbn [bind]. eauto.
  - cbn [prove_keys_sized forallb] in S. rewrite andb_true_r in S. apply Z.eqb_eq in S.
    destruct (Prove_total fuel t key W S Hf) as [r [E _]]. rewrite E. cbn [bind]. eauto.
  - destruct (Hash_total t W) as [h [E _]]. rewrite E. cbn [bind]. eauto.
Qed.

Lemma run_ops_wf (fuel : nat) (ops : list op) :
  forall t t',
    wf_tree t = true -> 8 * keyLength t + 3 <= Z.of_nat fuel ->
    run_ops' fuel t ops = Done t' ->
    wf_tree t' = true /\ keyLength t' = keyLength t.
Proof.
  induction ops as [|o ops IH]; intros t t' W Hf; cbn [run_ops].
  - intros X. injection X as <-. auto.
  - destruct (run_op' fuel t o) as [t1| |] eqn:E; cbn [bind]; try discriminate.
    destruct (run_op_wf fuel t t1 o W Hf E) as [W1 K1].
    intros X. destruct (IH t1 t' W1) as [W' K']; [rewrite K1; assumption|assumption|].
    split; [assumption|congruence].
Qed.

Lemma run_ops_total (fuel : nat) (ops : list op) :
  forall t,
    wf_tree t = true -> 8 * keyLength t + 3 <= Z.of_nat fuel ->
    prove_keys_sized (keyLength t) ops = true ->
    exists t', run_ops' fuel t ops = Done t'.
Proof.
  induction ops as [|o ops IH]; intros t W Hf S; cbn [run_ops].
  - eauto.
  - unfold prove_keys_sized in S. cbn [forallb] in S. apply andb_true_iff in S.
    destruct S as [S1 S2].
    destruct (run_op_total fuel t o W Hf) as [t1 E].
    { unfold prove_keys_sized. cbn [forallb]. now rewrite S1. }
    rewrite E. cbn [bind].
    destruct (run_op_wf fuel t t1 o W Hf E) as [W1 K1].
    apply IH; auto; rewrite K1; assumption.
Qed.

End HashingFacts.


(** * Proofs of inclusion for keys of at most 31 bytes *)

Lemma byte_val_uint8_of (z : Z) : byte_val (uint8_of z) = z mod 256.
Proof.
  unfold byte_val, uint8_of.
  pose proof (Z.mod_pos_bound z 256 ltac:(lia)) as B.
  destruct (Byte.of_N (Z.to_N (z mod 256))) as [b|] eqn:E.
  - apply Byte.to_of_N in E. rewrite E. lia.
  - apply Byte.of_N_None_iff in E. lia.
Qed.

Lemma byte_val_small (z : Z) : 0 <= z <= 255 -> byte_val (uint8_of z) = z.
Proof. intros H. rewrite byte_val_uint8_of. apply Z.mod_small. lia. Qed.

Lemma index_at_middle {A : Type} (s1 s2 : list A) (a : A) :
  index_at (s1 ++ a :: s2) (len s1) = Done a.
Proof.
  unfold index_at, len. destruct (Z.ltb_spec (Z.of_nat (length s1)) 0); [lia|].
  rewrite Nat2Z.id, nth_error_app2 by lia. now rewrite Nat.sub_diag.
Qed.

Section Soundness.

Variable blake2b_New256 : bytes -> bytes -> bytes.
Variables leafNodeTag shortNodeTag fullNodeTag : bytes.

Local Abbreviation node_Hash' :=
  (node_Hash blake2b_New256 leafNodeTag shortNodeTag fullNodeTag).
Local Abbreviation Hash' := (Hash blake2b_New256 leafNodeTag shortNodeTag fullNodeTag).
Local Abbreviation prove_loop' :=
  (prove_loop blake2b_New256 leafNodeTag shortNodeTag fullNodeTag).
Local Abbreviation Prove' := (Prove blake2b_New256 leafNodeTag shortNodeTag fullNodeTag).
Local Abbreviation verify_loop' := (verify_loop blake2b_New256 shortNodeTag fullNodeTag).
Local Abbreviation Verify' := (Verify blake2b_New256 shortNodeTag fullNodeTag).

(** The path rebuilt by [Verify] for a short node is the path of the
    node. *)
Lemma verify_common_path (key path : bytes) (index count : Z) :
  1 <= count -> 0 <= index -> index + count <= 8 * len key ->
  canon count path = true -> agree key path index count = true ->
  (commonPath <- MakeBitVector count ;; set_bits commonPath key index count) = Done path.
Proof.
  intros Hc Hi Hk Cp A. rewrite MakeBitVector_spec by lia. cbn [bind].
  set (z := repeat x00 (Z.to_nat ((count + 7) / 8))).
  assert (Lz : len z = (count + 7) / 8).
  { unfold z. rewrite len_repeat. assert (0 <= (count + 7) / 8) by (apply Z.div_pos; lia). lia. }
  assert (Hz : count <= 8 * len z).
  { rewrite Lz. pose proof (Z.div_mod (count + 7) 8 ltac:(lia)).
    pose proof (Z.mod_pos_bound (count + 7) 8 ltac:(lia)). lia. }
  destruct (set_bits_spec z key index count) as [v [E [L B]]]; try lia.
  { intros j. apply bit_repeat_x00. }
  rewrite E. f_equal. apply (canon_ext count); auto.
  - apply canon_iff. split; [congruence|]. intros i Hr. rewrite B.
    now rewrite in_range_false by lia.
  - intros i Hr. rewrite B, in_range_true by lia.
    apply (proj1 (agree_iff _ _ _ _) A). lia.
Qed.

(** The transcript that [ProveLoop] appends for the path below a node is
    replayed by the loop of [Verify] into the hash of this node. *)
Lemma prove_verify_path (key : bytes) (n : node) :
  forall (d index : Z) (fuel : nat) (sc : list byte) (hv : list bytes) (v : bytes),
    wf d n = true -> 0 <= index -> 8 * len key = index + d -> d <= 255 ->
    (height n < fuel)%nat ->
    lookup n key index = Some v ->
    exists es hs hn,
      prove_loop' fuel key n index sc hv
      = Done (Some (mkProof key (blake2b_New256 leafNodeTag v) (sc ++ es) (hv ++ hs)), true)
      /\ node_Hash' n = Done hn
      /\ (forall acc, fold_left (fun a s => a + byte_val s) es acc + len hs = acc + d)
      /\ forall p rest,
           Key p = key -> InterimHashes p = hv ++ hs ->
           verify_loop' p (rev es ++ rest) (blake2b_New256 leafNodeTag v)
             (len hv + len hs - 1) (index + d)
           = verify_loop' p rest hn (len hv - 1) index.
Proof.
  induction n as [|v0|count path child IH|l IHl r IHr];
    intros d index fuel sc hv v W Hi Hk Hd Hf F;
    (destruct fuel as [|fuel]; [cbn [height] in Hf; lia|]);
    cbn [wf height] in W, Hf; cbn [prove_loop node_Hash]; cbn [lookup] in F.
  - discriminate.
  - injection F as ->. split_andb. subst d.
    exists [], [], (blake2b_New256 leafNodeTag v). cbn [bind].
    rewrite !app_nil_r. split; [reflexivity|]. split; [reflexivity|]. split.
    + intros acc. cbn [fold_left]. unfold len at 1. cbn [length]. lia.
    + intros p rest _ _. cbn [rev app]. unfold len at 2. cbn [length].
      now rewrite !Z.add_0_r.
  - split_andb. canon_lens.
    destruct (agree key path index count) eqn:A; [|discriminate].
    rewrite match_loop_spec by lia. rewrite A. cbn [bind].
    destruct (IH (d - count) (index + count) fuel (sc ++ [uint8_of count]) hv v)
      as [es [hs [hc [Ep [Eh [Es Ev]]]]]]; auto; try lia.
    rewrite Ep, Eh. cbn [bind].
    exists (uint8_of count :: es), hs,
      (blake2b_New256 shortNodeTag (serializedPathSegmentLength count ++ path ++ hc)).
    split; [now rewrite <- app_assoc|]. split; [reflexivity|]. split.
    + intros acc. cbn [fold_left]. rewrite Es. rewrite byte_val_small by lia. lia.
    + intros p rest Kp Ip. cbn [rev]. rewrite <- app_assoc. cbn [app].
      replace (index + d) with (index + count + (d - count)) by lia.
      rewrite (Ev p (uint8_of count :: rest) Kp Ip).
      cbn [verify_loop]. rewrite byte_val_small by lia.
      destruct (Z.eqb_spec count 0); [lia|].
      replace (index + count - count) with index by lia.
      rewrite Kp.
      pose proof (verify_common_path key path index count ltac:(lia) Hi ltac:(lia)
                    ltac:(assumption) A) as Ec.
      destruct (MakeBitVector count) as [z| |]; cbn [bind] in Ec |- *; try discriminate.
      rewrite Ec. cbn [bind]. reflexivity.
  - split_andb. rewrite ReadBit_in by lia. cbn [bind].
    destruct (node_Hash_wf blake2b_New256 leafNodeTag shortNodeTag fullNodeTag _ _ H1)
      as [hl El].
    destruct (node_Hash_wf blake2b_New256 leafNodeTag shortNodeTag fullNodeTag _ _ H0)
      as [hr Er].
    rewrite El, Er. cbn [bind].
    assert (Z0 : byte_val (uint8_of 0) = 0) by reflexivity.
    destruct (Z.eqb_spec (bit key index) 0) as [B|B].
    + rewrite Er. cbn [bind].
      destruct (IHl (d - 1) (index + 1) fuel (sc ++ [uint8_of 0]) (hv ++ [hr]) v)
        as [es [hs [hc [Ep [Eh [Es Ev]]]]]]; auto; try lia.
      rewrite Ep. rewrite Eh in El. injection El as <-.
      exists (uint8_of 0 :: es), (hr :: hs), (blake2b_New256 fullNodeTag (hc ++ hr)).
      split; [now rewrite <- !app_assoc|]. split; [reflexivity|]. split.
      * intros acc. cbn [fold_left]. rewrite Z0.
        unfold len in *. cbn [length]. specialize (Es (acc + 0)). lia.
      * intros p rest Kp Ip. cbn [rev]. rewrite <- app_assoc. cbn [app].
        assert (Ip' : InterimHashes p = (hv ++ [hr]) ++ hs)
          by (rewrite Ip, <- app_assoc; reflexivity).
        replace (index + d) with (index + 1 + (d - 1)) by lia.
        replace (len hv + len (hr :: hs) - 1) with (len (hv ++ [hr]) + len hs - 1)
          by (unfold len; rewrite length_app; cbn [length]; lia).
        rewrite (Ev p (uint8_of 0 :: rest) Kp Ip').
        cbn [verify_loop]. rewrite Z0. cbn [Z.eqb].
        replace (len (hv ++ [hr]) - 1) with (len hv)
          by (unfold len; rewrite length_app; cbn [length]; lia).
        rewrite Ip, index_at_middle. cbn [bind].
        replace (index + 1 - 1) with index by lia.
        rewrite Kp, ReadBit_in by lia. cbn [bind]. rewrite B. cbn [Z.eqb].
        reflexivity.
    + assert (B1 : bit key index = 1) by (destruct (bit_01 key index); [contradiction|auto]).
      rewrite El. cbn [bind].
      destruct (IHr (d - 1) (index + 1) fuel (sc ++ [uint8_of 0]) (hv ++ [hl]) v)
        as [es [hs [hc [Ep [Eh [Es Ev]]]]]]; auto; try lia.
      rewrite Ep. rewrite Eh in Er. injection Er as <-.
      exists (uint8_of 0 :: es), (hl :: hs), (blake2b_New256 fullNodeTag (hl ++ hc)).
      split; [now rewrite <- !app_assoc|]. split; [reflexivity|]. split.
      * intros acc. cbn [fold_left]. rewrite Z0.
        unfold len in *. cbn [length]. specialize (Es (acc + 0)). lia.
      * intros p rest Kp Ip. cbn [rev]. rewrite <- app_assoc. cbn [app].
        assert (Ip' : InterimHashes p = (hv ++ [hl]) ++ hs)
          by (rewrite Ip, <- app_assoc; reflexivity).
        replace (index + d) with (index + 1 + (d - 1)) by lia.
        replace (len hv + len (hl :: hs) - 1) with (len (hv ++ [hl]) + len hs - 1)
          by (unfold len; rewrite length_app; cbn [length]; lia).
        rewrite (Ev p (uint8_of 0 :: rest) Kp Ip').
        cbn [verify_loop]. rewrite Z0. cbn [Z.eqb].
        replace (len (hv ++ [hl]) - 1) with (len hv)
          by (unfold len; rewrite length_app; cbn [length]; lia).
        rewrite Ip, index_at_middle. cbn [bind].
        replace (index + 1 - 1) with index by lia.
        rewrite Kp, ReadBit_in by lia. cbn [bind]. rewrite B1. cbn [Z.eqb Pos.eqb].
        reflexivity.
Qed.

(** For keys of at most 31 bytes every count fits the [uint8] of the proof:
    the proof that [Prove] returns for a key of the trie is accepted by
    [Verify] with the root hash of the trie. *)
Lemma Prove_Verify_sound (fuel : nat) (t : Tree) (key v : bytes) :
  wf_tree t = true -> keyLength t <= 31 -> 8 * keyLength t + 3 <= Z.of_nat fuel ->
  Get fuel t key = Done (v, true) ->
  exists p h, Prove' fuel t key = Done (Some p, true) /\ Hash' t = Done h
              /\ Verify' p h = Done true.
Proof.
  intros W K31 Hf G. pose proof (wf_tree_height t W) as Hh.
  rewrite Get_spec in G by assumption.
  destruct (Z.eqb_spec (len key) (keyLength t)) as [L|L]; [|discriminate].
  destruct (lookup (root t) key 0) as [v'|] eqn:F; [|discriminate].
  cbn [found] in G. injection G as ->.
  apply wf_tree_iff in W. destruct W as [K [E|W]]; [rewrite E in F; discriminate|].
  destruct (prove_verify_path key (root t) (8 * keyLength t) 0 fuel [] [] v)
    as [es [hs [hn [Ep [Eh [Es Ev]]]]]]; auto; try lia.
  cbn [app] in Ep.
  unfold Prove. rewrite MakeBitVector_spec by lia. cbn [bind].
  destruct (set_bits_total (repeat x00 (Z.to_nat ((keyLength t + 7) / 8))) key 0
              (keyLength t)) as [pp Epp]; try lia.
  { rewrite len_repeat. assert (0 <= (keyLength t + 7) / 8) by (apply Z.div_pos; lia).
    pose proof (Z.div_mod (keyLength t + 7) 8 ltac:(lia)).
    pose proof (Z.mod_pos_bound (keyLength t + 7) 8 ltac:(lia)). lia. }
  rewrite Epp. cbn [bind]. rewrite Ep.
  exists (mkProof key (blake2b_New256 leafNodeTag v) es hs), hn.
  split; [reflexivity|]. split.
  - unfold Hash. assert (N : is_nil (root t) = false)
      by (destruct (root t); [discriminate|auto..]).
    now rewrite N.
  - unfold Verify. cbn [HashValue InterimHashes ShortCounts].
    assert (P0 : fold_left (fun acc sc => acc + byte_val sc) es (len hs) = 8 * keyLength t)
      by (specialize (Es (len hs)); lia).
    rewrite P0.
    specialize (Ev (mkProof key (blake2b_New256 leafNodeTag v) es hs) [] eq_refl eq_refl).
    rewrite app_nil_r in Ev. change (len (@nil bytes)) with 0 in Ev.
    replace (0 + len hs - 1) with (len hs - 1) in Ev by lia.
    replace (0 + 8 * keyLength t) with (8 * keyLength t) in Ev by lia.
    rewrite Ev. cbn [verify_loop bind Z.eqb negb orb].
    assert (B : bytes_Equal hn hn = true) by apply bytes_Equal_refl.
    now rewrite B.
Qed.

(** [Prove] finds no proof for a key of the configured length that is not in
    the trie. *)
Lemma Prove_absent (fuel : nat) (t : Tree) (key : bytes) :
  wf_tree t = true -> len key = keyLength t -> 8 * keyLength t + 3 <= Z.of_nat fuel ->
  Get fuel t key = Done ([], false) ->
  Prove' fuel t key = Done (None, false).
Proof.
  intros W L Hf G. rewrite Get_spec in G by assumption.
  rewrite L, Z.eqb_refl in G.
  destruct (Prove_total blake2b_New256 leafNodeTag shortNodeTag fullNodeTag fuel t key W L Hf)
    as [r [E P]].
  destruct (lookup (root t) key 0); [discriminate|]. now subst r.
Qed.

(** A proof that [Verify] accepts for one root hash is rejected, with
    [false], for every other root hash. *)
Lemma Verify_other_root (p : Proof) (r r' : bytes) :
  Verify' p r = Done true -> r' <> r -> Verify' p r' = Done false.
Proof.
  unfold Verify.
  destruct (verify_loop' p (rev (ShortCounts p)) (HashValue p)
              (len (InterimHashes p) - 1)
              (fold_left (fun acc sc => acc + byte_val sc) (ShortCounts p)
                 (len (InterimHashes p)))) as [[c i]| |]; cbn [bind]; try discriminate.
  destruct (i =? 0); cbn [negb orb]; [|discriminate].
  destruct (bytes_Equal c r) eqn:E; cbn [negb]; [|discriminate].
  intros _ N. apply bytes_Equal_iff in E. subst c.
  destruct (bytes_Equal r r') eqn:E'; [|reflexivity].
  apply bytes_Equal_iff in E'. congruence.
Qed.

End Soundness.


(** * The properties of the trie *)

Lemma latest_none_iff (kvs : list (bytes * bytes)) (key : bytes) :
  latest kvs key = None <-> ~ In key (map fst kvs).
Proof.
  induction kvs as [|[k v] kvs IH]; cbn [latest map fst In].
  - tauto.
  - destruct (latest kvs key) eqn:E.
    + split; [discriminate|]. intros H. exfalso. apply H. right.
      destruct (in_dec (list_eq_dec Byte.byte_eq_dec) key (map fst kvs)) as [I|I];
        [assumption|]. apply IH in I. discriminate.
    + destruct (bytes_Equal k key) eqn:B.
      * apply bytes_Equal_iff in B. subst. split; [discriminate|]. intros H. exfalso. auto.
      * split; [|reflexivity]. intros _ [H|H].
        -- subst. rewrite bytes_Equal_refl in B. discriminate.
        -- now apply (proj1 IH).
Qed.

Lemma latest_some_in (kvs : list (bytes * bytes)) (key v : bytes) :
  latest kvs key = Some v -> In key (map fst kvs).
Proof.
  intros H.
  destruct (in_dec (list_eq_dec Byte.byte_eq_dec) key (map fst kvs)) as [I|I]; [assumption|].
  apply latest_none_iff in I. congruence.
Qed.

(** With pairwise distinct keys the latest value of a key is the value of
    its pair, so the order of the pairs does not matter. *)
Lemma latest_in_iff (kvs : list (bytes * bytes)) (key v : bytes) :
  NoDup (map fst kvs) -> (latest kvs key = Some v <-> In (key, v) kvs).
Proof.
  induction kvs as [|[k v0] kvs IH]; cbn [latest map fst In]; intros ND.
  - split; [discriminate|contradiction].
  - inversion ND as [|x l Nin ND' Ex]; subst. specialize (IH ND').
    destruct (latest kvs key) as [v'|] eqn:E.
    + split.
      * intros X. injection X as ->. right. now apply IH.
      * intros [X|X].
        -- injection X as -> ->. exfalso. apply Nin. now apply (latest_some_in kvs key v').
        -- apply IH in X. congruence.
    + destruct (bytes_Equal k key) eqn:B.
      * apply bytes_Equal_iff in B. subst k. split.
        -- intros X. injection X as ->. now left.
        -- intros [X|X]; [congruence|]. apply IH in X. discriminate.
      * split; [discriminate|]. intros [X|X].
        -- injection X as -> ->. rewrite bytes_Equal_refl in B. discriminate.
        -- apply IH in X. discriminate.
Qed.

Lemma latest_permutation (kvs1 kvs2 : list (bytes * bytes)) :
  NoDup (map fst kvs1) -> Permutation kvs1 kvs2 ->
  forall key, latest kvs1 key = latest kvs2 key.
Proof.
  intros ND P key.
  assert (ND2 : NoDup (map fst kvs2))
    by (eapply Permutation_NoDup; [apply Permutation_map; exact P|assumption]).
  destruct (latest kvs1 key) as [v1|] eqn:E1.
  - apply (latest_in_iff kvs1 key v1 ND) in E1.
    symmetry. apply (latest_in_iff kvs2 key v1 ND2).
    eapply Permutation_in; eassumption.
  - destruct (latest kvs2 key) as [v2|] eqn:E2; [|reflexivity].
    apply (latest_in_iff kvs2 key v2 ND2) in E2.
    apply Permutation_sym in P.
    assert (I : In (key, v2) kvs1) by (eapply Permutation_in; eassumption).
    apply (latest_in_iff kvs1 key v2 ND) in I. congruence.
Qed.

Lemma lookup_fresh (kl : Z) (t0 : Tree) (key : bytes) :
  NewTree kl = inl t0 -> lookup (root t0) key 0 = None.
Proof.
  intros N. apply NewTree_spec in N. destruct N as [-> _]. reflexivity.
Qed.

(** Two well-formed tries of one key length that hold the same keys and
    values have the same root. *)
Lemma wf_tree_ext (t1 t2 : Tree) :
  wf_tree t1 = true -> wf_tree t2 = true -> keyLength t1 = keyLength t2 ->
  (forall key, len key = keyLength t1 -> lookup (root t1) key 0 = lookup (root t2) key 0) ->
  root t1 = root t2.
Proof.
  intros W1 W2 K H.
  assert (L0 : len (repeat x00 (Z.to_nat (keyLength t1))) = keyLength t1).
  { rewrite len_repeat. apply wf_tree_iff in W1. lia. }
  pose proof W1 as W1'. pose proof W2 as W2'.
  apply wf_tree_iff in W1, W2. destruct W1 as [K1 [E1|W1]], W2 as [K2 [E2|W2]].
  - congruence.
  - rewrite E1. symmetry. apply wf_tree_empty; [assumption|].
    intros key L. rewrite <- H by congruence. rewrite E1. reflexivity.
  - rewrite E2. apply wf_tree_empty; [assumption|].
    intros key L. rewrite H by congruence. rewrite E2. reflexivity.
  - apply (wf_ext (root t1) (root t2) (8 * keyLength t1) 0
             (repeat x00 (Z.to_nat (keyLength t1)))); auto; try lia.
    + now rewrite K.
    + intros key L. apply H. congruence.
Qed.

Section Claims.

Variable blake2b_New256 : bytes -> bytes -> bytes.
Variables leafNodeTag shortNodeTag fullNodeTag : bytes.

Local Abbreviation Hash' := (Hash blake2b_New256 leafNodeTag shortNodeTag fullNodeTag).
Local Abbreviation prove_loop' :=
  (prove_loop blake2b_New256 leafNodeTag shortNodeTag fullNodeTag).
Local Abbreviation Prove' := (Prove blake2b_New256 leafNodeTag shortNodeTag fullNodeTag).
Local Abbreviation Verify' := (Verify blake2b_New256 shortNodeTag fullNodeTag).
Local Abbreviation run_ops' := (run_ops blake2b_New256 leafNodeTag shortNodeTag fullNodeTag).

(** C1 (as amended): two sequences of puts into fresh tries of one key
    length, with keys of that length, that agree for every key on the value
    put last (as any two orders of pairs with distinct keys do), give tries
    with structurally identical roots, and [Hash] returns the same digest
    for both. *)
Theorem canonical_root (kl : Z) (t0 : Tree) (fuel : nat) (kvs1 kvs2 : list (bytes * bytes)) :
  NewTree kl = inl t0 ->
  keys_sized kl kvs1 = true -> keys_sized kl kvs2 = true ->
  8 * kl + 3 <= Z.of_nat fuel ->
  (forall key, latest kvs1 key = latest kvs2 key) ->
  exists t1 t2 h,
    puts fuel t0 kvs1 = Done t1 /\ puts fuel t0 kvs2 = Done t2
    /\ root t1 = root t2 /\ Hash' t1 = Done h /\ Hash' t2 = Done h.
Proof.
  intros N S1 S2 Hf HL.
  pose proof (fun key => lookup_fresh kl t0 key N) as F0.
  apply NewTree_spec in N. destruct N as [E0 [K0 W0]].
  assert (Kt : keyLength t0 = kl) by (subst t0; reflexivity).
  destruct (puts_spec fuel kvs1 t0) as [t1 [E1 [W1 [K1 L1]]]]; auto; try (rewrite Kt; auto).
  destruct (puts_spec fuel kvs2 t0) as [t2 [E2 [W2 [K2 L2]]]]; auto; try (rewrite Kt; auto).
  assert (R : root t1 = root t2).
  { apply wf_tree_ext; auto; [congruence|].
    intros key L. rewrite L1, L2 by congruence. now rewrite HL. }
  destruct (Hash_total blake2b_New256 leafNodeTag shortNodeTag fullNodeTag t1 W1)
    as [h [Eh _]].
  exists t1, t2, h. repeat (split; [assumption|]).
  unfold Hash in *. now rewrite <- R.
Qed.

(** C2: after any sequence of puts with keys of the configured length,
    [Get] returns for every key the value of the latest put for it with
    [true], and [(nil, false)] for a key that was never put. *)
Theorem put_get_round_trip (kl : Z) (t0 : Tree) (fuel : nat) (kvs : list (bytes * bytes)) :
  NewTree kl = inl t0 ->
  keys_sized kl kvs = true ->
  8 * kl + 3 <= Z.of_nat fuel ->
  exists t,
    puts fuel t0 kvs = Done t
    /\ (forall key v, latest kvs key = Some v -> Get fuel t key = Done (v, true))
    /\ (forall key, ~ In key (map fst kvs) -> Get fuel t key = Done ([], false)).
Proof.
  intros N S Hf.
  pose proof (fun key => lookup_fresh kl t0 key N) as F0.
  apply NewTree_spec in N. destruct N as [E0 [K0 W0]].
  assert (Kt : keyLength t0 = kl) by (subst t0; reflexivity).
  destruct (puts_spec fuel kvs t0) as [t [E [W [K L]]]]; auto; try (rewrite Kt; auto).
  assert (G : forall key, Get fuel t key = Done (found (latest kvs key))).
  { intros key. rewrite Get_spec by (auto; rewrite K, Kt; auto).
    destruct (Z.eqb_spec (len key) (keyLength t)) as [Lk|Lk].
    - rewrite L by congruence. rewrite F0.
      now destruct (latest kvs key).
    - replace (latest kvs key) with (@None bytes); [reflexivity|].
      symmetry. apply latest_none_iff. intros I. apply Lk.
      apply in_map_iff in I. destruct I as [[k v] [Ek Ik]]. cbn [fst] in Ek. subst k.
      unfold keys_sized in S. rewrite forallb_forall in S.
      specialize (S _ Ik). cbn [fst] in S. apply Z.eqb_eq in S. congruence. }
  exists t. split; [assumption|]. split.
  - intros key v Hl. rewrite G, Hl. reflexivity.
  - intros key Hn. apply latest_none_iff in Hn. rewrite G, Hn. reflexivity.
Qed.

(** C7: after any sequence of [Put], [Get], [Del], [Prove] and [Hash] on a
    fresh trie, the tree has no short node with a short child, no full node
    with a nil child and no short node with a count below 1; and the
    sequence does return a trie when the keys given to [Prove] have the
    configured length. *)
Theorem merge_discipline (kl : Z) (t0 : Tree) (fuel : nat) (ops : list op) :
  NewTree kl = inl t0 ->
  8 * kl + 3 <= Z.of_nat fuel ->
  (forall t, run_ops' fuel t0 ops = Done t ->
             no_short_short (root t) = true /\ no_full_nil (root t) = true
             /\ counts_positive (root t) = true)
  /\ (prove_keys_sized kl ops = true -> exists t, run_ops' fuel t0 ops = Done t).
Proof.
  intros N Hf. apply NewTree_spec in N. destruct N as [E0 [K0 W0]].
  assert (Kt : keyLength t0 = kl) by (subst t0; reflexivity).
  split.
  - intros t R. apply wf_tree_discipline.
    destruct (run_ops_wf blake2b_New256 leafNodeTag shortNodeTag fullNodeTag
                fuel ops t0 t) as [W _]; auto. now rewrite Kt.
  - intros S. apply run_ops_total; auto; now rewrite Kt.
Qed.

(** C8: a fresh trie has the empty byte string as its hash; and after any
    sequence of puts, deleting every key that was put, in any order, leaves
    a nil root, and the hash is the empty byte string again. *)
Theorem del_inverse (kl : Z) (t0 : Tree) (fuel : nat) (kvs : list (bytes * bytes))
        (keys : list bytes) :
  NewTree kl = inl t0 ->
  keys_sized kl kvs = true ->
  8 * kl + 3 <= Z.of_nat fuel ->
  (forall key, In key (map fst kvs) -> In key keys) ->
  Hash' t0 = Done []
  /\ exists t1 t2,
       puts fuel t0 kvs = Done t1 /\ dels fuel t1 keys = Done t2
       /\ root t2 = Nil /\ Hash' t2 = Done [].
Proof.
  intros N S Hf HK.
  pose proof (fun key => lookup_fresh kl t0 key N) as F0.
  apply NewTree_spec in N. destruct N as [E0 [K0 W0]].
  assert (Kt : keyLength t0 = kl) by (subst t0; reflexivity).
  split; [subst t0; reflexivity|].
  destruct (puts_spec fuel kvs t0) as [t1 [E1 [W1 [K1 L1]]]]; auto; try (rewrite Kt; auto).
  destruct (dels_spec fuel keys t1) as [t2 [E2 [W2 [K2 L2]]]]; auto;
    try (rewrite K1, Kt; auto).
  assert (R : root t2 = Nil).
  { apply wf_tree_empty; [assumption|].
    intros key L. rewrite L2 by congruence.
    destruct (existsb (fun k => bytes_Equal k key) keys) eqn:X; [reflexivity|].
    rewrite L1 by congruence. rewrite F0.
    destruct (latest kvs key) eqn:La; [|reflexivity].
    exfalso. apply latest_some_in, HK in La.
    assert (existsb (fun k => bytes_Equal k key) keys = true).
    { apply existsb_exists. exists key. split; [assumption|apply bytes_Equal_refl]. }
    congruence. }
  exists t1, t2. repeat (split; [assumption|]).
  unfold Hash. now rewrite R.
Qed.

(** C9: a [Put] with a key that is in the trie returns [true] and changes
    the value of the leaf of this key only: the root before and the root
    after are the same tree around the slot [cur] of this leaf. *)
Theorem put_overwrite_frame (fuel : nat) (t : Tree) (key val old : bytes) :
  wf_tree t = true ->
  8 * keyLength t + 3 <= Z.of_nat fuel ->
  Get fuel t key = Done (old, true) ->
  exists cur,
    root t = plug cur (Leaf old)
    /\ Put fuel t key val = Done (mkTree (keyLength t) (plug cur (Leaf val)), (true, None))
    /\ forall x, lookup (plug cur (Leaf x)) key 0 = Some x.
Proof.
  intros W Hf G. pose proof (wf_tree_height t W) as Hh.
  rewrite Get_spec in G by assumption.
  destruct (Z.eqb_spec (len key) (keyLength t)) as [L|L]; [|discriminate].
  destruct (lookup (root t) key 0) as [v|] eqn:F; [|discriminate].
  cbn [found] in G. injection G as ->.
  apply wf_tree_iff in W. destruct W as [K [E|W]]; [rewrite E in F; discriminate|].
  destruct (put_loop_frame key val (root t) (8 * keyLength t) 0 [] fuel old)
    as [s [Es [Ps Ls]]]; auto; try lia.
  exists s. split; [assumption|]. split; [|assumption].
  unfold Put, unsafePut. rewrite L, Z.eqb_refl. cbn [negb]. rewrite Ps. reflexivity.
Qed.

(** C10: on a trie that satisfies the structural invariants and for a key
    of the configured length, each of the traversal loops of [unsafePut],
    [unsafeGet], [Prove] and [unsafeDel] returns within
    [8 * keyLength + 3] iterations. *)
Theorem traversal_loops_terminate (fuel : nat) (t : Tree) (key val : bytes) :
  wf_tree t = true ->
  len key = keyLength t ->
  8 * keyLength t + 3 <= Z.of_nat fuel ->
  (exists r, put_loop fuel key val [] (root t) 0 = Done r)
  /\ (exists r, get_loop fuel key (root t) 0 = Done r)
  /\ (exists r, prove_loop' fuel key (root t) 0 [] [] = Done r)
  /\ (exists r, del_loop fuel key [] (root t) 0 = Done r).
Proof.
  intros W L Hf. pose proof (wf_tree_height t W) as Hh.
  apply wf_tree_iff in W. destruct W as [K [E|W]].
  - rewrite E. destruct fuel as [|[|fuel]]; try lia.
    destruct (put_nil_spec key val [] 0 (8 * keyLength t) (S (S fuel)))
      as [n' [En _]]; try lia.
    split; [eauto|]. split; [cbn; eauto|]. split; cbn; eauto.
  - destruct (put_loop_spec key val (root t) (8 * keyLength t) 0 [] fuel)
      as [n' [En _]]; auto; try lia.
    split; [eauto|]. split.
    + rewrite (get_loop_lookup key (root t) (8 * keyLength t)); eauto; lia.
    + split.
      * destruct (prove_loop_total blake2b_New256 leafNodeTag shortNodeTag fullNodeTag
                    key (root t) (8 * keyLength t) 0 fuel [] []) as [r [Er _]];
          eauto; lia.
      * apply (del_loop_total key (root t) (8 * keyLength t)); auto; lia.
Qed.

End Claims.


(** * Errors and wrong key lengths *)

Lemma NewTree_error_iff (kl : Z) :
  NewTree kl = inr ErrorIncompatibleKeyLength <-> ~ (1 <= kl <= maxKeyLength).
Proof.
  unfold NewTree. destruct (Z.ltb_spec kl 1); destruct (Z.ltb_spec maxKeyLength kl);
    cbn [orb]; split; intros; try reflexivity; try lia; discriminate.
Qed.

Lemma Put_error_iff (fuel : nat) (t t' : Tree) (key val : bytes) (b : bool) (e : error) :
  Put fuel t key val = Done (t', (b, Some e)) -> len key <> keyLength t.
Proof.
  unfold Put. destruct (Z.eqb_spec (len key) (keyLength t)); cbn [negb]; [|auto].
  destruct (unsafePut fuel t key val); cbn [bind]; discriminate.
Qed.

Lemma Get_wrong_length (fuel : nat) (t : Tree) (key : bytes) :
  len key <> keyLength t -> Get fuel t key = Done ([], false).
Proof.
  intros H. unfold Get. destruct (Z.eqb_spec (keyLength t) (len key)); [congruence|].
  cbn [negb]. now rewrite orb_true_r.
Qed.

Lemma Del_wrong_length (fuel : nat) (t : Tree) (key : bytes) :
  len key <> keyLength t -> Del fuel t key = Done (t, false).
Proof.
  intros H. unfold Del. destruct (Z.eqb_spec (keyLength t) (len key)); [congruence|].
  cbn [negb]. now rewrite orb_true_r.
Qed.

Section Defects.

Variable blake2b_New256 : bytes -> bytes -> bytes.
Variables leafNodeTag shortNodeTag fullNodeTag : bytes.

Local Abbreviation Hash' := (Hash blake2b_New256 leafNodeTag shortNodeTag fullNodeTag).
Local Abbreviation Prove' := (Prove blake2b_New256 leafNodeTag shortNodeTag fullNodeTag).
Local Abbreviation Verify' := (Verify blake2b_New256 shortNodeTag fullNodeTag).

(** C3: in a trie for keys of 32 bytes that holds one key, the short node
    of the root has a count of 256; [Prove] finds the key and records the
    count as [uint8(256)], which is 0, the mark of a full node; [Verify]
    then reads an interim hash that is not there, and panics, whatever root
    hash it is given. *)
Theorem prove_truncates_short_count :
  let key := repeat x00 32 in
  let t := mkTree 32 (Short 256 key (Leaf [x61])) in
  Put 5 (mkTree 32 Nil) key [x61] = Done (t, (false, None))
  /\ Prove' 5 t key
     = Done (Some (mkProof key (blake2b_New256 leafNodeTag [x61]) [x00] []), true)
  /\ forall expectedRootHash,
       Verify' (mkProof key (blake2b_New256 leafNodeTag [x61]) [x00] []) expectedRootHash
       = Panic.
Proof.
  cbv zeta. split; [vm_compute; reflexivity|]. split; [vm_compute; reflexivity|].
  intros expectedRootHash. reflexivity.
Qed.

(** C4: for the trie of one-byte keys that holds the key [0xFF], [Prove]
    gives the proof with the short count 8; with bit 3 of this count
    flipped the count is 0, and [Verify] of the flipped proof against the
    root hash of the trie panics: it does not return [false]. *)
Theorem verify_flipped_short_count_panics :
  let t := mkTree 1 (Short 8 [xff] (Leaf [x61])) in
  let valueHash := blake2b_New256 leafNodeTag [x61] in
  Put 5 (mkTree 1 Nil) [xff] [x61] = Done (t, (false, None))
  /\ Prove' 5 t [xff] = Done (Some (mkProof [xff] valueHash [x08] []), true)
  /\ flip_bit x08 3 = x00
  /\ forall h, Hash' t = Done h ->
               Verify' (mkProof [xff] valueHash [flip_bit x08 3] []) h = Panic.
Proof.
  cbv zeta. split; [vm_compute; reflexivity|]. split; [vm_compute; reflexivity|].
  split; [reflexivity|]. intros h _. reflexivity.
Qed.

(** C5: [Verify] on the proof with the key [0x00], an empty value hash,
    the single short count 0 and no interim hash panics, whatever root hash
    it is given: the entry 0 makes it read [InterimHashes[-1]]. *)
Theorem verify_panics_without_interim_hash (expectedRootHash : bytes) :
  Verify' (mkProof [x00] [] [x00] []) expectedRootHash = Panic.
Proof. reflexivity. Qed.

(** C6: on the trie of one-byte keys that holds the key [0x00], [Get] and
    [Del] with the two-byte key [0x00 0x01] return not-found, but [Prove]
    with this key returns a proof and [true]; and [Prove] with the empty
    key panics. *)
Theorem prove_ignores_key_length :
  let t := mkTree 1 (Short 8 [x00] (Leaf [x78])) in
  Put 5 (mkTree 1 Nil) [x00] [x78] = Done (t, (false, None))
  /\ Get 5 t [x00; x01] = Done ([], false)
  /\ Del 5 t [x00; x01] = Done (t, false)
  /\ Prove' 5 t [x00; x01]
     = Done (Some (mkProof [x00; x01] (blake2b_New256 leafNodeTag [x78]) [x08] []), true)
  /\ Prove' 5 t [] = Panic.
Proof.
  cbv zeta. repeat split; vm_compute; reflexivity.
Qed.

End Defects.


(** * The properties on concrete tries *)

(** C1 as it is stated fails for two orders of a multiset that holds one
    key with two values: the value put last differs, and so do the roots. *)
Lemma canonical_root_any_order_fails :
  Permutation [([x00], [x61]); ([x00], [x62])] [([x00], [x62]); ([x00], [x61])]
  /\ puts 11 (mkTree 1 Nil) [([x00], [x61]); ([x00], [x62])]
     = Done (mkTree 1 (Short 8 [x00] (Leaf [x62])))
  /\ puts 11 (mkTree 1 Nil) [([x00], [x62]); ([x00], [x61])]
     = Done (mkTree 1 (Short 8 [x00] (Leaf [x61])))
  /\ Short 8 [x00] (Leaf [x62]) <> Short 8 [x00] (Leaf [x61]).
Proof.
  split; [apply perm_swap|]. split; [reflexivity|]. split; [reflexivity|].
  intros E. discriminate E.
Qed.

Lemma canonical_root_witness :
  NewTree 1 = inl (mkTree 1 Nil)
  /\ keys_sized 1 [([x00], [x78]); ([x80], [x79])] = true
  /\ keys_sized 1 [([x80], [x79]); ([x00], [x78])] = true
  /\ 8 * 1 + 3 <= Z.of_nat 11
  /\ (forall key, latest [([x00], [x78]); ([x80], [x79])] key
                  = latest [([x80], [x79]); ([x00], [x78])] key)
  /\ exists t1 t2 h,
       puts 11 (mkTree 1 Nil) [([x00], [x78]); ([x80], [x79])] = Done t1
       /\ puts 11 (mkTree 1 Nil) [([x80], [x79]); ([x00], [x78])] = Done t2
       /\ root t1 = root t2
       /\ Hash example_hash [x00] [x01] [x02] t1 = Done h
       /\ Hash example_hash [x00] [x01] [x02] t2 = Done h.
Proof.
  assert (L : forall key, latest [([x00], [x78]); ([x80], [x79])] key
                          = latest [([x80], [x79]); ([x00], [x78])] key).
  { intros key. cbn [latest].
    destruct (bytes_Equal [x80] key) eqn:A; destruct (bytes_Equal [x00] key) eqn:B;
      try reflexivity.
    apply bytes_Equal_iff in A, B. congruence. }
  split; [reflexivity|]. split; [reflexivity|]. split; [reflexivity|].
  split; [vm_compute; discriminate|]. split; [exact L|].
  apply (canonical_root example_hash [x00] [x01] [x02] 1 (mkTree 1 Nil) 11);
    [reflexivity|reflexivity|reflexivity|vm_compute; discriminate|exact L].
Defined.

Lemma put_get_round_trip_witness :
  NewTree 1 = inl (mkTree 1 Nil)
  /\ keys_sized 1 [([x00], [x78]); ([x80], [x79]); ([x00], [x7a])] = true
  /\ 8 * 1 + 3 <= Z.of_nat 11
  /\ exists t,
       puts 11 (mkTree 1 Nil) [([x00], [x78]); ([x80], [x79]); ([x00], [x7a])] = Done t
       /\ (forall key v,
             latest [([x00], [x78]); ([x80], [x79]); ([x00], [x7a])] key = Some v ->
             Get 11 t key = Done (v, true))
       /\ (forall key,
             ~ In key (map fst [([x00], [x78]); ([x80], [x79]); ([x00], [x7a])]) ->
             Get 11 t key = Done ([], false)).
Proof.
  split; [reflexivity|]. split; [reflexivity|]. split; [vm_compute; discriminate|].
  apply (put_get_round_trip 1 (mkTree 1 Nil) 11);
    [reflexivity|reflexivity|vm_compute; discriminate].
Defined.

Lemma merge_discipline_witness :
  NewTree 1 = inl (mkTree 1 Nil)
  /\ 8 * 1 + 3 <= Z.of_nat 11
  /\ (forall t,
        run_ops example_hash [x00] [x01] [x02] 11 (mkTree 1 Nil)
          [OpPut [x00] [x78]; OpPut [x40] [x79]; OpPut [x80] [x7a]; OpGet [x40];
           OpProve [x40]; OpHash; OpDel [x40]] = Done t ->
        no_short_short (root t) = true /\ no_full_nil (root t) = true
        /\ counts_positive (root t) = true)
  /\ (prove_keys_sized 1
        [OpPut [x00] [x78]; OpPut [x40] [x79]; OpPut [x80] [x7a]; OpGet [x40];
         OpProve [x40]; OpHash; OpDel [x40]] = true ->
      exists t,
        run_ops example_hash [x00] [x01] [x02] 11 (mkTree 1 Nil)
          [OpPut [x00] [x78]; OpPut [x40] [x79]; OpPut [x80] [x7a]; OpGet [x40];
           OpProve [x40]; OpHash; OpDel [x40]] = Done t).
Proof.
  split; [reflexivity|]. split; [vm_compute; discriminate|].
  apply (merge_discipline example_hash [x00] [x01] [x02] 1 (mkTree 1 Nil) 11);
    [reflexivity|vm_compute; discriminate].
Defined.

Lemma del_inverse_witness :
  NewTree 1 = inl (mkTree 1 Nil)
  /\ keys_sized 1 [([x00], [x78]); ([x40], [x79]); ([x80], [x7a])] = true
  /\ 8 * 1 + 3 <= Z.of_nat 11
  /\ (forall key, In key (map fst [([x00], [x78]); ([x40], [x79]); ([x80], [x7a])]) ->
                  In key [[x40]; [x80]; [x00]])
  /\ Hash example_hash [x00] [x01] [x02] (mkTree 1 Nil) = Done []
  /\ exists t1 t2,
       puts 11 (mkTree 1 Nil) [([x00], [x78]); ([x40], [x79]); ([x80], [x7a])] = Done t1
       /\ dels 11 t1 [[x40]; [x80]; [x00]] = Done t2
       /\ root t2 = Nil /\ Hash example_hash [x00] [x01] [x02] t2 = Done [].
Proof.
  assert (I : forall key,
             In key (map fst [([x00], [x78]); ([x40], [x79]); ([x80], [x7a])]) ->
             In key [[x40]; [x80]; [x00]]).
  { intros key. cbn [map fst In]. intuition. }
  split; [reflexivity|]. split; [reflexivity|]. split; [vm_compute; discriminate|].
  split; [exact I|].
  apply (del_inverse example_hash [x00] [x01] [x02] 1 (mkTree 1 Nil) 11);
    [reflexivity|reflexivity|vm_compute; discriminate|exact I].
Defined.

Lemma put_overwrite_frame_witness :
  let t := mkTree 1 (Full (Short 7 [x00] (Leaf [x78])) (Short 7 [x00] (Leaf [x79]))) in
  wf_tree t = true
  /\ 8 * keyLength t + 3 <= Z.of_nat 11
  /\ Get 11 t [x80] = Done ([x79], true)
  /\ exists cur,
       root t = plug cur (Leaf [x79])
       /\ Put 11 t [x80] [x7a]
          = Done (mkTree (keyLength t) (plug cur (Leaf [x7a])), (true, None))
       /\ forall x, lookup (plug cur (Leaf x)) [x80] 0 = Some x.
Proof.
  cbv zeta.
  split; [reflexivity|]. split; [vm_compute; discriminate|]. split; [reflexivity|].
  apply (put_overwrite_frame 11
           (mkTree 1 (Full (Short 7 [x00] (Leaf [x78])) (Short 7 [x00] (Leaf [x79]))))
           [x80] [x7a] [x79]);
    [reflexivity|vm_compute; discriminate|reflexivity].
Defined.

Lemma traversal_loops_terminate_witness :
  let t := mkTree 1 (Full (Short 7 [x00] (Leaf [x78])) (Short 7 [x00] (Leaf [x79]))) in
  wf_tree t = true
  /\ len [x40] = keyLength t
  /\ 8 * keyLength t + 3 <= Z.of_nat 11
  /\ (exists r, put_loop 11 [x40] [x7a] [] (root t) 0 = Done r)
  /\ (exists r, get_loop 11 [x40] (root t) 0 = Done r)
  /\ (exists r, prove_loop example_hash [x00] [x01] [x02] 11 [x40] (root t) 0 [] []
                = Done r)
  /\ (exists r, del_loop 11 [x40] [] (root t) 0 = Done r).
Proof.
  cbv zeta.
  split; [reflexivity|]. split; [reflexivity|]. split; [vm_compute; discriminate|].
  apply (traversal_loops_terminate example_hash [x00] [x01] [x02] 11
           (mkTree 1 (Full (Short 7 [x00] (Leaf [x78])) (Short 7 [x00] (Leaf [x79]))))
           [x40] [x7a]);
    [reflexivity|reflexivity|vm_compute; discriminate].
Defined.

(** * The scenarios of the specification, with keys of one byte *)

(** S1: the empty trie. *)
Example scenario_empty :
  Hash example_hash [x00] [x01] [x02] (mkTree 1 Nil) = Done []
  /\ Get 11 (mkTree 1 Nil) [x00] = Done ([], false)
  /\ Del 11 (mkTree 1 Nil) [x00] = Done (mkTree 1 Nil, false).
Proof. repeat split. Qed.

(** S2: one insertion, and its deletion. *)
Example scenario_single :
  Put 11 (mkTree 1 Nil) [xff] [x61]
  = Done (mkTree 1 (Short 8 [xff] (Leaf [x61])), (false, None))
  /\ Del 11 (mkTree 1 (Short 8 [xff] (Leaf [x61]))) [xff] = Done (mkTree 1 Nil, true).
Proof. split; reflexivity. Qed.

(** S3: two insertions that split the root at its first bit. *)
Example scenario_split :
  puts 11 (mkTree 1 Nil) [([x00], [x78]); ([x80], [x79])]
  = Done (mkTree 1 (Full (Short 7 [x00] (Leaf [x78])) (Short 7 [x00] (Leaf [x79]))))
  /\ puts 11 (mkTree 1 Nil) [([x80], [x79]); ([x00], [x78])]
     = Done (mkTree 1 (Full (Short 7 [x00] (Leaf [x78])) (Short 7 [x00] (Leaf [x79])))).
Proof. split; reflexivity. Qed.

(** S4: a deletion that turns the inner full node into a short node and
    merges it with the short node below. *)
Example scenario_merge :
  puts 11 (mkTree 1 Nil) [([x00], [x78]); ([x40], [x79]); ([x80], [x7a])]
  = Done (mkTree 1 (Full (Full (Short 6 [x00] (Leaf [x78])) (Short 6 [x00] (Leaf [x79])))
                         (Short 7 [x00] (Leaf [x7a]))))
  /\ Del 11 (mkTree 1 (Full (Full (Short 6 [x00] (Leaf [x78])) (Short 6 [x00] (Leaf [x79])))
                            (Short 7 [x00] (Leaf [x7a])))) [x40]
     = Done (mkTree 1 (Full (Short 7 [x00] (Leaf [x78])) (Short 7 [x00] (Leaf [x7a]))), true)
  /\ puts 11 (mkTree 1 Nil) [([x00], [x78]); ([x80], [x7a])]
     = Done (mkTree 1 (Full (Short 7 [x00] (Leaf [x78])) (Short 7 [x00] (Leaf [x7a])))).
Proof. repeat split; reflexivity. Qed.

(** A deletion that merges the new short node with the short node above
    it and with the short node below it. *)
Example scenario_two_merges :
  puts 11 (mkTree 1 Nil) [([x00], [x78]); ([x10], [x79])]
  = Done (mkTree 1 (Short 3 [x00] (Full (Short 4 [x00] (Leaf [x78]))
                                        (Short 4 [x00] (Leaf [x79])))))
  /\ Del 11 (mkTree 1 (Short 3 [x00] (Full (Short 4 [x00] (Leaf [x78]))
                                           (Short 4 [x00] (Leaf [x79]))))) [x00]
     = Done (mkTree 1 (Short 8 [x10] (Leaf [x79])), true).
Proof. split; reflexivity. Qed.

(** S5: a second put for a key replaces its value. *)
Example scenario_overwrite :
  Put 11 (mkTree 1 (Short 8 [xaa] (Leaf [x70]))) [xaa] [x71]
  = Done (mkTree 1 (Short 8 [xaa] (Leaf [x71])), (true, None)).
Proof. reflexivity. Qed.

(** S6: the proof for the key [0x00] in the trie of S3, and its
    verification. *)
Example scenario_proof (blake2b_New256 : bytes -> bytes -> bytes)
        (leafNodeTag shortNodeTag fullNodeTag : bytes) :
  let t := mkTree 1 (Full (Short 7 [x00] (Leaf [x78])) (Short 7 [x00] (Leaf [x79]))) in
  let hx := blake2b_New256 leafNodeTag [x78] in
  let hy := blake2b_New256 leafNodeTag [x79] in
  let hr := blake2b_New256 shortNodeTag (serializedPathSegmentLength 7 ++ [x00] ++ hy) in
  let hl := blake2b_New256 shortNodeTag (serializedPathSegmentLength 7 ++ [x00] ++ hx) in
  let p := mkProof [x00] hx [x00; x07] [hr] in
  Prove blake2b_New256 leafNodeTag shortNodeTag fullNodeTag 11 t [x00] = Done (Some p, true)
  /\ Hash blake2b_New256 leafNodeTag shortNodeTag fullNodeTag t
     = Done (blake2b_New256 fullNodeTag (hl ++ hr))
  /\ Verify blake2b_New256 shortNodeTag fullNodeTag p (blake2b_New256 fullNodeTag (hl ++ hr))
     = Done true.
Proof.
  cbv zeta. split; [reflexivity|]. split; [reflexivity|].
  unfold Verify. simpl. rewrite bytes_Equal_refl.
  reflexivity.
Qed.

(** * How the operations compose *)

(** Tries that satisfy the invariants, have one key length and hold the
    same keys and values are the same trie. *)
Lemma wf_tree_eq (t1 t2 : Tree) :
  wf_tree t1 = true -> wf_tree t2 = true -> keyLength t1 = keyLength t2 ->
  (forall key, len key = keyLength t1 -> lookup (root t1) key 0 = lookup (root t2) key 0) ->
  t1 = t2.
Proof.
  intros W1 W2 K H. pose proof (wf_tree_ext t1 t2 W1 W2 K H) as R.
  destruct t1 as [kl1 r1], t2 as [kl2 r2]. simpl in K, R. congruence.
Qed.

Lemma found_inj (o1 o2 : option bytes) : found o1 = found o2 -> o1 = o2.
Proof.
  destruct o1, o2; cbn [found]; intros E; try congruence; discriminate.
Qed.

Lemma Get_lookup (fuel : nat) (t : Tree) (key v : bytes) (b : bool) :
  wf_tree t = true -> 8 * keyLength t + 3 <= Z.of_nat fuel -> len key = keyLength t ->
  Get fuel t key = Done (v, b) -> found (lookup (root t) key 0) = (v, b).
Proof.
  intros W Hf L G. rewrite Get_spec in G by assumption.
  rewrite L, Z.eqb_refl in G. congruence.
Qed.

(** [Get] after a [Put], on any trie that satisfies the invariants: the key
    put has the new value and every other key is as before. *)
Theorem Get_after_Put (fuel : nat) (t : Tree) (key val key' : bytes) :
  wf_tree t = true -> len key = keyLength t -> 8 * keyLength t + 3 <= Z.of_nat fuel ->
  exists t' replaced,
    Put fuel t key val = Done (t', (replaced, None))
    /\ Get fuel t' key' = if bytes_Equal key key' then Done (val, true) else Get fuel t key'.
Proof.
  intros W L Hf.
  destruct (Put_spec fuel t key val W L Hf) as [t' [E [W' [K' [_ L']]]]].
  exists t'. eexists. split; [exact E|].
  rewrite !Get_spec by (auto; rewrite ?K'; auto). rewrite K'.
  destruct (Z.eqb_spec (len key') (keyLength t)) as [Lk|Lk].
  - rewrite L' by assumption. now destruct (bytes_Equal key key').
  - rewrite bytes_Equal_len by congruence. reflexivity.
Qed.

(** The boolean that [Put] returns tells whether [Get] found the key in the
    trie before the [Put]. *)
Theorem Put_replaced_iff_present (fuel : nat) (t : Tree) (key val : bytes) :
  wf_tree t = true -> len key = keyLength t -> 8 * keyLength t + 3 <= Z.of_nat fuel ->
  exists t' old replaced,
    Put fuel t key val = Done (t', (replaced, None))
    /\ Get fuel t key = Done (old, replaced).
Proof.
  intros W L Hf.
  destruct (Put_spec fuel t key val W L Hf) as [t' [E _]].
  rewrite Get_spec by assumption. rewrite L, Z.eqb_refl.
  exists t'. destruct (lookup (root t) key 0) as [v|]; cbn [is_some found] in *; eauto.
Qed.

(** [Put] fails exactly when the key has another length than the trie is
    configured for; it then returns [false] and leaves the trie as it is. *)
Theorem Put_error_behaviour (fuel : nat) (t : Tree) (key val : bytes) :
  wf_tree t = true -> 8 * keyLength t + 3 <= Z.of_nat fuel ->
  exists t' replaced e,
    Put fuel t key val = Done (t', (replaced, e))
    /\ (e = Some ErrorIncompatibleKeyLength <-> len key <> keyLength t)
    /\ (e = None <-> len key = keyLength t)
    /\ (len key <> keyLength t -> t' = t /\ replaced = false).
Proof.
  intros W Hf. destruct (Z.eq_dec (len key) (keyLength t)) as [L|L].
  - destruct (Put_spec fuel t key val W L Hf) as [t' [E _]].
    exists t'. do 2 eexists. split; [exact E|]. split; [|split].
    + split; [discriminate|contradiction].
    + tauto.
    + contradiction.
  - rewrite Put_wrong_length by assumption.
    do 3 eexists. split; [reflexivity|]. split; [|split].
    + tauto.
    + split; [discriminate|contradiction].
    + auto.
Qed.

(** [Get] after a [Del]: the key deleted is not found, every other key is
    as before, and the boolean that [Del] returns tells whether [Get] found
    the key before. *)
Theorem Get_after_Del (fuel : nat) (t : Tree) (key : bytes) :
  wf_tree t = true -> 8 * keyLength t + 3 <= Z.of_nat fuel ->
  exists t' old deleted,
    Del fuel t key = Done (t', deleted)
    /\ Get fuel t key = Done (old, deleted)
    /\ forall key', Get fuel t' key'
                    = if bytes_Equal key key' then Done ([], false) else Get fuel t key'.
Proof.
  intros W Hf.
  destruct (Del_spec fuel t key W Hf) as [t' [E [W' [K' L']]]].
  exists t'. rewrite Get_spec by assumption.
  assert (G : exists old, (if len key =? keyLength t
                           then found (lookup (root t) key 0) else ([], false))
                          = (old, (len key =? keyLength t)
                                  && is_some (lookup (root t) key 0))).
  { destruct (len key =? keyLength t); cbn [andb]; [|eauto].
    destruct (lookup (root t) key 0); cbn [found is_some]; eauto. }
  destruct G as [old G]. exists old. eexists. split; [exact E|]. split; [now rewrite G|].
  intros key'. rewrite !Get_spec by (auto; rewrite ?K'; auto). rewrite K'.
  destruct (Z.eqb_spec (len key') (keyLength t)) as [Lk|Lk].
  - rewrite L' by assumption. now destruct (bytes_Equal key key').
  - now destruct (bytes_Equal key key').
Qed.

(** [Del] with a key that [Get] does not find returns [false] and leaves
    the trie as it is. *)
Theorem Del_missing_unchanged (fuel : nat) (t : Tree) (key v : bytes) :
  wf_tree t = true -> 8 * keyLength t + 3 <= Z.of_nat fuel ->
  Get fuel t key = Done (v, false) ->
  Del fuel t key = Done (t, false).
Proof.
  intros W Hf G.
  destruct (Del_spec fuel t key W Hf) as [t' [E [W' [K' L']]]].
  rewrite Get_spec in G by assumption.
  assert (B : (len key =? keyLength t) && is_some (lookup (root t) key 0) = false).
  { destruct (len key =? keyLength t); cbn [andb]; [|reflexivity].
    destruct (lookup (root t) key 0); cbn [found is_some] in *; congruence. }
  rewrite B in E. rewrite E. do 2 f_equal. symmetry.
  apply wf_tree_eq; auto.
  intros key' Lk. rewrite L' by assumption.
  destruct (bytes_Equal key key') eqn:Q; [|reflexivity].
  apply bytes_Equal_iff in Q. subst key'. rewrite Lk, Z.eqb_refl in B. cbn [andb] in B.
  now destruct (lookup (root t) key 0).
Qed.

(** A [Put] of a key that is not in the trie followed by the [Del] of this
    key gives back the trie, node for node. *)
Theorem Del_after_Put_restores (fuel : nat) (t : Tree) (key val v : bytes) :
  wf_tree t = true -> len key = keyLength t -> 8 * keyLength t + 3 <= Z.of_nat fuel ->
  Get fuel t key = Done (v, false) ->
  exists t1, Put fuel t key val = Done (t1, (false, None))
             /\ Del fuel t1 key = Done (t, true).
Proof.
  intros W L Hf G. apply Get_lookup in G; auto.
  destruct (lookup (root t) key 0) as [x|] eqn:F; [discriminate|].
  destruct (Put_spec fuel t key val W L Hf) as [t1 [E1 [W1 [K1 [_ L1]]]]].
  rewrite F in E1. cbn [is_some] in E1.
  destruct (Del_spec fuel t1 key W1) as [t2 [E2 [W2 [K2 L2]]]]; [rewrite K1; assumption|].
  rewrite K1, L, Z.eqb_refl in E2. rewrite L1, bytes_Equal_refl in E2 by assumption.
  cbn [is_some andb] in E2.
  exists t1. split; [assumption|]. rewrite E2. do 2 f_equal.
  apply wf_tree_eq; auto; [congruence|].
  intros key' Lk. rewrite L2, L1 by congruence.
  destruct (bytes_Equal key key') eqn:Q; [|reflexivity].
  apply bytes_Equal_iff in Q. subst key'. now rewrite F.
Qed.

(** The [Del] of a key followed by a [Put] of the value it had gives back
    the trie, node for node. *)
Theorem Put_after_Del_restores (fuel : nat) (t : Tree) (key v : bytes) :
  wf_tree t = true -> 8 * keyLength t + 3 <= Z.of_nat fuel ->
  Get fuel t key = Done (v, true) ->
  exists t1, Del fuel t key = Done (t1, true)
             /\ Put fuel t1 key v = Done (t, (false, None)).
Proof.
  intros W Hf G.
  assert (L : len key = keyLength t).
  { rewrite Get_spec in G by assumption.
    destruct (Z.eqb_spec (len key) (keyLength t)); [assumption|discriminate]. }
  apply Get_lookup in G; auto.
  destruct (lookup (root t) key 0) as [x|] eqn:F; [|discriminate].
  cbn [found] in G. injection G as ->.
  destruct (Del_spec fuel t key W Hf) as [t1 [E1 [W1 [K1 L1]]]].
  rewrite L, Z.eqb_refl, F in E1. cbn [is_some andb] in E1.
  destruct (Put_spec fuel t1 key v W1) as [t2 [E2 [W2 [K2 [_ L2]]]]];
    try (rewrite K1; assumption).
  rewrite L1, bytes_Equal_refl in E2 by assumption. cbn [is_some] in E2.
  exists t1. split; [assumption|]. rewrite E2. do 2 f_equal.
  apply wf_tree_eq; auto; [congruence|].
  intros key' Lk. rewrite L2, L1 by congruence.
  destruct (bytes_Equal key key') eqn:Q; [|reflexivity].
  apply bytes_Equal_iff in Q. subst key'. now rewrite F.
Qed.

(** Two puts for one key leave the trie that the second put alone gives. *)
Theorem Put_last_wins (fuel : nat) (t : Tree) (key v1 v2 : bytes) :
  wf_tree t = true -> len key = keyLength t -> 8 * keyLength t + 3 <= Z.of_nat fuel ->
  exists t1 t2 b1 b2,
    Put fuel t key v1 = Done (t1, (b1, None))
    /\ Put fuel t1 key v2 = Done (t2, (true, None))
    /\ Put fuel t key v2 = Done (t2, (b2, None)).
Proof.
  intros W L Hf.
  destruct (Put_spec fuel t key v1 W L Hf) as [t1 [E1 [W1 [K1 [_ L1]]]]].
  destruct (Put_spec fuel t1 key v2 W1) as [t2 [E2 [W2 [K2 [_ L2]]]]];
    try (rewrite K1; assumption).
  destruct (Put_spec fuel t key v2 W L Hf) as [t3 [E3 [W3 [K3 [_ L3]]]]].
  rewrite L1, bytes_Equal_refl in E2 by assumption. cbn [is_some] in E2.
  assert (Q : t3 = t2).
  { apply wf_tree_eq; auto; [congruence|].
    intros key' Lk. rewrite L3, L2, L1 by congruence.
    now destruct (bytes_Equal key key'). }
  subst t3. exists t1, t2. do 2 eexists. eauto.
Qed.

(** Puts of two different keys give the same trie in either order. *)
Theorem Put_commutes (fuel : nat) (t : Tree) (k1 v1 k2 v2 : bytes) :
  wf_tree t = true -> len k1 = keyLength t -> len k2 = keyLength t -> k1 <> k2 ->
  8 * keyLength t + 3 <= Z.of_nat fuel ->
  exists ta tb t' a1 a2 b1 b2,
    Put fuel t k1 v1 = Done (ta, (a1, None)) /\ Put fuel ta k2 v2 = Done (t', (a2, None))
    /\ Put fuel t k2 v2 = Done (tb, (b1, None)) /\ Put fuel tb k1 v1 = Done (t', (b2, None)).
Proof.
  intros W L1 L2 N Hf.
  destruct (Put_spec fuel t k1 v1 W L1 Hf) as [ta [Ea [Wa [Ka [_ La]]]]].
  destruct (Put_spec fuel ta k2 v2 Wa) as [t1 [E1 [W1 [K1 [_ M1]]]]];
    try (rewrite Ka; assumption).
  destruct (Put_spec fuel t k2 v2 W L2 Hf) as [tb [Eb [Wb [Kb [_ Lb]]]]].
  destruct (Put_spec fuel tb k1 v1 Wb) as [t2 [E2 [W2 [K2 [_ M2]]]]];
    try (rewrite Kb; assumption).
  assert (Q : t2 = t1).
  { apply wf_tree_eq; auto; [congruence|].
    intros key' Lk. rewrite M2, M1, La, Lb by congruence.
    destruct (bytes_Equal k1 key') eqn:Q1; destruct (bytes_Equal k2 key') eqn:Q2;
      try reflexivity.
    apply bytes_Equal_iff in Q1, Q2. congruence. }
  subst t2. exists ta, tb, t1. do 4 eexists. eauto.
Qed.

(** Two deletions give the same trie in either order. *)
Theorem Del_commutes (fuel : nat) (t : Tree) (k1 k2 : bytes) :
  wf_tree t = true -> 8 * keyLength t + 3 <= Z.of_nat fuel ->
  exists ta tb t' a1 a2 b1 b2,
    Del fuel t k1 = Done (ta, a1) /\ Del fuel ta k2 = Done (t', a2)
    /\ Del fuel t k2 = Done (tb, b1) /\ Del fuel tb k1 = Done (t', b2).
Proof.
  intros W Hf.
  destruct (Del_spec fuel t k1 W Hf) as [ta [Ea [Wa [Ka La]]]].
  destruct (Del_spec fuel ta k2 Wa) as [t1 [E1 [W1 [K1 M1]]]]; [rewrite Ka; assumption|].
  destruct (Del_spec fuel t k2 W Hf) as [tb [Eb [Wb [Kb Lb]]]].
  destruct (Del_spec fuel tb k1 Wb) as [t2 [E2 [W2 [K2 M2]]]]; [rewrite Kb; assumption|].
  assert (Q : t2 = t1).
  { apply wf_tree_eq; auto; [congruence|].
    intros key' Lk. rewrite M2, M1, La, Lb by congruence.
    destruct (bytes_Equal k1 key'); destruct (bytes_Equal k2 key'); reflexivity. }
  subst t2. exists ta, tb, t1. do 4 eexists. eauto.
Qed.

(** [merge] gives one short node for the two: its count is the sum of the
    counts, its path is the path of the parent followed by the path of the
    child, in canonical form, and it holds the keys that the parent above
    the child held. *)
Theorem merge_concatenates (pcount : Z) (ppath : bytes) (ccount : Z) (cpath : bytes)
        (cchild : node) :
  0 <= pcount -> 0 <= ccount -> pcount <= 8 * len ppath -> ccount <= 8 * len cpath ->
  exists v,
    merge pcount ppath ccount cpath cchild = Done (Short (pcount + ccount) v cchild)
    /\ canon (pcount + ccount) v = true
    /\ (forall i, 0 <= i < pcount + ccount ->
                  bit v i = if i <? pcount then bit ppath i else bit cpath (i - pcount))
    /\ forall key index,
         lookup (Short (pcount + ccount) v cchild) key index
         = lookup (Short pcount ppath (Short ccount cpath cchild)) key index.
Proof.
  intros Hp Hc Lp Lc.
  destruct (merge_spec pcount ppath ccount cpath cchild Hp Hc Lp Lc) as [v [E [C B]]].
  exists v. split; [assumption|]. split; [assumption|]. split; [assumption|].
  intros key index. cbn [lookup].
  rewrite (agree_merge key ppath cpath v index pcount ccount Hp Hc B).
  replace (index + (pcount + ccount)) with (index + pcount + ccount) by lia.
  destruct (agree key ppath index pcount); reflexivity.
Qed.

(** * The first key, and the empty trie *)

Lemma put_first_key (kl : Z) (t0 : Tree) (fuel : nat) (key val : bytes) :
  NewTree kl = inl t0 -> len key = kl -> (2 <= fuel)%nat ->
  Put fuel t0 key val = Done (mkTree kl (Short (8 * kl) key (Leaf val)), (false, None)).
Proof.
  intros N L Hf. apply NewTree_spec in N. destruct N as [-> [K _]].
  unfold Put, unsafePut. cbn [keyLength root]. rewrite L, Z.eqb_refl. cbn [negb].
  destruct fuel as [|[|fuel]]; try lia. cbn [put_loop].
  destruct (Z.eqb_spec 0 (len key * 8)) as [E|_]; [lia|].
  destruct (copy_bits_spec key 0 (len key * 8 - 0)) as [v [Ev [Cv Bv]]]; try lia.
  rewrite Ev. cbn [bind].
  replace (0 + (len key * 8 - 0)) with (len key * 8) by lia. rewrite Z.eqb_refl.
  cbn [bind plug plug1 fst snd copy_of app].
  assert (Q : v = key).
  { apply canon_iff in Cv. destruct Cv as [Lv Zv].
    assert (Lk : len v = len key).
    { rewrite Lv. replace (len key * 8 - 0 + 7) with (7 + len key * 8) by lia.
      rewrite Z.div_add by lia. change (7 / 8) with 0. lia. }
    apply bit_ext; [assumption|].
    intros i Hi. rewrite Bv by lia. f_equal. lia. }
  rewrite Q. replace (len key * 8 - 0) with (8 * kl) by lia. reflexivity.
Qed.

(** The first [Put] into an empty trie makes the root one short node for all
    the bits of the key, with the key as its path and the leaf below it. *)
Theorem Put_into_empty (kl : Z) (t0 : Tree) (fuel : nat) (key val : bytes) :
  NewTree kl = inl t0 -> len key = kl -> (2 <= fuel)%nat ->
  Put fuel t0 key val = Done (mkTree kl (Short (8 * kl) key (Leaf val)), (false, None)).
Proof. exact (put_first_key kl t0 fuel key val). Qed.

(** A trie that satisfies the invariants has a nil root exactly when [Get]
    finds no key in it. *)
Theorem empty_iff_nothing_found (fuel : nat) (t : Tree) :
  wf_tree t = true -> 8 * keyLength t + 3 <= Z.of_nat fuel ->
  (root t = Nil <-> forall key, Get fuel t key = Done ([], false)).
Proof.
  intros W Hf. split.
  - intros R key. unfold Get. rewrite R. reflexivity.
  - intros H. apply wf_tree_empty; [assumption|].
    intros key L. specialize (H key). apply Get_lookup in H; auto.
    now destruct (lookup (root t) key 0).
Qed.

(** * Invariants of every trie that the operations reach *)

Lemma wf_max_count (n : node) : forall d, wf d n = true -> 0 <= d /\ max_count n <= d.
Proof.
  induction n as [|v|count path child IH|l IHl r IHr]; intros d W; cbn [wf max_count] in *.
  - discriminate.
  - split_andb. lia.
  - split_andb. destruct (IH _ H0). lia.
  - split_andb. destruct (IHl _ H1). destruct (IHr _ H0). lia.
Qed.

Section Reachable.

Variable blake2b_New256 : bytes -> bytes -> bytes.
Variables leafNodeTag shortNodeTag fullNodeTag : bytes.

Local Abbreviation Hash' := (Hash blake2b_New256 leafNodeTag shortNodeTag fullNodeTag).
Local Abbreviation Prove' := (Prove blake2b_New256 leafNodeTag shortNodeTag fullNodeTag).
Local Abbreviation prove_loop' :=
  (prove_loop blake2b_New256 leafNodeTag shortNodeTag fullNodeTag).
Local Abbreviation verify_loop' := (verify_loop blake2b_New256 shortNodeTag fullNodeTag).
Local Abbreviation Verify' := (Verify blake2b_New256 shortNodeTag fullNodeTag).
Local Abbreviation run_ops' := (run_ops blake2b_New256 leafNodeTag shortNodeTag fullNodeTag).

(** After any sequence of operations on a fresh trie, the trie satisfies
    all the structural invariants (every path to a leaf consumes exactly
    [8 * keyLength] bits, the paths of the short nodes are canonical), it
    has the key length it was created with, and no short node has a count
    above [8 * keyLength], which is at most 65536. *)
Theorem reachable_invariants (kl : Z) (t0 t : Tree) (fuel : nat) (ops : list op) :
  NewTree kl = inl t0 -> 8 * kl + 3 <= Z.of_nat fuel ->
  run_ops' fuel t0 ops = Done t ->
  wf_tree t = true /\ keyLength t = kl
  /\ max_count (root t) <= 8 * kl /\ 8 * kl <= 65536.
Proof.
  intros N Hf R. apply NewTree_spec in N. destruct N as [E0 [K0 W0]].
  assert (Kt : keyLength t0 = kl) by (subst t0; reflexivity).
  destruct (run_ops_wf blake2b_New256 leafNodeTag shortNodeTag fullNodeTag
              fuel ops t0 t) as [W K]; auto; [now rewrite Kt|].
  split; [assumption|]. split; [congruence|]. unfold maxKeyLength in K0. split; [|lia].
  apply wf_tree_iff in W. destruct W as [_ [E|W]].
  - rewrite E. cbn [max_count]. lia.
  - apply wf_max_count in W. rewrite K, Kt in W. lia.
Qed.

(** Two tries that any two sequences of operations (puts and deletions in
    any order) reach from fresh tries of one key length, and in which [Get]
    returns the same for every key, are the same tree, node for node, and
    have the same hash. *)
Theorem history_independence (kl : Z) (t0 t1 t2 : Tree) (fuel : nat) (ops1 ops2 : list op) :
  NewTree kl = inl t0 -> 8 * kl + 3 <= Z.of_nat fuel ->
  run_ops' fuel t0 ops1 = Done t1 -> run_ops' fuel t0 ops2 = Done t2 ->
  (forall key, Get fuel t1 key = Get fuel t2 key) ->
  t1 = t2 /\ exists h, Hash' t1 = Done h /\ Hash' t2 = Done h.
Proof.
  intros N Hf R1 R2 G.
  apply NewTree_spec in N. destruct N as [E0 [K0 W0]].
  assert (Kt : keyLength t0 = kl) by (subst t0; reflexivity).
  destruct (run_ops_wf blake2b_New256 leafNodeTag shortNodeTag fullNodeTag
              fuel ops1 t0 t1) as [W1 K1]; auto; [now rewrite Kt|].
  destruct (run_ops_wf blake2b_New256 leafNodeTag shortNodeTag fullNodeTag
              fuel ops2 t0 t2) as [W2 K2]; auto; [now rewrite Kt|].
  rewrite Kt in K1, K2.
  assert (Q : t1 = t2).
  { apply wf_tree_eq; auto; [congruence|].
    intros key L. specialize (G key).
    rewrite !Get_spec in G by (auto; rewrite ?K1, ?K2; auto).
    rewrite K1, <- K2 in G at 1. rewrite K2 in G.
    assert (L' : (len key =? kl) = true) by (apply Z.eqb_eq; congruence).
    rewrite L' in G. apply found_inj. congruence. }
  split; [assumption|]. subst t2.
  destruct (Hash_total blake2b_New256 leafNodeTag shortNodeTag fullNodeTag t1 W1)
    as [h [Eh _]].
  eauto.
Qed.

(** * Proofs *)

Lemma prove_loop_fields (key : bytes) (n : node) :
  forall (d index : Z) (fuel : nat) (sc : list byte) (hv : list bytes),
    wf d n = true -> 0 <= index -> 8 * len key = index + d -> (height n < fuel)%nat ->
    exists r, prove_loop' fuel key n index sc hv = Done r
              /\ match lookup n key index with
                 | None => r = (None, false)
                 | Some v => exists p, r = (Some p, true) /\ Key p = key
                                       /\ HashValue p = blake2b_New256 leafNodeTag v
                 end.
Proof.
  induction n as [|v|count path child IH|l IHl r IHr];
    intros d index fuel sc hv W Hi Hk Hf;
    (destruct fuel as [|fuel]; [cbn [height] in Hf; lia|]);
    cbn [wf height] in W, Hf; cbn [prove_loop lookup].
  - discriminate.
  - cbn [node_Hash bind]. eexists. split; [reflexivity|]. eexists. repeat split.
  - split_andb. canon_lens. rewrite match_loop_spec by lia. cbn [bind].
    destruct (agree key path index count); [|eexists; split; reflexivity].
    apply (IH (d - count)); auto; lia.
  - split_andb. rewrite ReadBit_in by lia. cbn [bind].
    destruct (node_Hash_wf blake2b_New256 leafNodeTag shortNodeTag fullNodeTag _ _ H1)
      as [hl El].
    destruct (node_Hash_wf blake2b_New256 leafNodeTag shortNodeTag fullNodeTag _ _ H0)
      as [hr Er].
    destruct (bit key index =? 0).
    + rewrite Er. cbn [bind]. apply (IHl (d - 1)); auto; lia.
    + rewrite El. cbn [bind]. apply (IHr (d - 1)); auto; lia.
Qed.

(** For a key of the configured length, [Prove] finds the key exactly when
    [Get] does; the proof it then returns carries the key and the hash of
    the leaf with the value that [Get] returns. *)
Theorem Prove_agrees_with_Get (fuel : nat) (t : Tree) (key : bytes) :
  wf_tree t = true -> len key = keyLength t -> 8 * keyLength t + 3 <= Z.of_nat fuel ->
  exists v b o,
    Get fuel t key = Done (v, b) /\ Prove' fuel t key = Done (o, b)
    /\ (b = false -> o = None)
    /\ (b = true -> exists p, o = Some p /\ Key p = key
                              /\ HashValue p = blake2b_New256 leafNodeTag v).
Proof.
  intros W L Hf. pose proof (wf_tree_height t W) as Hh.
  rewrite Get_spec by assumption. rewrite L, Z.eqb_refl.
  apply wf_tree_iff in W. destruct W as [K W]. unfold Prove.
  rewrite MakeBitVector_spec by lia. cbn [bind].
  destruct (set_bits_total (repeat x00 (Z.to_nat ((keyLength t + 7) / 8))) key 0
              (keyLength t)) as [pp Epp]; try lia.
  { rewrite len_repeat. assert (0 <= (keyLength t + 7) / 8) by (apply Z.div_pos; lia).
    pose proof (Z.div_mod (keyLength t + 7) 8 ltac:(lia)).
    pose proof (Z.mod_pos_bound (keyLength t + 7) 8 ltac:(lia)). lia. }
  rewrite Epp. cbn [bind].
  assert (P : exists r, prove_loop' fuel key (root t) 0 [] [] = Done r
              /\ match lookup (root t) key 0 with
                 | None => r = (None, false)
                 | Some v => exists p, r = (Some p, true) /\ Key p = key
                                       /\ HashValue p = blake2b_New256 leafNodeTag v
                 end).
  { destruct W as [E|W].
    - rewrite E. destruct fuel; [lia|]. cbn [prove_loop lookup]. eauto.
    - apply (prove_loop_fields key (root t) (8 * keyLength t)); auto; lia. }
  destruct P as [r [Er Pr]]. rewrite Er.
  destruct (lookup (root t) key 0) as [v|]; cbn [found].
  - destruct Pr as [p [-> [Kp Hp]]]. exists v, true, (Some p).
    repeat split; try discriminate. eauto.
  - subst r. exists [], false, None. repeat split; discriminate.
Qed.

(** For a key length that is a multiple of 32 bytes, the proof that [Prove]
    returns for the key of a trie with this one key makes [Verify] panic,
    whatever root hash it is given: the count of the root, [8 * keyLength],
    is a multiple of 256 and is recorded as 0. *)
Theorem Verify_panics_on_multiples_of_32_bytes (kl m : Z) (t0 : Tree) (fuel : nat)
        (key val expectedRootHash : bytes) :
  NewTree kl = inl t0 -> kl = 32 * m -> len key = kl -> (2 <= fuel)%nat ->
  exists t p,
    Put fuel t0 key val = Done (t, (false, None))
    /\ Prove' fuel t key = Done (Some p, true)
    /\ Verify' p expectedRootHash = Panic.
Proof.
  intros N M L Hf. rewrite (put_first_key kl t0 fuel key val N L Hf).
  apply NewTree_spec in N. destruct N as [_ [K _]].
  eexists. eexists. split; [reflexivity|].
  unfold Prove. cbn [keyLength root].
  rewrite MakeBitVector_spec by lia. cbn [bind].
  destruct (set_bits_total (repeat x00 (Z.to_nat ((kl + 7) / 8))) key 0 kl)
    as [pp Epp]; try lia.
  { rewrite len_repeat. assert (0 <= (kl + 7) / 8) by (apply Z.div_pos; lia).
    pose proof (Z.div_mod (kl + 7) 8 ltac:(lia)).
    pose proof (Z.mod_pos_bound (kl + 7) 8 ltac:(lia)). lia. }
  rewrite Epp. cbn [bind].
  destruct fuel as [|[|fuel]]; try lia. cbn [prove_loop].
  rewrite match_loop_spec by lia.
  replace (agree key key 0 (8 * kl)) with true
    by (symmetry; apply agree_iff; intros i Hi; f_equal; lia).
  cbn [bind node_Hash].
  assert (U : uint8_of (8 * kl) = x00).
  { unfold uint8_of. replace (8 * kl) with (m * 256) by lia.
    rewrite Z.mod_mul by lia. reflexivity. }
  rewrite U. cbn [app]. split; [reflexivity|]. reflexivity.
Qed.

(** * When [Verify] returns *)

Lemma byte_val_nonneg (x : byte) : 0 <= byte_val x.
Proof. unfold byte_val. lia. Qed.

Lemma fold_sum (l : list byte) (a : Z) :
  fold_left (fun acc sc => acc + byte_val sc) l a = a + counts_sum l.
Proof.
  unfold counts_sum. revert a. induction l as [|x l IH]; intros a; cbn [fold_left].
  - lia.
  - rewrite IH, (IH (0 + byte_val x)). lia.
Qed.

Lemma counts_sum_cons (x : byte) (l : list byte) :
  counts_sum (x :: l) = byte_val x + counts_sum l.
Proof. unfold counts_sum at 1. cbn [fold_left]. rewrite fold_sum. lia. Qed.

Lemma counts_sum_nonneg (l : list byte) : 0 <= counts_sum l.
Proof.
  induction l as [|x l IH]; [unfold counts_sum; cbn; lia|].
  rewrite counts_sum_cons. pose proof (byte_val_nonneg x). lia.
Qed.

Lemma counts_sum_rev (l : list byte) : counts_sum (rev l) = counts_sum l.
Proof.
  induction l as [|x l IH]; [reflexivity|]. cbn [rev].
  unfold counts_sum at 1. rewrite fold_left_app. cbn [fold_left].
  rewrite fold_sum, IH, counts_sum_cons. lia.
Qed.

Lemma full_entries_cons (x : byte) (l : list byte) :
  full_entries (x :: l) = (if byte_val x =? 0 then 1 else 0) + full_entries l.
Proof.
  unfold full_entries, len. cbn [filter]. destruct (byte_val x =? 0); cbn [length]; lia.
Qed.

Lemma full_entries_nonneg (l : list byte) : 0 <= full_entries l.
Proof. unfold full_entries, len. lia. Qed.

Lemma full_entries_rev (l : list byte) : full_entries (rev l) = full_entries l.
Proof.
  induction l as [|x l IH]; [reflexivity|]. cbn [rev].
  rewrite full_entries_cons, <- IH. unfold full_entries, len.
  rewrite filter_app, length_app. cbn [filter].
  destruct (byte_val x =? 0); cbn [length]; lia.
Qed.

(** The loop of [Verify] returns when it has an interim hash for every
    entry 0 that it visits and the bits it reads are bits of the key; it
    moves [pathIndex] down by one per entry 0 and by the count per other
    entry. *)
Lemma verify_loop_returns (p : Proof) (scs : list byte) :
  forall (currentHash : bytes) (hashIndex pathIndex : Z),
    full_entries scs <= hashIndex + 1 -> hashIndex + 1 <= len (InterimHashes p) ->
    full_entries scs + counts_sum scs <= pathIndex -> pathIndex <= 8 * len (Key p) ->
    exists c, verify_loop' p scs currentHash hashIndex pathIndex
              = Done (c, pathIndex - full_entries scs - counts_sum scs).
Proof.
  induction scs as [|x scs IH]; intros cur hi pi H1 H2 H3 H4; cbn [verify_loop].
  - exists cur. unfold full_entries, counts_sum, len. cbn. f_equal. f_equal. lia.
  - rewrite full_entries_cons, counts_sum_cons in *.
    pose proof (full_entries_nonneg scs). pose proof (counts_sum_nonneg scs).
    pose proof (byte_val_nonneg x).
    destruct (Z.eqb_spec (byte_val x) 0) as [E|E].
    + destruct (index_at_in (InterimHashes p) hi) as [a [Ea _]]; [lia|].
      rewrite Ea. cbn [bind]. rewrite ReadBit_in by lia. cbn [bind].
      destruct (IH (if bit (Key p) (pi - 1) =? 1
                    then blake2b_New256 fullNodeTag (a ++ cur)
                    else blake2b_New256 fullNodeTag (cur ++ a)) (hi - 1) (pi - 1))
        as [c Ec]; try lia.
      exists c. rewrite Ec. f_equal. f_equal. lia.
    + rewrite MakeBitVector_spec by lia. cbn [bind].
      destruct (set_bits_total (repeat x00 (Z.to_nat ((byte_val x + 7) / 8))) (Key p)
                  (pi - byte_val x) (byte_val x)) as [cp Ecp]; try lia.
      { rewrite len_repeat.
        assert (0 <= (byte_val x + 7) / 8) by (apply Z.div_pos; lia).
        pose proof (Z.div_mod (byte_val x + 7) 8 ltac:(lia)).
        pose proof (Z.mod_pos_bound (byte_val x + 7) 8 ltac:(lia)). lia. }
      rewrite Ecp. cbn [bind].
      destruct (IH (blake2b_New256 shortNodeTag
                      (serializedPathSegmentLength (byte_val x) ++ cp ++ cur))
                  hi (pi - byte_val x)) as [c Ec]; try lia.
      exists c. rewrite Ec. f_equal. f_equal. lia.
Qed.

(** [Verify] returns a boolean, and does not panic, for every proof that
    has at least as many interim hashes as entries 0 in [ShortCounts], and a
    key with at least as many bits as the interim hashes and the counts add
    up to.  It returns [false] when there are more interim hashes than
    entries 0. *)
Theorem Verify_returns (p : Proof) (expectedRootHash : bytes) :
  full_entries (ShortCounts p) <= len (InterimHashes p) ->
  len (InterimHashes p) + counts_sum (ShortCounts p) <= 8 * len (Key p) ->
  exists b, Verify' p expectedRootHash = Done b
            /\ (b = true -> full_entries (ShortCounts p) = len (InterimHashes p)).
Proof.
  intros H1 H2. unfold Verify. rewrite fold_sum.
  destruct (verify_loop_returns p (rev (ShortCounts p)) (HashValue p)
              (len (InterimHashes p) - 1)
              (len (InterimHashes p) + counts_sum (ShortCounts p))) as [c Ec];
    rewrite ?full_entries_rev, ?counts_sum_rev; try lia.
  rewrite Ec. cbn [bind]. rewrite full_entries_rev, counts_sum_rev.
  destruct (Z.eqb_spec (len (InterimHashes p) + counts_sum (ShortCounts p)
                        - full_entries (ShortCounts p) - counts_sum (ShortCounts p)) 0)
    as [E|E]; cbn [negb orb].
  - destruct (bytes_Equal c expectedRootHash); cbn [negb]; eexists; split;
      try reflexivity; intros; try discriminate; lia.
  - eexists. split; [reflexivity|]. discriminate.
Qed.

End Reachable.

(** * The compositions on concrete tries *)

Lemma Get_after_Put_witness :
  let t := mkTree 1 (Full (Short 7 [x00] (Leaf [x78])) (Short 7 [x00] (Leaf [x79]))) in
  wf_tree t = true /\ len [x40] = keyLength t /\ 8 * keyLength t + 3 <= Z.of_nat 11
  /\ exists t' replaced,
       Put 11 t [x40] [x7a] = Done (t', (replaced, None))
       /\ Get 11 t' [x80]
          = if bytes_Equal [x40] [x80] then Done ([x7a], true) else Get 11 t [x80].
Proof.
  cbv zeta. split; [reflexivity|]. split; [reflexivity|].
  split; [vm_compute; discriminate|].
  apply (Get_after_Put 11
           (mkTree 1 (Full (Short 7 [x00] (Leaf [x78])) (Short 7 [x00] (Leaf [x79]))))
           [x40] [x7a] [x80]); [reflexivity|reflexivity|vm_compute; discriminate].
Defined.

Lemma Put_replaced_iff_present_witness :
  let t := mkTree 1 (Full (Short 7 [x00] (Leaf [x78])) (Short 7 [x00] (Leaf [x79]))) in
  wf_tree t = true /\ len [x80] = keyLength t /\ 8 * keyLength t + 3 <= Z.of_nat 11
  /\ exists t' old replaced,
       Put 11 t [x80] [x7a] = Done (t', (replaced, None))
       /\ Get 11 t [x80] = Done (old, replaced).
Proof.
  cbv zeta. split; [reflexivity|]. split; [reflexivity|].
  split; [vm_compute; discriminate|].
  apply (Put_replaced_iff_present 11
           (mkTree 1 (Full (Short 7 [x00] (Leaf [x78])) (Short 7 [x00] (Leaf [x79]))))
           [x80] [x7a]); [reflexivity|reflexivity|vm_compute; discriminate].
Defined.

Lemma Put_error_behaviour_witness :
  let t := mkTree 1 (Full (Short 7 [x00] (Leaf [x78])) (Short 7 [x00] (Leaf [x79]))) in
  wf_tree t = true /\ 8 * keyLength t + 3 <= Z.of_nat 11
  /\ exists t' replaced e,
       Put 11 t [x00; x01] [x7a] = Done (t', (replaced, e))
       /\ (e = Some ErrorIncompatibleKeyLength <-> len [x00; x01] <> keyLength t)
       /\ (e = None <-> len [x00; x01] = keyLength t)
       /\ (len [x00; x01] <> keyLength t -> t' = t /\ replaced = false).
Proof.
  cbv zeta. split; [reflexivity|]. split; [vm_compute; discriminate|].
  apply (Put_error_behaviour 11
           (mkTree 1 (Full (Short 7 [x00] (Leaf [x78])) (Short 7 [x00] (Leaf [x79]))))
           [x00; x01] [x7a]); [reflexivity|vm_compute; discriminate].
Defined.

Lemma Get_after_Del_witness :
  let t := mkTree 1 (Full (Short 7 [x00] (Leaf [x78])) (Short 7 [x00] (Leaf [x79]))) in
  wf_tree t = true /\ 8 * keyLength t + 3 <= Z.of_nat 11
  /\ exists t' old deleted,
       Del 11 t [x80] = Done (t', deleted)
       /\ Get 11 t [x80] = Done (old, deleted)
       /\ forall key', Get 11 t' key'
                       = if bytes_Equal [x80] key' then Done ([], false) else Get 11 t key'.
Proof.
  cbv zeta. split; [reflexivity|]. split; [vm_compute; discriminate|].
  apply (Get_after_Del 11
           (mkTree 1 (Full (Short 7 [x00] (Leaf [x78])) (Short 7 [x00] (Leaf [x79]))))
           [x80]); [reflexivity|vm_compute; discriminate].
Defined.

Lemma Del_missing_unchanged_witness :
  let t := mkTree 1 (Full (Short 7 [x00] (Leaf [x78])) (Short 7 [x00] (Leaf [x79]))) in
  wf_tree t = true /\ 8 * keyLength t + 3 <= Z.of_nat 11
  /\ Get 11 t [x40] = Done ([], false)
  /\ Del 11 t [x40] = Done (t, false).
Proof.
  cbv zeta. split; [reflexivity|]. split; [vm_compute; discriminate|].
  split; [reflexivity|].
  apply (Del_missing_unchanged 11
           (mkTree 1 (Full (Short 7 [x00] (Leaf [x78])) (Short 7 [x00] (Leaf [x79]))))
           [x40] []); [reflexivity|vm_compute; discriminate|reflexivity].
Defined.

Lemma Del_after_Put_restores_witness :
  let t := mkTree 1 (Full (Short 7 [x00] (Leaf [x78])) (Short 7 [x00] (Leaf [x79]))) in
  wf_tree t = true /\ len [x40] = keyLength t /\ 8 * keyLength t + 3 <= Z.of_nat 11
  /\ Get 11 t [x40] = Done ([], false)
  /\ exists t1, Put 11 t [x40] [x7a] = Done (t1, (false, None))
                /\ Del 11 t1 [x40] = Done (t, true).
Proof.
  cbv zeta. split; [reflexivity|]. split; [reflexivity|].
  split; [vm_compute; discriminate|]. split; [reflexivity|].
  apply (Del_after_Put_restores 11
           (mkTree 1 (Full (Short 7 [x00] (Leaf [x78])) (Short 7 [x00] (Leaf [x79]))))
           [x40] [x7a] []);
    [reflexivity|reflexivity|vm_compute; discriminate|reflexivity].
Defined.

Lemma Put_after_Del_restores_witness :
  let t := mkTree 1 (Full (Short 7 [x00] (Leaf [x78])) (Short 7 [x00] (Leaf [x79]))) in
  wf_tree t = true /\ 8 * keyLength t + 3 <= Z.of_nat 11
  /\ Get 11 t [x80] = Done ([x79], true)
  /\ exists t1, Del 11 t [x80] = Done (t1, true)
                /\ Put 11 t1 [x80] [x79] = Done (t, (false, None)).
Proof.
  cbv zeta. split; [reflexivity|]. split; [vm_compute; discriminate|].
  split; [reflexivity|].
  apply (Put_after_Del_restores 11
           (mkTree 1 (Full (Short 7 [x00] (Leaf [x78])) (Short 7 [x00] (Leaf [x79]))))
           [x80] [x79]); [reflexivity|vm_compute; discriminate|reflexivity].
Defined.

Lemma Put_last_wins_witness :
  let t := mkTree 1 (Full (Short 7 [x00] (Leaf [x78])) (Short 7 [x00] (Leaf [x79]))) in
  wf_tree t = true /\ len [x40] = keyLength t /\ 8 * keyLength t + 3 <= Z.of_nat 11
  /\ exists t1 t2 b1 b2,
       Put 11 t [x40] [x61] = Done (t1, (b1, None))
       /\ Put 11 t1 [x40] [x62] = Done (t2, (true, None))
       /\ Put 11 t [x40] [x62] = Done (t2, (b2, None)).
Proof.
  cbv zeta. split; [reflexivity|]. split; [reflexivity|].
  split; [vm_compute; discriminate|].
  apply (Put_last_wins 11
           (mkTree 1 (Full (Short 7 [x00] (Leaf [x78])) (Short 7 [x00] (Leaf [x79]))))
           [x40] [x61] [x62]); [reflexivity|reflexivity|vm_compute; discriminate].
Defined.

Lemma Put_commutes_witness :
  let t := mkTree 1 (Full (Short 7 [x00] (Leaf [x78])) (Short 7 [x00] (Leaf [x79]))) in
  wf_tree t = true /\ len [x40] = keyLength t /\ len [xc0] = keyLength t
  /\ [x40] <> [xc0] /\ 8 * keyLength t + 3 <= Z.of_nat 11
  /\ exists ta tb t' a1 a2 b1 b2,
       Put 11 t [x40] [x61] = Done (ta, (a1, None))
       /\ Put 11 ta [xc0] [x62] = Done (t', (a2, None))
       /\ Put 11 t [xc0] [x62] = Done (tb, (b1, None))
       /\ Put 11 tb [x40] [x61] = Done (t', (b2, None)).
Proof.
  cbv zeta. split; [reflexivity|]. split; [reflexivity|]. split; [reflexivity|].
  split; [discriminate|]. split; [vm_compute; discriminate|].
  apply (Put_commutes 11
           (mkTree 1 (Full (Short 7 [x00] (Leaf [x78])) (Short 7 [x00] (Leaf [x79]))))
           [x40] [x61] [xc0] [x62]);
    [reflexivity|reflexivity|reflexivity|discriminate|vm_compute; discriminate].
Defined.

Lemma Del_commutes_witness :
  let t := mkTree 1 (Full (Full (Short 6 [x00] (Leaf [x78])) (Short 6 [x00] (Leaf [x79])))
                          (Short 7 [x00] (Leaf [x7a]))) in
  wf_tree t = true /\ 8 * keyLength t + 3 <= Z.of_nat 11
  /\ exists ta tb t' a1 a2 b1 b2,
       Del 11 t [x40] = Done (ta, a1) /\ Del 11 ta [x80] = Done (t', a2)
       /\ Del 11 t [x80] = Done (tb, b1) /\ Del 11 tb [x40] = Done (t', b2).
Proof.
  cbv zeta. split; [reflexivity|]. split; [vm_compute; discriminate|].
  apply (Del_commutes 11
           (mkTree 1 (Full (Full (Short 6 [x00] (Leaf [x78])) (Short 6 [x00] (Leaf [x79])))
                           (Short 7 [x00] (Leaf [x7a]))))
           [x40] [x80]); [reflexivity|vm_compute; discriminate].
Defined.

Lemma merge_concatenates_witness :
  0 <= 1 /\ 0 <= 7 /\ 1 <= 8 * len [x80] /\ 7 <= 8 * len [x00]
  /\ exists v,
       merge 1 [x80] 7 [x00] (Leaf [x79]) = Done (Short (1 + 7) v (Leaf [x79]))
       /\ canon (1 + 7) v = true
       /\ (forall i, 0 <= i < 1 + 7 ->
                     bit v i = if i <? 1 then bit [x80] i else bit [x00] (i - 1))
       /\ forall key index,
            lookup (Short (1 + 7) v (Leaf [x79])) key index
            = lookup (Short 1 [x80] (Short 7 [x00] (Leaf [x79]))) key index.
Proof.
  split; [lia|]. split; [lia|].
  split; [vm_compute; discriminate|]. split; [vm_compute; discriminate|].
  apply (merge_concatenates 1 [x80] 7 [x00] (Leaf [x79]));
    [lia|lia|vm_compute; discriminate|vm_compute; discriminate].
Defined.

Lemma Put_into_empty_witness :
  NewTree 1 = inl (mkTree 1 Nil) /\ len [xff] = 1 /\ (2 <= 2)%nat
  /\ Put 2 (mkTree 1 Nil) [xff] [x61]
     = Done (mkTree 1 (Short (8 * 1) [xff] (Leaf [x61])), (false, None)).
Proof.
  split; [reflexivity|]. split; [reflexivity|]. split; [lia|].
  apply (Put_into_empty 1 (mkTree 1 Nil) 2 [xff] [x61]); [reflexivity|reflexivity|lia].
Defined.

Lemma empty_iff_nothing_found_witness :
  wf_tree (mkTree 1 Nil) = true /\ 8 * keyLength (mkTree 1 Nil) + 3 <= Z.of_nat 11
  /\ (root (mkTree 1 Nil) = Nil
      <-> forall key, Get 11 (mkTree 1 Nil) key = Done ([], false)).
Proof.
  split; [reflexivity|]. split; [vm_compute; discriminate|].
  apply (empty_iff_nothing_found 11 (mkTree 1 Nil)); [reflexivity|vm_compute; discriminate].
Defined.

Lemma reachable_invariants_witness :
  NewTree 1 = inl (mkTree 1 Nil) /\ 8 * 1 + 3 <= Z.of_nat 11
  /\ run_ops example_hash [x00] [x01] [x02] 11 (mkTree 1 Nil)
       [OpPut [x00] [x78]; OpPut [x40] [x79]; OpPut [x80] [x7a]; OpProve [x40];
        OpDel [x40]; OpHash]
     = Done (mkTree 1 (Full (Short 7 [x00] (Leaf [x78])) (Short 7 [x00] (Leaf [x7a]))))
  /\ (wf_tree (mkTree 1 (Full (Short 7 [x00] (Leaf [x78])) (Short 7 [x00] (Leaf [x7a]))))
      = true
      /\ keyLength (mkTree 1 (Full (Short 7 [x00] (Leaf [x78]))
                                   (Short 7 [x00] (Leaf [x7a])))) = 1
      /\ max_count (root (mkTree 1 (Full (Short 7 [x00] (Leaf [x78]))
                                         (Short 7 [x00] (Leaf [x7a]))))) <= 8 * 1
      /\ 8 * 1 <= 65536).
Proof.
  split; [reflexivity|]. split; [vm_compute; discriminate|]. split; [reflexivity|].
  apply (reachable_invariants example_hash [x00] [x01] [x02] 1 (mkTree 1 Nil)
           (mkTree 1 (Full (Short 7 [x00] (Leaf [x78])) (Short 7 [x00] (Leaf [x7a])))) 11
           [OpPut [x00] [x78]; OpPut [x40] [x79]; OpPut [x80] [x7a]; OpProve [x40];
            OpDel [x40]; OpHash]);
    [reflexivity|vm_compute; discriminate|reflexivity].
Defined.

Lemma history_independence_witness :
  let t := mkTree 1 (Short 8 [x80] (Leaf [x7a])) in
  NewTree 1 = inl (mkTree 1 Nil) /\ 8 * 1 + 3 <= Z.of_nat 11
  /\ run_ops example_hash [x00] [x01] [x02] 11 (mkTree 1 Nil)
       [OpPut [x00] [x78]; OpPut [x80] [x7a]; OpDel [x00]] = Done t
  /\ run_ops example_hash [x00] [x01] [x02] 11 (mkTree 1 Nil)
       [OpPut [x80] [x79]; OpPut [x80] [x7a]] = Done t
  /\ (forall key, Get 11 t key = Get 11 t key)
  /\ (t = t /\ exists h, Hash example_hash [x00] [x01] [x02] t = Done h
                         /\ Hash example_hash [x00] [x01] [x02] t = Done h).
Proof.
  cbv zeta. split; [reflexivity|]. split; [vm_compute; discriminate|].
  split; [reflexivity|]. split; [reflexivity|]. split; [reflexivity|].
  apply (history_independence example_hash [x00] [x01] [x02] 1 (mkTree 1 Nil)
           (mkTree 1 (Short 8 [x80] (Leaf [x7a]))) (mkTree 1 (Short 8 [x80] (Leaf [x7a]))) 11
           [OpPut [x00] [x78]; OpPut [x80] [x7a]; OpDel [x00]]
           [OpPut [x80] [x79]; OpPut [x80] [x7a]]);
    [reflexivity|vm_compute; discriminate|reflexivity|reflexivity|reflexivity].
Defined.

Lemma Prove_agrees_with_Get_witness :
  let t := mkTree 1 (Full (Short 7 [x00] (Leaf [x78])) (Short 7 [x00] (Leaf [x79]))) in
  wf_tree t = true /\ len [x80] = keyLength t /\ 8 * keyLength t + 3 <= Z.of_nat 11
  /\ exists v b o,
       Get 11 t [x80] = Done (v, b)
       /\ Prove example_hash [x00] [x01] [x02] 11 t [x80] = Done (o, b)
       /\ (b = false -> o = None)
       /\ (b = true -> exists p, o = Some p /\ Key p = [x80]
                                 /\ HashValue p = example_hash [x00] v).
Proof.
  cbv zeta. split; [reflexivity|]. split; [reflexivity|].
  split; [vm_compute; discriminate|].
  apply (Prove_agrees_with_Get example_hash [x00] [x01] [x02] 11
           (mkTree 1 (Full (Short 7 [x00] (Leaf [x78])) (Short 7 [x00] (Leaf [x79]))))
           [x80]); [reflexivity|reflexivity|vm_compute; discriminate].
Defined.

Lemma Prove_Verify_sound_witness :
  let t := mkTree 1 (Full (Short 7 [x00] (Leaf [x78])) (Short 7 [x00] (Leaf [x79]))) in
  wf_tree t = true /\ keyLength t <= 31 /\ 8 * keyLength t + 3 <= Z.of_nat 11
  /\ Get 11 t [x80] = Done ([x79], true)
  /\ exists p h,
       Prove example_hash [x00] [x01] [x02] 11 t [x80] = Done (Some p, true)
       /\ Hash example_hash [x00] [x01] [x02] t = Done h
       /\ Verify example_hash [x01] [x02] p h = Done true.
Proof.
  cbv zeta. split; [reflexivity|]. split; [vm_compute; discriminate|].
  split; [vm_compute; discriminate|]. split; [reflexivity|].
  apply (Prove_Verify_sound example_hash [x00] [x01] [x02] 11
           (mkTree 1 (Full (Short 7 [x00] (Leaf [x78])) (Short 7 [x00] (Leaf [x79]))))
           [x80] [x79]);
    [reflexivity|vm_compute; discriminate|vm_compute; discriminate|reflexivity].
Defined.

Lemma Verify_returns_witness :
  let p := mkProof [x80] [x79] [x00; x07] [[x78]] in
  full_entries (ShortCounts p) <= len (InterimHashes p)
  /\ len (InterimHashes p) + counts_sum (ShortCounts p) <= 8 * len (Key p)
  /\ exists b, Verify example_hash [x01] [x02] p [x00] = Done b
               /\ (b = true -> full_entries (ShortCounts p) = len (InterimHashes p)).
Proof.
  cbv zeta. split; [vm_compute; discriminate|]. split; [vm_compute; discriminate|].
  apply (Verify_returns example_hash [x01] [x02] (mkProof [x80] [x79] [x00; x07] [[x78]])
           [x00]); vm_compute; discriminate.
Defined.

Lemma Verify_panics_on_multiples_of_32_bytes_witness :
  NewTree 32 = inl (mkTree 32 Nil) /\ 32 = 32 * 1 /\ len (repeat x00 32) = 32
  /\ (2 <= 2)%nat
  /\ exists t p,
       Put 2 (mkTree 32 Nil) (repeat x00 32) [x61] = Done (t, (false, None))
       /\ Prove example_hash [x00] [x01] [x02] 2 t (repeat x00 32) = Done (Some p, true)
       /\ Verify example_hash [x01] [x02] p [] = Panic.
Proof.
  split; [reflexivity|]. split; [reflexivity|]. split; [reflexivity|]. split; [lia|].
  apply (Verify_panics_on_multiples_of_32_bytes example_hash [x00] [x01] [x02] 32 1
           (mkTree 32 Nil) 2 (repeat x00 32) [x61] []);
    [reflexivity|reflexivity|reflexivity|lia].
Defined.
